(** * The gaphor model coder ([gaphor/codegen/coder.py]) in Rocq

    A shallow embedding of the code generator that turns a UML-like model
    (classes, properties, generalizations, stereotype slots) into the lines of
    a Python data model, and the properties of it that the specification
    states.

    Python objects live in a heap and are referred to by identity; the heap is
    a record of finite maps from object identities to records of the fields
    the coder reads.  Generators are modelled by the trace of what they emit
    (lines and logged warnings) together with the exception that ended them,
    if any.  Recursive functions carry the recursion depth they may use; at
    depth zero they raise [RecursionError], as the interpreter does. *)

From Stdlib Require Import Ascii String Sorted.
From stdpp Require Import gmap strings list fin_maps pretty relations.

Open Scope string_scope.
Open Scope list_scope.
Open Scope nat_scope.

(** ** Exceptions and results *)

Inductive error :=
| ValueError (msg : string)
| AssertionError (msg : string)
| AttributeError
| IndexError
| TypeError
| RecursionError.

Inductive res (A : Type) :=
| Ok (a : A)
| Raise (e : error).
Arguments Ok {A} a.
Arguments Raise {A} e.

#[global] Instance res_ret : MRet res := λ A a, Ok a.
#[global] Instance res_bind : MBind res := λ A B f m,
  match m with
  | Ok a => f a
  | Raise e => Raise e
  end.

(** What a generator emits: a line of output or a warning on the log. *)
Inductive event :=
| Line (s : string)
| Warn (s : string).

(** A finished generator: everything it emitted, and the exception that
    stopped it (if one did). *)
Definition gen := (list event * option error)%type.

Definition gen_seq (g1 : gen) (g2 : gen) : gen :=
  match g1.2 with
  | Some e => g1
  | None => (g1.1 ++ g2.1, g2.2)
  end.

Definition gen_yield (s : string) : gen := ([Line s], None).
Definition gen_warn (s : string) : gen := ([Warn s], None).
Definition gen_skip : gen := ([], None).
Definition gen_raise (e : error) : gen := ([], Some e).

(** ** Python values and formatting *)

Inductive PyVal :=
| PNone
| PStr (s : string)
| PInt (z : Z)
| PBool (b : bool).

Definition truthy (v : PyVal) : bool :=
  match v with
  | PNone => false
  | PStr s => negb (String.eqb s "")
  | PInt z => negb (Z.eqb z 0)
  | PBool b => b
  end.

(** [f"{v}"] *)
Definition fmt_val (v : PyVal) : string :=
  match v with
  | PNone => "None"
  | PStr s => s
  | PInt z => pretty z
  | PBool true => "True"
  | PBool false => "False"
  end.

(** [f"{s}"] for a field that holds a string or [None]. *)
Definition fmt (s : option string) : string := default "None" s.

(** Truth value of a field that holds a string or [None]. *)
Definition str_truthy (s : option string) : bool :=
  match s with
  | Some s => negb (String.eqb s "")
  | None => false
  end.

(** [s.endswith(suffix)] and [s.startswith(prefix)]. *)
Definition endswith (s suffix : string) : bool :=
  String.prefix (String.rev suffix) (String.rev s).
Definition startswith (s p : string) : bool := String.prefix p s.

(** ** The data model *)

Abbreviation ClassId := nat (only parsing).
Abbreviation PropId := nat (only parsing).
Abbreviation PackageId := nat (only parsing).

Inductive UnlimitedNatural :=
| UNat (n : Z)
| UStar.

(** Value specifications. *)
Inductive Literal :=
| LiteralString (value : option string)
| LiteralInteger (value : option Z)
| LiteralUnlimitedNatural (value : option UnlimitedNatural)
| LiteralBoolean (value : option bool)
| LiteralOther.

(** A field that holds a value specification, a plain string (models saved by
    older versions) or nothing. *)
Inductive Value :=
| VNone
| VStr (s : string)
| VLiteral (l : Literal).

(** A slot of an applied stereotype: [slot.definingFeature.name] and what
    [UML.recipes.get_slot_value(slot)] returns for it. *)
Record Slot := {
  definingFeature_name : option string;
  slot_value : PyVal
}.

(** An association.  [ownedEnd] of an extension is its one extension end, and
    [ownedEnd_class_] is the class of that end; [ownedEnd] of any other
    association is a collection of ends, which has no attribute [class_]. *)
Record Association := {
  is_Extension : bool;            (* isinstance(association, UML.Extension) *)
  ownedEnd_class_ : ClassId;      (* association.ownedEnd.class_, of an extension *)
  association_str : string        (* str(association) *)
}.

Record Property := {
  prop_name : option string;
  owner : option ClassId;
  type : option ClassId;
  typeValue : option string;
  isDerived : bool;
  aggregation : string;
  defaultValue : Value;
  lowerValue : Value;
  upperValue : Value;
  opposite : option PropId;
  class_ : option ClassId;
  association : option Association;
  appliedStereotype : list (list Slot)   (* the slots of each applied stereotype *)
}.

Record Operation := { op_name : option string }.

Record Class := {
  cls_name : option string;
  ownedAttribute : list PropId;
  ownedOperation : list Operation;
  generalization : list ClassId;               (* g.general of each generalization *)
  applied_stereotypes : list (option string);  (* s.name of each applied stereotype *)
  owningPackage : option PackageId
}.

Record Package := {
  isProfile : bool;                            (* isinstance(p, UML.Profile) *)
  pkg_owningPackage : option PackageId
}.

Record Heap := {
  classes : gmap nat Class;
  properties : gmap nat Property;
  packages : gmap nat Package
}.

#[global] Instance Class_inhabited : Inhabited Class :=
  populate {| cls_name := None; ownedAttribute := []; ownedOperation := [];
              generalization := []; applied_stereotypes := [];
              owningPackage := None |}.

#[global] Instance Property_inhabited : Inhabited Property :=
  populate {| prop_name := None; owner := None; type := None; typeValue := None;
              isDerived := false; aggregation := "none"; defaultValue := VNone;
              lowerValue := VNone; upperValue := VNone; opposite := None;
              class_ := None; association := None; appliedStereotype := [] |}.

#[global] Instance Package_inhabited : Inhabited Package :=
  populate {| isProfile := false; pkg_owningPackage := None |}.

(** Dereferencing.  References held by Python objects never dangle; an
    identity outside the heap reads as an object with empty fields. *)
Definition cls (h : Heap) (c : ClassId) : Class := classes h !!! c.
Definition prop (h : Heap) (a : PropId) : Property := properties h !!! a.
Definition pkg (h : Heap) (p : PackageId) : Package := packages h !!! p.

(** ** Ordering classes *)

(** An iterable that is consumed lazily: its items, and the exception raised
    on asking for the next one after them (if any). *)
Definition iterable (A : Type) := (list A * option error)%type.

(** The body of the second loop of [bases], for one attribute: what it
    yields, if anything.  [a.association.ownedEnd.class_] is an
    [AttributeError] when the association is no extension. *)
Definition base_of_attribute (h : Heap) (a : PropId) : res (option ClassId) :=
  match association (prop h a) with
  | Some assoc =>
      if decide (prop_name (prop h a) = Some "baseClass")
      then if is_Extension assoc then Ok (Some (ownedEnd_class_ assoc))
           else Raise AttributeError
      else Ok None
  | None => Ok None
  end.

(** The second loop of [bases]: it yields until an attribute raises. *)
Fixpoint bases_of_attributes (h : Heap) (attrs : list PropId) : iterable ClassId :=
  match attrs with
  | [] => ([], None)
  | a :: attrs' =>
      match base_of_attribute h a with
      | Raise e => ([], Some e)
      | Ok b =>
          let '(r, e) := bases_of_attributes h attrs' in
          (option_list b ++ r, e)
      end
  end.

(** [bases] is a generator: it yields the generals of the generalizations,
    then what the attributes named [baseClass] extend, and it may end in an
    exception after that. *)
Definition bases (h : Heap) (c : ClassId) : iterable ClassId :=
  let '(r, e) := bases_of_attributes h (ownedAttribute (cls h c)) in
  (generalization (cls h c) ++ r, e).

(** [for x in l: yield from f(x)], threading the state [f] updates. *)
Fixpoint yield_from_each {A B S : Type} (f : A → S → res (list B * S))
    (l : list A) (s : S) : res (list B * S) :=
  match l with
  | [] => Ok ([], s)
  | x :: l' =>
      '(out1, s1) ← f x s;
      '(out2, s2) ← yield_from_each f l' s1;
      Ok (out1 ++ out2, s2)
  end.

(** The inner generator [order(c)] of [order_classes]; the state is
    [seen_classes]. *)
Fixpoint order (fuel : nat) (h : Heap) (c : ClassId) (seen_classes : gset nat)
    : res (list ClassId * gset nat) :=
  match fuel with
  | 0 => Raise RecursionError
  | S fuel' =>
      if decide (c ∈ seen_classes) then Ok ([], seen_classes)
      else
        '(out, seen') ← yield_from_each (order fuel' h) (bases h c).1 seen_classes;
        match (bases h c).2 with
        | Some e => Raise e
        | None => Ok (out ++ [c], {[c]} ∪ seen')
        end
  end.

(** [list(order_classes(classes))] *)
Definition order_classes (fuel : nat) (h : Heap) (classes : iterable ClassId)
    : res (list ClassId) :=
  '(out, _) ← yield_from_each (order fuel h) classes.1 ∅;
  match classes.2 with
  | None => Ok out
  | Some e => Raise e
  end.

(** ** Classifier predicates *)

(** [is_enumeration(c)], for a reference that may be [None]. *)
Definition is_enumeration (h : Heap) (c : option ClassId) : bool :=
  match c with
  | None => false
  | Some c =>
      match cls_name (cls h c) with
      | None => false
      | Some n => negb (String.eqb n "") && (endswith n "Kind" || endswith n "Sort")
      end
  end.

Definition is_tilde_type (h : Heap) (c : ClassId) : bool :=
  match cls_name (cls h c) with
  | None => false
  | Some n => negb (String.eqb n "") && startswith n "~"
  end.

(** [any(f(x) for x in l)]: stops at the first true value, or at the first
    exception. *)
Fixpoint any_res {A : Type} (f : A → res bool) (l : list A) : res bool :=
  match l with
  | [] => Ok false
  | x :: l' => b ← f x; if (b : bool) then Ok true else any_res f l'
  end.

(** [any(f(x) for x in it)] over an iterable that may raise when it is asked
    for an item after the last one. *)
Definition any_iter {A : Type} (f : A → res bool) (it : iterable A) : res bool :=
  b ← any_res f it.1;
  if (b : bool) then Ok true
  else match it.2 with
       | Some e => Raise e
       | None => Ok false
       end.

Fixpoint is_simple_type (fuel : nat) (h : Heap) (c : ClassId) : res bool :=
  match fuel with
  | 0 => Raise RecursionError
  | S fuel' =>
      if existsb (λ s, bool_decide (s = Some "SimpleAttribute"))
           (applied_stereotypes (cls h c))
      then Ok true
      else any_res (is_simple_type fuel' h) (generalization (cls h c))
  end.

Definition is_extension_end (a : Property) : bool :=
  match association a with
  | Some assoc => is_Extension assoc
  | None => false
  end.

(** The inner [test(p)] of [is_in_profile]; [p] may be [None], which has no
    [owningPackage]. *)
Fixpoint is_in_profile_test (fuel : nat) (h : Heap) (p : option PackageId) : res bool :=
  match fuel with
  | 0 => Raise RecursionError
  | S fuel' =>
      match p with
      | None => Raise AttributeError
      | Some p =>
          if isProfile (pkg h p) then Ok true
          else match pkg_owningPackage (pkg h p) with
               | None => Ok false
               | Some q => is_in_profile_test fuel' h (Some q)
               end
      end
  end.

Definition is_in_profile (fuel : nat) (h : Heap) (c : ClassId) : res bool :=
  is_in_profile_test fuel h (owningPackage (cls h c)).

(** The inner [test(c)] of [is_reassignment]. *)
Fixpoint is_reassignment_test (fuel : nat) (h : Heap) (a : Property) (c : ClassId)
    : res bool :=
  match fuel with
  | 0 => Raise RecursionError
  | S fuel' =>
      if existsb (λ attr, bool_decide (prop_name (prop h attr) = prop_name a))
           (ownedAttribute (cls h c))
      then Ok true
      else any_iter (is_reassignment_test fuel' h a) (bases h c)
  end.

Definition is_reassignment (fuel : nat) (h : Heap) (a : Property) : res bool :=
  match owner a with
  | None => Raise AttributeError
  | Some o => any_iter (is_reassignment_test fuel h a) (bases h o)
  end.

(** All slots of all applied stereotypes: [a.appliedStereotype[:].slot]. *)
Definition slots (a : Property) : list Slot := concat (appliedStereotype a).

Definition redefines (a : Property) : PyVal :=
  match filter (λ slot, definingFeature_name slot = Some "redefines") (slots a) with
  | slot :: _ => slot_value slot
  | [] => PNone
  end.

(** ** Strings *)

(** The double quote character. *)
Definition dq : string := String "034"%char EmptyString.

(** The newline character. *)
Definition nl : string := String "010"%char EmptyString.

(** [sep.join(l)] *)
Definition join (sep : string) (l : list string) : string := String.concat sep l.

(** [s.split(",")]: never empty, the empty string splits into one empty
    string. *)
Fixpoint split_comma (s : string) : list string :=
  match s with
  | EmptyString => [EmptyString]
  | String c s' =>
      if Ascii.eqb c ","%char then EmptyString :: split_comma s'
      else match split_comma s' with
           | x :: r => String c x :: r
           | [] => [String c EmptyString]
           end
  end.

(** White space as [str.strip] sees it.  A string is the sequence of its
    characters, each by its code point, which is below 256 here; the white
    space among these is the range 9 to 13, the range 28 to 32, the next-line
    character (133) and the no-break space (160). *)
Definition is_whitespace (c : ascii) : bool :=
  let n := nat_of_ascii c in
  ((9 <=? n)%nat && (n <=? 13)%nat) || ((28 <=? n)%nat && (n <=? 32)%nat)
  || (n =? 133)%nat || (n =? 160)%nat.

Fixpoint lstrip (s : string) : string :=
  match s with
  | EmptyString => EmptyString
  | String c s' => if is_whitespace c then lstrip s' else s
  end.

(** [s.strip()] *)
Definition strip (s : string) : string :=
  String.rev (lstrip (String.rev (lstrip s))).

Definition is_upper (c : ascii) : bool :=
  let n := nat_of_ascii c in (65 <=? n)%nat && (n <=? 90)%nat.
Definition is_lower (c : ascii) : bool :=
  let n := nat_of_ascii c in (97 <=? n)%nat && (n <=? 122)%nat.
Definition to_upper (c : ascii) : ascii :=
  if is_lower c then ascii_of_nat (nat_of_ascii c - 32) else c.
Definition to_lower (c : ascii) : ascii :=
  if is_upper c then ascii_of_nat (nat_of_ascii c + 32) else c.

(** [s.title()] for the ASCII range: a cased character is put in upper case
    when the character before it is not cased, in lower case otherwise. *)
Fixpoint title_from (previous_is_cased : bool) (s : string) : string :=
  match s with
  | EmptyString => EmptyString
  | String c s' =>
      String (if previous_is_cased then to_lower c else to_upper c)
             (title_from (is_upper c || is_lower c) s')
  end.

Definition title (s : string) : string := title_from false s.

(** [sorted(l, key=key)] for string keys: a stable sort. *)
Fixpoint insert_by {A : Type} (key : A → string) (x : A) (l : list A) : list A :=
  match l with
  | [] => [x]
  | y :: l' =>
      if String.leb (key x) (key y) then x :: y :: l' else y :: insert_by key x l'
  end.

Definition sorted {A : Type} (key : A → string) (l : list A) : list A :=
  foldr (insert_by key) [] l.

(** ** What the coder takes from outside this file *)

(** The functions of [UML.recipes] the coder calls on value specifications and
    on multiplicities, and the text [str(...)] gives for a value
    specification. *)
Record Recipes := {
  get_literal_value_as_string : Literal → option string;
  get_multiplicity_upper_value_as_string : Property → option string;
  literal_str : Literal → string
}.

(** An [Overrides] object. *)
Record Overrides := {
  header_override : string;
  has_override : string → bool;
  get_override : string → string;
  get_type : string → string
}.

(** A generated element type: [__module__] and [__name__]. *)
Record ElementType := {
  module_ : string;
  name_ : string
}.

Record ModelingLanguage := {
  lookup_element : option string → option ElementType
}.

(** An element factory, by what [select] yields from it: its classes and its
    properties, in the factory's order. *)
Record ElementFactory := {
  select_Class : list ClassId;
  select_Property : list PropId
}.

(** The text the generated file starts with. *)
Definition header : string :=
  join nl [
    "# This file is generated by coder.py. DO NOT EDIT!";
    "# ruff: noqa: F401, E402, F811";
    "# fmt: off";
    "";
    "from __future__ import annotations";
    "";
    "from gaphor.core.modeling.properties import (";
    "    association,";
    "    attribute as _attribute,";
    "    derived,";
    "    derivedunion,";
    "    enumeration as _enumeration,";
    "    redefine,";
    "    relation_many,";
    "    relation_one,";
    ")";
    "";
    "from gaphor.core.modeling.base import UnlimitedNatural";
    "";
    ""
  ].

(** Running generators one after the other. *)
Definition gen_concat (l : list gen) : gen := foldr gen_seq gen_skip l.

Definition lines (evs : list event) : list string :=
  omap (λ e, match e with Line s => Some s | Warn _ => None end) evs.

Definition warnings (evs : list event) : list string :=
  omap (λ e, match e with Warn s => Some s | Line _ => None end) evs.

Section coder.

Variable R : Recipes.
Variable fuel : nat.
Variable overrides : option Overrides.
Variable super_models : list (ModelingLanguage * ElementFactory).

(** The overrides object when it has an override for [name]. *)
Definition override_for (name : string) : option Overrides :=
  match overrides with
  | Some o => if has_override o name then Some o else None
  | None => None
  end.

(** ** Default values and bounds *)

Definition value_truthy (v : Value) : bool :=
  match v with
  | VNone => false
  | VStr s => negb (String.eqb s "")
  | VLiteral _ => true
  end.

(** [f"{v}"] *)
Definition fmt_value (v : Value) : string :=
  match v with
  | VNone => "None"
  | VStr s => s
  | VLiteral l => literal_str R l
  end.

(** [isinstance(v, LiteralString | LiteralInteger | LiteralUnlimitedNatural
    | LiteralBoolean)] *)
Definition is_primitive_literal (v : Value) : option Literal :=
  match v with
  | VLiteral (LiteralString _ as l) | VLiteral (LiteralInteger _ as l)
  | VLiteral (LiteralUnlimitedNatural _ as l) | VLiteral (LiteralBoolean _ as l) =>
      Some l
  | _ => None
  end.

(** [isinstance(v, LiteralBoolean | LiteralString)] *)
Definition is_boolean_or_string_literal (v : Value) : option Literal :=
  match v with
  | VLiteral (LiteralString _ as l) | VLiteral (LiteralBoolean _ as l) => Some l
  | _ => None
  end.

Definition default_value (h : Heap) (a : Property) : res string :=
  if value_truthy (defaultValue a) then
    defaultValue ←
      (if bool_decide (typeValue a = Some "int") then
         match is_primitive_literal (defaultValue a) with
         | Some l => Ok (fmt (get_literal_value_as_string R l))
         | None =>
             match defaultValue a with
             | VStr s => Ok (title s)
             | _ => Raise AttributeError
             end
         end
       else if bool_decide (typeValue a = Some "str") then
         match is_primitive_literal (defaultValue a) with
         | Some l => Ok (fmt (get_literal_value_as_string R l))
         | None => Ok (dq +:+ fmt_value (defaultValue a) +:+ dq)
         end
       else if bool_decide (typeValue a = Some "bool") then
         let defaultValue : option string + Literal :=
           match is_boolean_or_string_literal (defaultValue a) with
           | Some l => inl (get_literal_value_as_string R l)
           | None =>
               match defaultValue a with
               | VStr s => inl (Some s)
               | VLiteral l => inr l
               | VNone => inl None
               end
           end in
         match defaultValue with
         | inl s =>
             if bool_decide (s = Some "true") then Ok "True"
             else if bool_decide (s = Some "false") then Ok "False"
             else Ok (fmt s)
         | inr l => Ok (literal_str R l)
         end
       else
         match owner a with
         | None => Raise AttributeError
         | Some o =>
             Raise (ValueError
               ("Unknown default value type: " +:+ fmt (cls_name (cls h o)) +:+ "."
                +:+ fmt (prop_name a) +:+ ": " +:+ fmt (typeValue a) +:+ " = "
                +:+ fmt_value (defaultValue a)))
         end);
    Ok (", default=" +:+ defaultValue)
  else Ok "".

Definition lower (a : Property) : string :=
  match lowerValue a with
  | VLiteral (LiteralInteger v) =>
      match v with
      | Some z => if Z.eqb z 0 then "" else ", lower=" +:+ pretty z
      | None => ""
      end
  | VNone => ""
  | VStr s =>
      if String.eqb s "0" then ""
      else if String.eqb s "" then "" else ", lower=" +:+ s
  | VLiteral l => ", lower=" +:+ literal_str R l
  end.

Definition upper (a : Property) : string :=
  match upperValue a with
  | VLiteral (LiteralUnlimitedNatural v) =>
      match v with
      | Some (UNat n) => if Z.eqb n 0 then "" else ", upper=" +:+ pretty n
      | Some UStar => ""
      | None => ""
      end
  | VNone => ""
  | VStr s =>
      if String.eqb s "*" then ""
      else if String.eqb s "" then "" else ", upper=" +:+ s
  | VLiteral l => ", upper=" +:+ literal_str R l
  end.

Definition composite (a : Property) : string :=
  if String.eqb (aggregation a) "composite" then ", composite=True" else "".

Definition opposite_text (h : Heap) (a : Property) : string :=
  match opposite a with
  | Some o =>
      if str_truthy (prop_name (prop h o)) && bool_decide (is_Some (class_ (prop h o)))
      then ", opposite=" +:+ dq +:+ fmt (prop_name (prop h o)) +:+ dq
      else ""
  | None => ""
  end.

(** ** Class declarations and their variables *)

Definition class_declaration (h : Heap) (class_ : ClassId) : res string :=
  (* [sorted] first takes all of [bases(class_)] *)
  match (bases h class_).2 with
  | Some e => Raise e
  | None =>
      let sorted_bases :=
        sorted (λ c, default "" (cls_name (cls h c))) (bases h class_).1 in
      (* comparing or joining a name that is None is a TypeError *)
      if forallb (λ c, bool_decide (is_Some (cls_name (cls h c)))) (bases h class_).1 then
        let base_classes := join ", " (fmap (λ c, fmt (cls_name (cls h c))) sorted_bases) in
        Ok ("class " +:+ fmt (cls_name (cls h class_)) +:+ "(" +:+ base_classes +:+ "):")
      else Raise TypeError
  end.

(** The body of the loop over the attributes in [variables]. *)
Definition variables_attribute (h : Heap) (class_ : ClassId) (a : Property) : gen :=
  if is_extension_end a then gen_skip
  else
    let full_name := fmt (cls_name (cls h class_)) +:+ "." +:+ fmt (prop_name a) in
    match override_for full_name with
    | Some o => gen_yield (fmt (prop_name a) +:+ ": " +:+ get_type o full_name)
    | None =>
        if isDerived a && negb (bool_decide (is_Some (type a))) then
          gen_warn ("Derived attribute " +:+ full_name +:+ " has no implementation.")
        else if str_truthy (typeValue a) then
          match default_value h a with
          | Ok d =>
              gen_yield (fmt (prop_name a) +:+ ": _attribute[" +:+ fmt (typeValue a)
                         +:+ "] = _attribute(" +:+ dq +:+ fmt (prop_name a) +:+ dq
                         +:+ ", " +:+ fmt (typeValue a) +:+ d +:+ ")")
          | Raise e => gen_raise e
          end
        else if is_enumeration h (type a) then
          match type a with
          | Some t =>
              let enum_values :=
                join ", " (fmap (λ e, dq +:+ fmt (prop_name (prop h e)) +:+ dq)
                               (ownedAttribute (cls h t))) in
              match ownedAttribute (cls h t) !! 0 with
              | Some e0 =>
                  gen_yield (fmt (prop_name a) +:+ " = _enumeration(" +:+ dq
                             +:+ fmt (prop_name a) +:+ dq +:+ ", (" +:+ enum_values
                             +:+ "), " +:+ dq +:+ fmt (prop_name (prop h e0)) +:+ dq
                             +:+ ")")
              | None => gen_raise IndexError
              end
          | None => gen_skip
          end
        else
          match type a with
          | Some t =>
              let mult :=
                if bool_decide (get_multiplicity_upper_value_as_string R a = Some "1")
                then "one" else "many" in
              match is_reassignment fuel h a with
              | Ok r =>
                  let comment := if r then "  # type: ignore[assignment]" else "" in
                  gen_yield (fmt (prop_name a) +:+ ": relation_" +:+ mult +:+ "["
                             +:+ fmt (cls_name (cls h t)) +:+ "]" +:+ comment)
              | Raise e => gen_raise e
              end
          | None =>
              match owner a with
              | Some o =>
                  gen_raise (ValueError
                    (fmt (prop_name a) +:+ ": None can not be written; owner="
                     +:+ fmt (cls_name (cls h o))))
              | None => gen_raise (AssertionError "")
              end
          end
    end.

(** The body of the loop over the operations in [variables]. *)
Definition variables_operation (h : Heap) (class_ : ClassId) (o : Operation) : gen :=
  let full_name := fmt (cls_name (cls h class_)) +:+ "." +:+ fmt (op_name o) in
  match override_for full_name with
  | Some ov => gen_yield (fmt (op_name o) +:+ ": " +:+ get_type ov full_name)
  | None => gen_warn ("Operation " +:+ full_name +:+ " has no implementation")
  end.

Definition variables (h : Heap) (class_ : ClassId) : gen :=
  gen_seq
    (gen_concat
       (fmap (variables_attribute h class_)
            (sorted (λ a, default "" (prop_name a))
                    (fmap (prop h) (ownedAttribute (cls h class_))))))
    (gen_concat
       (fmap (variables_operation h class_)
            (sorted (λ o, default "" (op_name o)) (ownedOperation (cls h class_))))).

Definition operations (h : Heap) (c : ClassId) : gen :=
  gen_concat
    (fmap (λ o,
            let full_name := fmt (cls_name (cls h c)) +:+ "." +:+ fmt (op_name o) in
            match override_for full_name with
            | Some ov => gen_yield (get_override ov full_name)
            | None => gen_skip
            end)
         (sorted (λ o, default "" (op_name o)) (ownedOperation (cls h c)))).

(** ** Associations *)

(** [not a.type or is_simple_type(a.type) or is_enumeration(a.type) or
    is_extension_end(a)]: the attributes the second pass leaves out. *)
Definition not_an_association (h : Heap) (a : Property) : res bool :=
  match type a with
  | None => Ok true
  | Some t =>
      simple ← is_simple_type fuel h t;
      Ok (simple || is_enumeration h (Some t) || is_extension_end a)
  end.

Definition type_name (h : Heap) (a : Property) : string :=
  match type a with
  | Some t => fmt (cls_name (cls h t))
  | None => "None"
  end.

Definition redefine_line (h : Heap) (c : ClassId) (a : Property) : string :=
  fmt (cls_name (cls h c)) +:+ "." +:+ fmt (prop_name a) +:+ " = redefine("
  +:+ fmt (cls_name (cls h c)) +:+ ", " +:+ dq +:+ fmt (prop_name a) +:+ dq +:+ ", "
  +:+ type_name h a +:+ ", " +:+ fmt_val (redefines a) +:+ opposite_text h a +:+ ")".

Definition derivedunion_line (h : Heap) (c : ClassId) (a : Property) : string :=
  fmt (cls_name (cls h c)) +:+ "." +:+ fmt (prop_name a) +:+ " = derivedunion("
  +:+ dq +:+ fmt (prop_name a) +:+ dq +:+ ", " +:+ type_name h a
  +:+ lower a +:+ upper a +:+ ")".

Definition association_line (h : Heap) (c : ClassId) (a : Property) : string :=
  fmt (cls_name (cls h c)) +:+ "." +:+ fmt (prop_name a) +:+ " = association("
  +:+ dq +:+ fmt (prop_name a) +:+ dq +:+ ", " +:+ type_name h a
  +:+ lower a +:+ upper a +:+ composite a +:+ opposite_text h a +:+ ")".

(** The loop of [associations] over the attributes still to visit, with the
    [redefinitions] collected so far; they are yielded after the loop. *)
Fixpoint associations_loop (h : Heap) (c : ClassId) (attrs : list Property)
    (redefinitions : list string) : gen :=
  match attrs with
  | [] => (Line <$> redefinitions, None)
  | a :: attrs' =>
      let full_name := fmt (cls_name (cls h c)) +:+ "." +:+ fmt (prop_name a) in
      match override_for full_name with
      | Some o =>
          gen_seq (gen_yield (get_override o full_name))
                  (associations_loop h c attrs' redefinitions)
      | None =>
          match not_an_association h a with
          | Raise e => gen_raise e
          | Ok true => associations_loop h c attrs' redefinitions
          | Ok false =>
              if truthy (redefines a) then
                associations_loop h c attrs' (redefinitions ++ [redefine_line h c a])
              else if isDerived a then
                gen_seq (gen_yield (derivedunion_line h c a))
                        (associations_loop h c attrs' redefinitions)
              else if negb (str_truthy (prop_name a)) then
                gen_raise (ValueError
                  ("Unnamed attribute: " +:+ full_name +:+ " ("
                   +:+ from_option association_str "None" (association a) +:+ ")"))
              else
                gen_seq (gen_yield (association_line h c a))
                        (associations_loop h c attrs' redefinitions)
          end
      end
  end.

Definition associations (h : Heap) (c : ClassId) : gen :=
  associations_loop h c (fmap (prop h) (ownedAttribute (cls h c))) [].

(** ** Looking features up, also in the super models *)

(** The loop of [in_super_model] over the classes of one factory that have
    the [name] looked for. *)
Fixpoint in_super_model_factory (h : Heap) (modeling_language : ModelingLanguage)
    (l : list ClassId) : res (option (ElementType * ClassId)) :=
  match l with
  | [] => Ok None
  | c :: l' =>
      in_profile ← is_in_profile fuel h c;
      if in_profile || is_enumeration h (Some c)
      then in_super_model_factory h modeling_language l'
      else
        match lookup_element modeling_language (cls_name (cls h c)) with
        | Some element_type => Ok (Some (element_type, c))
        | None =>
            Raise (AssertionError
              ("Type " +:+ fmt (cls_name (cls h c))
               +:+ " found in model, but not in generated model"))
        end
  end.

(** [in_super_model]: the element type and the class, or nothing (the pair
    [(None, None)]). *)
Fixpoint in_super_model_from (h : Heap) (name : option string)
    (models : list (ModelingLanguage * ElementFactory))
    : res (option (ElementType * ClassId)) :=
  match models with
  | [] => Ok None
  | (modeling_language, factory) :: models' =>
      found ← in_super_model_factory h modeling_language
                (filter (λ e, cls_name (cls h e) = name) (select_Class factory));
      match found with
      | Some r => Ok (Some r)
      | None => in_super_model_from h name models'
      end
  end.

Definition in_super_model (h : Heap) (name : option string)
    : res (option (ElementType * ClassId)) :=
  in_super_model_from h name super_models.

(** The loop of [attribute] over the bases: the first base in which the
    feature is found. *)
Fixpoint attribute_in_bases
    (attribute : ClassId → res (option ElementType * option PropId))
    (l : list ClassId) : res (option (option ElementType * PropId)) :=
  match l with
  | [] => Ok None
  | base :: l' =>
      '(element_type, a) ← attribute base;
      match a with
      | Some a => Ok (Some (element_type, a))
      | None => attribute_in_bases attribute l'
      end
  end.

Fixpoint attribute (depth : nat) (h : Heap) (c : ClassId) (name : string)
    : res (option ElementType * option PropId) :=
  match depth with
  | 0 => Raise RecursionError
  | S depth' =>
      match filter (λ a, prop_name (prop h a) = Some name) (ownedAttribute (cls h c)) with
      | a :: _ => Ok (None, Some a)
      | [] =>
          in_base ← attribute_in_bases (λ base, attribute depth' h base name)
                       (bases h c).1;
          match in_base with
          | Some (element_type, a) => Ok (element_type, Some a)
          | None =>
              match (bases h c).2 with
              | Some e => Raise e
              | None =>
                  found ← in_super_model h (cls_name (cls h c));
                  match found with
                  | Some (element_type, super_class) =>
                      if decide (c = super_class) then Ok (None, None)
                      else
                        '(_, a) ← attribute depth' h super_class name;
                        Ok (Some element_type, a)
                  | None => Ok (None, None)
                  end
              end
          end
      end
  end.

(** ** Subsets *)

(** The body of the innermost loop of [subsets], for one name in the slot's
    value. *)
Definition subsets_value (h : Heap) (c : ClassId) (full_name : string) (value : string)
    : gen :=
  match attribute fuel h c (strip value) with
  | Raise e => gen_raise e
  | Ok (element_type, d) =>
      if bool_decide (is_Some d) (* and d.isDerived *) then
        match d with
        | Some d =>
            match owner (prop h d) with
            | None => gen_raise AttributeError
            | Some o =>
                gen_seq
                  (match element_type with
                   | Some element_type =>
                       gen_yield ("from " +:+ module_ element_type +:+ " import "
                                  +:+ fmt (cls_name (cls h o)))
                   | None => gen_skip
                   end)
                  (gen_yield (fmt (cls_name (cls h o)) +:+ "." +:+ fmt (prop_name (prop h d))
                              +:+ ".add(" +:+ full_name
                              +:+ ")  # type: ignore[attr-defined]"))
            end
        | None => gen_skip
        end
      else if negb (bool_decide (is_Some d)) then
        gen_warn (full_name +:+ " wants to subset " +:+ strip value
                  +:+ ", but it is not defined")
      else
        gen_warn (full_name +:+ " wants to subset " +:+ strip value
                  +:+ ", but it is not a derived union")
  end.

(** The body of the loop of [subsets] over the slots of an attribute. *)
Definition subsets_slot (h : Heap) (c : ClassId) (a : Property) (slot : Slot) : gen :=
  if bool_decide (definingFeature_name slot = Some "subsets") then
    let full_name := fmt (cls_name (cls h c)) +:+ "." +:+ fmt (prop_name a) in
    let slotValue :=
      match slot_value slot with
      | PStr s => s
      | _ => ""
      end in
    gen_concat (fmap (subsets_value h c full_name) (split_comma slotValue))
  else gen_skip.

Definition subsets_attribute (h : Heap) (c : ClassId) (a : Property) : gen :=
  match not_an_association h a with
  | Raise e => gen_raise e
  | Ok true => gen_skip
  | Ok false => gen_concat (fmap (subsets_slot h c a) (slots a))
  end.

Definition subsets (h : Heap) (c : ClassId) : gen :=
  gen_concat (fmap (λ a, subsets_attribute h c (prop h a)) (ownedAttribute (cls h c))).

(** ** The coder *)

(** [c.name = name] *)
Definition set_name (h : Heap) (c : ClassId) (name : option string) : Heap :=
  {| classes :=
       <[c := {| cls_name := name;
                 ownedAttribute := ownedAttribute (cls h c);
                 ownedOperation := ownedOperation (cls h c);
                 generalization := generalization (cls h c);
                 applied_stereotypes := applied_stereotypes (cls h c);
                 owningPackage := owningPackage (cls h c) |}]> (classes h);
     properties := properties h;
     packages := packages h |}.

(** The condition of the generator expression in [coder]. *)
Definition is_candidate (h : Heap) (c : ClassId) : res bool :=
  if is_enumeration h (Some c) then Ok false
  else
    simple ← is_simple_type fuel h c;
    if (simple : bool) then Ok false
    else
      in_profile ← is_in_profile fuel h c;
      if (in_profile : bool) then Ok false
      else Ok (negb (is_tilde_type h c)).

(** [(x for x in l if f(x))] *)
Fixpoint select_if {A : Type} (f : A → res bool) (l : list A) : iterable A :=
  match l with
  | [] => ([], None)
  | x :: l' =>
      match f x with
      | Raise e => ([], Some e)
      | Ok b =>
          let '(r, e) := select_if f l' in
          ((if b then [x] else []) ++ r, e)
      end
  end.

(** [overrides and overrides.has_override(c.name)]; a class without a name
    has no override. *)
Definition class_override (h : Heap) (c : ClassId) : option (Overrides * string) :=
  match cls_name (cls h c) with
  | Some n =>
      match override_for n with
      | Some o => Some (o, n)
      | None => None
      end
  | None => None
  end.

(** What the first loop of [coder] looks up for a class: when [bases]
    yields nothing for it, the class of its name in the super models, if
    any. *)
Definition super_model_class (h : Heap) (c : ClassId)
    : res (option (ElementType * ClassId)) :=
  match bases h c with
  | (_ :: _, _) => Ok None                 (* any(bases(c)) *)
  | ([], Some e) => Raise e
  | ([], None) => in_super_model h (cls_name (cls h c))
  end.

(** The body of the first loop of [coder] over the ordered [classes]; its
    state is the heap (a class may be renamed) and [already_imported]. *)
Definition declare_class (classes : list ClassId) (st : Heap * gset string) (c : ClassId)
    : list event * (Heap * gset string) * option error :=
  let '(h, already_imported) := st in
  match class_override h c with
  | Some (o, n) => ([Line (get_override o n)], st, None)
  | None =>
      match super_model_class h c with
      | Raise e => ([], st, Some e)
      | Ok (Some (element_type, _)) =>
          let line := "from " +:+ module_ element_type +:+ " import "
                      +:+ name_ element_type in
          if bool_decide
               (1 < length (filter (λ t, cls_name (cls h t) = cls_name (cls h c)) classes))
          then
            let line := line +:+ " as _" +:+ fmt (cls_name (cls h c)) in
            ([Line line],
             (set_name h c (Some ("_" +:+ fmt (cls_name (cls h c)))),
              {[line]} ∪ already_imported),
             None)
          else ([Line line], (h, {[line]} ∪ already_imported), None)
      | Ok None =>
          match class_declaration h c with
          | Raise e => ([], st, Some e)
          | Ok declaration =>
              let '(evs, err) := variables h c in
              let logged := Warn <$> warnings evs in
              match err with
              | Some e => (Line declaration :: logged, st, Some e)
              | None =>
                  let properties := lines evs in
                  (Line declaration :: logged
                     ++ (if bool_decide (properties = []) then [Line "    pass"]
                         else (λ p, Line ("    " +:+ p)) <$> properties)
                     ++ [Line ""; Line ""],
                   st, None)
              end
          end
      end
  end.

(** A loop whose body emits events, updates a state and may raise. *)
Fixpoint for_each {A S : Type} (body : S → A → list event * S * option error)
    (l : list A) (st : S) : list event * S * option error :=
  match l with
  | [] => ([], st, None)
  | x :: l' =>
      let '(ev, st', err) := body st x in
      match err with
      | Some e => (ev, st', Some e)
      | None =>
          let '(ev2, st2, err2) := for_each body l' st' in
          (ev ++ ev2, st2, err2)
      end
  end.

(** What the last loop of [coder] does with the lines of [subsets]: an
    import line is passed on only the first time it is seen. *)
Fixpoint register_imports (evs : list event) (already_imported : gset string)
    : list event * gset string :=
  match evs with
  | [] => ([], already_imported)
  | Line line :: evs' =>
      if startswith line "from " then
        let '(r, imported) := register_imports evs' ({[line]} ∪ already_imported) in
        ((if decide (line ∈ already_imported) then [] else [Line line]) ++ r, imported)
      else
        let '(r, imported) := register_imports evs' already_imported in
        (Line line :: r, imported)
  | Warn w :: evs' =>
      let '(r, imported) := register_imports evs' already_imported in
      (Warn w :: r, imported)
  end.

(** The body of the last loop of [coder]. *)
Definition link_class (h : Heap) (already_imported : gset string) (c : ClassId)
    : list event * gset string * option error :=
  let '(ev_a, err_a) := associations h c in
  match err_a with
  | Some e => (ev_a, already_imported, Some e)
  | None =>
      let '(ev_s, err_s) := subsets h c in
      let '(ev, imported) := register_imports ev_s already_imported in
      (ev_a ++ ev, imported, err_s)
  end.

(** [coder]: the events of the run, the heap it leaves and the exception
    that ended it, if any. *)
Definition coder (h : Heap) (model : ElementFactory) : list event * Heap * option error :=
  match order_classes fuel h (select_if (is_candidate h) (select_Class model)) with
  | Raise e => ([], h, Some e)
  | Ok classes =>
      let head :=
        Line header ::
        match overrides with
        | Some o =>
            if String.eqb (header_override o) "" then [] else [Line (header_override o)]
        | None => []
        end in
      let '(ev1, (h1, already_imported), err1) :=
        for_each (declare_class classes) classes (h, ∅) in
      match err1 with
      | Some e => (head ++ ev1, h1, Some e)
      | None =>
          let '(ev2, err2) := gen_concat (fmap (operations h1) classes) in
          match err2 with
          | Some e => (head ++ ev1 ++ ev2, h1, Some e)
          | None =>
              let '(ev3, _, err3) := for_each (link_class h1) classes already_imported in
              (head ++ ev1 ++ ev2 ++ [Line ""] ++ ev3, h1, err3)
          end
      end
  end.

(** ** The normalization pass *)

Definition set_prop (h : Heap) (a : PropId) (p : Property) : Heap :=
  {| classes := classes h;
     properties := <[a := p]> (properties h);
     packages := packages h |}.

Definition with_typeValue (p : Property) (v : option string) : Property :=
  {| prop_name := prop_name p; owner := owner p; type := type p; typeValue := v;
     isDerived := isDerived p; aggregation := aggregation p;
     defaultValue := defaultValue p; lowerValue := lowerValue p;
     upperValue := upperValue p; opposite := opposite p; class_ := class_ p;
     association := association p; appliedStereotype := appliedStereotype p |}.

Definition with_type (p : Property) (t : option ClassId) : Property :=
  {| prop_name := prop_name p; owner := owner p; type := t; typeValue := typeValue p;
     isDerived := isDerived p; aggregation := aggregation p;
     defaultValue := defaultValue p; lowerValue := lowerValue p;
     upperValue := upperValue p; opposite := opposite p; class_ := class_ p;
     association := association p; appliedStereotype := appliedStereotype p |}.

Definition with_aggregation (p : Property) (s : string) : Property :=
  {| prop_name := prop_name p; owner := owner p; type := type p;
     typeValue := typeValue p; isDerived := isDerived p; aggregation := s;
     defaultValue := defaultValue p; lowerValue := lowerValue p;
     upperValue := upperValue p; opposite := opposite p; class_ := class_ p;
     association := association p; appliedStereotype := appliedStereotype p |}.

(** The first statement of the loop body: aliases of the primitive types are
    made canonical, the name of a class of the factory becomes a reference
    to it. *)
Definition resolve_alias (h : Heap) (factory : ElementFactory) (p : Property) : Property :=
  if bool_decide (typeValue p ∈ [Some "String"; Some "str"; Some "object"]) then
    with_typeValue p (Some "str")
  else if bool_decide (typeValue p ∈ [Some "Boolean"; Some "bool"]) then
    with_typeValue p (Some "bool")
  else if bool_decide (typeValue p ∈ [Some "Integer"; Some "int"]) then
    with_typeValue p (Some "int")
  else if bool_decide (typeValue p = Some "UnlimitedNatural") then p
  else
    match filter (λ e, cls_name (cls h e) = typeValue p) (select_Class factory) with
    | c :: _ => with_aggregation (with_typeValue (with_type p (Some c)) None) "composite"
    | [] => p
    end.

(** The second statement: a simple type is flattened to [str]. *)
Definition flatten_simple_type (h : Heap) (p : Property) : res Property :=
  match type p with
  | Some t =>
      simple ← is_simple_type fuel h t;
      if (simple : bool) then Ok (with_type (with_typeValue p (Some "str")) None)
      else Ok p
  | None => Ok p
  end.

(** The condition of the third statement. *)
Definition unresolved (p : Property) : bool :=
  negb (bool_decide (is_Some (type p)))
  && negb (bool_decide (typeValue p ∈
             [Some "str"; Some "int"; Some "bool"; Some "UnlimitedNatural"; None])).

(** The body of the loop of [resolve_attribute_type_values]. *)
Definition resolve_property (factory : ElementFactory) (h : Heap) (a : PropId)
    : list event * Heap * option error :=
  let p1 := resolve_alias h factory (prop h a) in
  match flatten_simple_type h p1 with
  | Raise e => ([], set_prop h a p1, Some e)
  | Ok p2 =>
      if unresolved p2 then
        ([], set_prop h a p2,
         Some (ValueError ("Property value type " +:+ fmt (typeValue p2)
                           +:+ " can not be found")))
      else ([], set_prop h a p2, None)
  end.

Definition resolve_attribute_type_values (h : Heap) (element_factory : ElementFactory)
    : Heap * option error :=
  let '(_, h', err) :=
    for_each (resolve_property element_factory) (select_Property element_factory) h in
  (h', err).

End coder.

(** * What the theorems speak about *)

(** ** The bases relation *)

(** [b] is one of the classes that [bases(c)] yields. *)
Definition base_rel (h : Heap) : relation nat := λ c b, b ∈ (bases h c).1.

Definition acyclic (h : Heap) : Prop := ∀ c, ¬ tc (base_rel h) c c.

(** [bases] ends without exception for every class: every association end
    named [baseClass] is the end of an extension. *)
Definition bases_defined (h : Heap) : Prop := ∀ c, (bases h c).2 = None.

(** [b] is a direct base of [c], as the model has it: the general of a
    generalization of [c], or the class at the other end of the association of
    an attribute of [c] named [baseClass]. *)
Definition direct_base (h : Heap) (c b : nat) : Prop :=
  b ∈ generalization (cls h c) ∨
  ∃ a assoc, a ∈ ownedAttribute (cls h c) ∧ association (prop h a) = Some assoc
             ∧ prop_name (prop h a) = Some "baseClass" ∧ ownedEnd_class_ assoc = b.

(** For every class in the list, [bases] ends without exception and every
    base stands before the class. *)
Definition bases_first (h : Heap) (l : list nat) : Prop :=
  ∀ i c, l !! i = Some c →
         (bases h c).2 = None ∧
         ∀ b, b ∈ (bases h c).1 → ∃ j, j < i ∧ l !! j = Some b.

(** The invariant of the traversal: [seen_classes] holds what was yielded so
    far, and what was yielded so far has its bases first. *)
Definition order_inv (h : Heap) (acc : list nat) (seen : gset nat) : Prop :=
  (∀ x, x ∈ seen ↔ x ∈ acc) ∧ bases_first h acc.

(** What is yielded is new and is reached from the class asked for. *)
Definition yields_new (from : nat → Prop) (seen : gset nat) (out : list nat)
    (seen' : gset nat) : Prop :=
  seen' = seen ∪ list_to_set out ∧ ∀ x, x ∈ out → x ∉ seen ∧ from x.

(** Every class of the heap and every base of one: all that the traversal can
    meet below the classes it starts from. *)
Definition class_universe (h : Heap) : list nat :=
  let ids := (map_to_list (classes h)).*1 in
  ids ++ (ids ≫= λ c, (bases h c).1).

(** ** Default values and enumerations *)

Definition primitive_kind (s : option string) : Prop :=
  s = Some "int" ∨ s = Some "str" ∨ s = Some "bool".

(** [f"{class_.name}.{a.name}"] *)
Definition full_name_of (h : Heap) (c : nat) (a : Property) : string :=
  fmt (cls_name (cls h c)) +:+ "." +:+ fmt (prop_name a).

(** The conditions under which [variables] takes the enumeration branch for
    the attribute [a], whose type is [t]. *)
Definition enumeration_branch (overrides : option Overrides) (h : Heap) (c : nat)
    (a : Property) (t : nat) : Prop :=
  is_extension_end a = false ∧
  override_for overrides (full_name_of h c a) = None ∧
  str_truthy (typeValue a) = false ∧
  type a = Some t ∧
  is_enumeration h (Some t) = true.

(** ** The lines of [associations], as the specification words them *)




(** ** The normalization pass *)

(** The type values a property without a type may keep. *)
Definition recognized : list (option string) :=
  [Some "str"; Some "int"; Some "bool"; Some "UnlimitedNatural"; None].

(** A property after the first two statements of the loop body. *)
Definition canonical (fuel : nat) (factory : ElementFactory) (h : Heap) (a : nat)
    : res Property :=
  flatten_simple_type fuel h (resolve_alias h factory (prop h a)).

(** ** What the coder changes and emits *)

(** Two heaps that differ at most in the names of classes. *)
Definition same_but_names (h h' : Heap) : Prop :=
  properties h' = properties h ∧ packages h' = packages h ∧
  ∀ c, ownedAttribute (cls h' c) = ownedAttribute (cls h c)
       ∧ ownedOperation (cls h' c) = ownedOperation (cls h c)
       ∧ generalization (cls h' c) = generalization (cls h c)
       ∧ applied_stereotypes (cls h' c) = applied_stereotypes (cls h c)
       ∧ owningPackage (cls h' c) = owningPackage (cls h c).

(** The import line of a class that is taken from a super model, plain and
    under an alias. *)
Definition import_line (element_type : ElementType) : string :=
  "from " +:+ module_ element_type +:+ " import " +:+ name_ element_type.

Definition alias_import (element_type : ElementType) (name : option string) : string :=
  import_line element_type +:+ " as _" +:+ fmt name.

(** How the heap [h'] is after the first loop went through [l], starting from
    [h], and emitted [ev]. *)
Definition renamed_in (overrides : option Overrides) (l : list nat) (ev : list event)
    (h h' : Heap) : Prop :=
  same_but_names h h' ∧
  (∀ t, t ∉ l → cls h' t = cls h t) ∧
  ∀ c, cls_name (cls h' c) = cls_name (cls h c) ∨
       (c ∈ l ∧ cls_name (cls h' c) = Some ("_" +:+ fmt (cls_name (cls h c))) ∧
        bases h c = ([], None) ∧ class_override overrides h c = None ∧
        ∃ element_type, Line (alias_import element_type (cls_name (cls h c))) ∈ ev).

(** The lines of the body of a class declaration: the properties, indented,
    or the line that marks an empty body. *)
Definition class_body (properties : list string) : list event :=
  if bool_decide (properties = []) then [Line "    pass"]
  else (λ p, Line ("    " +:+ p)) <$> properties.

(** What the first loop emits for a class [x] of the sequence, all of it,
    given the heap [hc] in which the loop comes to the class: the override
    text alone; or one import line alone, under an alias when more than one
    class of the sequence has the name; or the declaration, what [variables]
    logs, the body and two empty lines. *)
Definition class_block (R : Recipes) (fuel : nat) (overrides : option Overrides)
    (super_models : list (ModelingLanguage * ElementFactory)) (classes : list nat)
    (hc : Heap) (x : nat) (block : list event) : Prop :=
  match class_override overrides hc x with
  | Some (o, n) => block = [Line (get_override o n)]
  | None =>
      match super_model_class fuel super_models hc x with
      | Ok (Some (element_type, _)) =>
          block =
          [Line (if bool_decide
                      (1 < length (filter (λ t, cls_name (cls hc t) = cls_name (cls hc x))
                                          classes))
                 then alias_import element_type (cls_name (cls hc x))
                 else import_line element_type)]
      | Ok None =>
          ∃ declaration evs,
            class_declaration hc x = Ok declaration ∧
            variables R fuel overrides hc x = (evs, None) ∧
            block = Line declaration :: (Warn <$> warnings evs)
                    ++ class_body (lines evs) ++ [Line ""; Line ""]
      | Raise _ => False
      end
  end.

(** The lines before the first loop: the header, and the header of the
    overrides when there is one. *)
Definition coder_head (overrides : option Overrides) : list event :=
  Line header ::
  match overrides with
  | Some o => if String.eqb (header_override o) "" then [] else [Line (header_override o)]
  | None => []
  end.

(** The output of a run of the coder that went through the classes [classes]
    without exception and left the heap [h']: the head, then what the first
    loop emits, which is one block for each class in the order of the
    sequence, then what the loop over the operations emits, an empty line,
    and what the last loop emits. *)
Definition blocks_of_run (R : Recipes) (fuel : nat) (overrides : option Overrides)
    (super_models : list (ModelingLanguage * ElementFactory))
    (h h' : Heap) (classes : list nat) (evs : list event) (blocks : list (list event))
    : Prop :=
  Forall2 (λ x block, ∃ hc, same_but_names h hc ∧ cls hc x = cls h x
                            ∧ (∀ t, t ∉ classes → cls hc t = cls h t)
                            ∧ class_block R fuel overrides super_models classes hc x block)
          classes blocks ∧
  ∃ already_imported links imported,
    for_each (declare_class R fuel overrides super_models classes) classes (h, ∅)
    = (concat blocks, (h', already_imported), None) ∧
    for_each (link_class R fuel overrides super_models h') classes already_imported
    = (links, imported, None) ∧
    evs = coder_head overrides ++ concat blocks
          ++ (gen_concat (operations overrides h' <$> classes)).1 ++ [Line ""] ++ links.

(** [ev] is what the first loop emits for the class [x]: its declaration, an
    import or an override, at least one line. *)
Definition emitted_by_first_loop (R : Recipes) (fuel : nat)
    (overrides : option Overrides)
    (super_models : list (ModelingLanguage * ElementFactory)) (classes : list nat)
    (h : Heap) (x : nat) (ev : list event) : Prop :=
  ∃ hx imported st,
    same_but_names h hx ∧ cls hx x = cls h x ∧
    declare_class R fuel overrides super_models classes (hx, imported) x = (ev, st, None)
    ∧ ∃ s, Line s ∈ ev.

(** * Sample models *)

(** The recipes as the UML package has them: a literal is rendered by the text
    of its value; a boolean literal without a value reads as [false]. *)
Definition literal_text (l : Literal) : option string :=
  match l with
  | LiteralString v => v
  | LiteralInteger v => pretty <$> v
  | LiteralUnlimitedNatural v =>
      (λ u, match u with UNat n => pretty n | UStar => "*" end) <$> v
  | LiteralBoolean v => Some (if default false v then "true" else "false")
  | LiteralOther => None
  end.

Definition sample_recipes : Recipes :=
  {| get_literal_value_as_string := literal_text;
     get_multiplicity_upper_value_as_string := λ a,
       match upperValue a with
       | VLiteral l => literal_text l
       | VStr s => Some s
       | VNone => None
       end;
     literal_str := λ _, "<element>" |}.

Definition simple_class (name : string) (attrs : list nat) (generals : list nat) : Class :=
  {| cls_name := Some name; ownedAttribute := attrs; ownedOperation := [];
     generalization := generals; applied_stereotypes := []; owningPackage := Some 0 |}.

Definition simple_property (name : string) (o : nat) : Property :=
  {| prop_name := Some name; owner := Some o; type := None; typeValue := None;
     isDerived := false; aggregation := "none"; defaultValue := VNone;
     lowerValue := VNone; upperValue := VNone; opposite := None;
     class_ := Some o; association := None; appliedStereotype := [] |}.

Definition with_defaultValue (p : Property) (v : Value) : Property :=
  {| prop_name := prop_name p; owner := owner p; type := type p;
     typeValue := typeValue p; isDerived := isDerived p; aggregation := aggregation p;
     defaultValue := v; lowerValue := lowerValue p;
     upperValue := upperValue p; opposite := opposite p; class_ := class_ p;
     association := association p; appliedStereotype := appliedStereotype p |}.

Definition with_slots (p : Property) (s : list Slot) : Property :=
  {| prop_name := prop_name p; owner := owner p; type := type p;
     typeValue := typeValue p; isDerived := isDerived p; aggregation := aggregation p;
     defaultValue := defaultValue p; lowerValue := lowerValue p;
     upperValue := upperValue p; opposite := opposite p; class_ := class_ p;
     association := association p; appliedStereotype := [s] |}.

(** A heap with the given classes and properties, all in one package that is
    not a profile. *)
Definition heap_of (cs : list (nat * Class)) (ps : list (nat * Property)) : Heap :=
  {| classes := list_to_map cs; properties := list_to_map ps;
     packages := {[ 0 := {| isProfile := false; pkg_owningPackage := None |} ]} |}.

(** A diamond: [D(B, C)], [B(A)], [C(A)]. *)
Definition diamond : Heap :=
  heap_of [(0, simple_class "A" [] []); (1, simple_class "B" [] [0]);
           (2, simple_class "C" [] [0]); (3, simple_class "D" [] [1; 2])] [].

Definition diamond_model : ElementFactory :=
  {| select_Class := [3; 2; 1; 0]; select_Property := [] |}.

(** An attribute declared [int] with a boolean literal as default. *)
Definition int_with_boolean_default : Property :=
  with_defaultValue (with_typeValue (simple_property "count" 0) (Some "int"))
                    (VLiteral (LiteralBoolean (Some true))).

(** [Widget.kind] is typed by the enumeration [WidgetKind], which owns no
    literal. *)
Definition empty_enumeration : Heap :=
  heap_of [(0, simple_class "Widget" [0] []); (1, simple_class "WidgetKind" [] [])]
          [(0, with_type (simple_property "kind" 0) (Some 1))].

(** The same with the literals [small] and [large]. *)
Definition enumeration_with_literals : Heap :=
  heap_of [(0, simple_class "Widget" [0] []); (1, simple_class "WidgetKind" [1; 2] [])]
          [(0, with_type (simple_property "kind" 0) (Some 1));
           (1, simple_property "small" 1); (2, simple_property "large" 1)].

(** [Sub(Base)]; [Sub.items] is stereotyped [subsets=base_feature], and
    [Base.base_feature] is an ordinary association end, not a derived
    union. *)
Definition misapplied_subsets : Heap :=
  heap_of
    [(0, simple_class "Base" [0] []); (1, simple_class "Sub" [1] [0]);
     (2, simple_class "Thing" [] [])]
    [(0, with_type (simple_property "base_feature" 0) (Some 2));
     (1, with_slots (with_type (simple_property "items" 1) (Some 2))
           [{| definingFeature_name := Some "subsets";
               slot_value := PStr "base_feature" |}])].

(** [Sub(Base)]; [Sub.first] is a plain association, [Sub.second] redefines
    [base_feature], [Sub.third] is a plain association again. *)
Definition redefining_class : Heap :=
  heap_of
    [(0, simple_class "Base" [0] []); (1, simple_class "Sub" [1; 2; 3] [0]);
     (2, simple_class "Thing" [] [])]
    [(0, with_type (simple_property "base_feature" 0) (Some 2));
     (1, with_type (simple_property "first" 1) (Some 2));
     (2, with_slots (with_type (simple_property "second" 1) (Some 2))
           [{| definingFeature_name := Some "redefines";
               slot_value := PStr "base_feature" |}]);
     (3, with_type (simple_property "third" 1) (Some 2))].

(** A property that has no type and no type value. *)
Definition untyped_property : Heap :=
  heap_of [(0, simple_class "Widget" [0] [])] [(0, simple_property "tag" 0)].

(** A property whose type value names nothing known. *)
Definition unknown_type_value : Heap :=
  heap_of [(0, simple_class "Widget" [0] [])]
          [(0, with_typeValue (simple_property "tag" 0) (Some "Colour"))].

Definition widget_factory : ElementFactory :=
  {| select_Class := [0]; select_Property := [0] |}.

(** Two classes named [Element] in the model (0 and 1), and the class
    [Element] of a super model (2). *)
Definition two_elements : Heap :=
  heap_of [(0, simple_class "Element" [] []); (1, simple_class "Element" [] []);
           (2, simple_class "Element" [] [])] [].

Definition two_elements_model : ElementFactory :=
  {| select_Class := [0; 1]; select_Property := [] |}.

Definition one_element_model : ElementFactory :=
  {| select_Class := [1]; select_Property := [] |}.

Definition core_language : ModelingLanguage :=
  {| lookup_element := λ name,
       if bool_decide (name = Some "Element")
       then Some {| module_ := "gaphor.core.modeling"; name_ := "Element" |}
       else None |}.

Definition core_super_model : list (ModelingLanguage * ElementFactory) :=
  [(core_language, {| select_Class := [2]; select_Property := [] |})].

(** [Widget(Element)], and the class [Element] of a super model (2). *)
Definition imported_base : Heap :=
  heap_of [(0, simple_class "Element" [] []); (1, simple_class "Widget" [] [0]);
           (2, simple_class "Element" [] [])] [].

Definition imported_base_model : ElementFactory :=
  {| select_Class := [0; 1]; select_Property := [] |}.

(** * Further vocabulary *)

(** The generalization relation: [g] is the general of a generalization of
    [c]. *)
Definition general_rel (h : Heap) : relation nat :=
  λ c g, g ∈ generalization (cls h c).

(** [q] is the owning package of the package [p]. *)
Definition owning_rel (h : Heap) : relation nat :=
  λ p q, pkg_owningPackage (pkg h p) = Some q.

(** The class [c] carries the stereotype [SimpleAttribute]. *)
Definition has_SimpleAttribute (h : Heap) (c : nat) : Prop :=
  Some "SimpleAttribute" ∈ applied_stereotypes (cls h c).

(** The class [x] owns an attribute of the name of [a]. *)
Definition owns_attribute_named (h : Heap) (a : Property) (x : nat) : Prop :=
  ∃ attr, attr ∈ ownedAttribute (cls h x) ∧ prop_name (prop h attr) = prop_name a.

(** The first two statements of the loop body of the normalization pass, on a
    property as a value. *)
Definition canonicalize (fuel : nat) (factory : ElementFactory) (h : Heap) (p : Property)
    : res Property :=
  flatten_simple_type fuel h (resolve_alias h factory p).

(** Two properties that differ at most in [type], [typeValue] and
    [aggregation]. *)
Definition same_but_type (p p' : Property) : Prop :=
  prop_name p' = prop_name p ∧ owner p' = owner p ∧ isDerived p' = isDerived p ∧
  defaultValue p' = defaultValue p ∧ lowerValue p' = lowerValue p ∧
  upperValue p' = upperValue p ∧ opposite p' = opposite p ∧ class_ p' = class_ p ∧
  association p' = association p ∧ appliedStereotype p' = appliedStereotype p.

(** The aliases of the primitive types that the normalization pass replaces. *)
Definition primitive_aliases : list (option string) :=
  [Some "String"; Some "object"; Some "Boolean"; Some "Integer"].

(** The import lines among events. *)
Definition is_import (e : event) : bool :=
  match e with
  | Line line => startswith line "from "
  | Warn _ => false
  end.

(** ** The derived properties of [SysML/sysml.py] *)

(** A directed relationship with property paths, by its two contexts. *)
Record DirectedRelationshipPropertyPath := {
  sourceContext : option nat;
  targetContext : option nat
}.

(** [_directed_relationship_property_path_target_source(type)(self)], given
    what [self.model.select(type)] yields. *)
Definition _directed_relationship_property_path_target_source
    (selected : list DirectedRelationshipPropertyPath) (self : nat) : list nat :=
  omap (λ element,
          if bool_decide (sourceContext element = Some self)
          then targetContext element else None)
       selected.

(** The function of [AbstractRequirement.derivedFrom], given what
    [self.model.select(DeriveReqt)] yields. *)
Definition AbstractRequirement_derivedFrom
    (selected : list DirectedRelationshipPropertyPath) (self : nat) : list nat :=
  omap (λ element,
          if bool_decide (targetContext element = Some self)
          then sourceContext element else None)
       selected.

(** ** Further sample models *)

(** Two classes that are each other's base. *)
Definition cyclic_pair : Heap :=
  heap_of [(0, simple_class "A" [] [1]); (1, simple_class "B" [] [0])] [].

(** [Name(Text)], where [Text] carries the stereotype [SimpleAttribute]. *)
Definition simple_text : Heap :=
  heap_of
    [(0, {| cls_name := Some "Text"; ownedAttribute := []; ownedOperation := [];
            generalization := []; applied_stereotypes := [Some "SimpleAttribute"];
            owningPackage := Some 0 |});
     (1, simple_class "Name" [] [0])] [].

(** A class in a package nested in a profile. *)
Definition profile_class : Heap :=
  {| classes := {[ 0 := {| cls_name := Some "Marker"; ownedAttribute := [];
                           ownedOperation := []; generalization := [];
                           applied_stereotypes := []; owningPackage := Some 1 |} ]};
     properties := ∅;
     packages := {[ 0 := {| isProfile := true; pkg_owningPackage := None |};
                    1 := {| isProfile := false; pkg_owningPackage := Some 0 |} ]} |}.

(** [Sub(Base)], both with an attribute [name]. *)
Definition shadowing_attribute : Heap :=
  heap_of [(0, simple_class "Base" [0] []); (1, simple_class "Sub" [1] [0]);
           (2, simple_class "Thing" [] [])]
          [(0, with_type (simple_property "name" 0) (Some 2));
           (1, with_type (simple_property "name" 1) (Some 2))].

(** A property whose type value names the class [Widget]. *)
Definition class_type_value : Heap :=
  heap_of [(0, simple_class "Widget" [] []); (1, simple_class "Box" [0] [])]
          [(0, with_typeValue (simple_property "content" 1) (Some "Widget"))].

Definition box_factory : ElementFactory :=
  {| select_Class := [0; 1]; select_Property := [0] |}.

(** A property whose type value is the alias [String]. *)
Definition alias_type_value : Heap :=
  heap_of [(0, simple_class "Widget" [0] [])]
          [(0, with_typeValue (simple_property "tag" 0) (Some "String"))].

(** A class with an association end that has no name. *)
Definition unnamed_end : Heap :=
  heap_of [(0, simple_class "Widget" [0] []); (1, simple_class "Thing" [] [])]
          [(0, {| prop_name := None; owner := Some 0; type := Some 1; typeValue := None;
                  isDerived := false; aggregation := "none"; defaultValue := VNone;
                  lowerValue := VNone; upperValue := VNone; opposite := None;
                  class_ := Some 0; association := None; appliedStereotype := [] |})].

(** Three derive relationships: 1 from 2, 1 from 3, and one without target. *)
Definition derive_relationships : list DirectedRelationshipPropertyPath :=
  [{| sourceContext := Some 1; targetContext := Some 2 |};
   {| sourceContext := Some 1; targetContext := Some 3 |};
   {| sourceContext := Some 4; targetContext := None |}].

(** The type values that the normalization pass takes for primitive types. *)
Definition primitive_names : list string :=
  ["String"; "str"; "object"; "Boolean"; "bool"; "Integer"; "int"; "UnlimitedNatural"].

(** Two properties with type values, selected in two orders. *)
Definition two_type_values : Heap :=
  heap_of [(0, simple_class "Widget" [] []); (1, simple_class "Box" [0; 1] [])]
          [(0, with_typeValue (simple_property "content" 1) (Some "Widget"));
           (1, with_typeValue (simple_property "tag" 1) (Some "String"))].

Definition forward_factory : ElementFactory :=
  {| select_Class := [0; 1]; select_Property := [0; 1] |}.

Definition backward_factory : ElementFactory :=
  {| select_Class := [0; 1]; select_Property := [1; 0] |}.

(** Two stereotypes that extend each other: each is the base of the other
    through an attribute [baseClass]. *)
Definition base_end (o : nat) (extended : nat) : Property :=
  {| prop_name := Some "baseClass"; owner := Some o; type := Some extended;
     typeValue := None; isDerived := false; aggregation := "none";
     defaultValue := VNone; lowerValue := VNone; upperValue := VNone;
     opposite := None; class_ := Some o;
     association := Some {| is_Extension := true; ownedEnd_class_ := extended;
                            association_str := "extension" |};
     appliedStereotype := [] |}.

Definition cyclic_extension : Heap :=
  heap_of [(0, simple_class "A" [0] []); (1, simple_class "B" [1] [])]
          [(0, base_end 0 1); (1, base_end 1 0)].

Definition pair_model : ElementFactory :=
  {| select_Class := [0; 1]; select_Property := [0; 1] |}.

(** ** [is_in_toplevel_package] *)

(** The inner [test(p)] of [is_in_toplevel_package]; the names of the
    packages, which the coder reads nowhere else, are given by [pkg_name]. *)
Fixpoint is_in_toplevel_package_test (fuel : nat) (h : Heap)
    (pkg_name : nat → option string) (package_name : string) (p : option nat)
    : res bool :=
  match fuel with
  | 0 => Raise RecursionError
  | S fuel' =>
      match p with
      | None => Raise AttributeError
      | Some p =>
          match pkg_owningPackage (pkg h p) with
          | None => Ok (bool_decide (pkg_name p = Some package_name))
          | Some q => is_in_toplevel_package_test fuel' h pkg_name package_name (Some q)
          end
      end
  end.

Definition is_in_toplevel_package (fuel : nat) (h : Heap)
    (pkg_name : nat → option string) (c : nat) (package_name : string) : res bool :=
  is_in_toplevel_package_test fuel h pkg_name package_name (owningPackage (cls h c)).

(** The top-level package above the package [p] bears the name
    [package_name]. *)
Definition toplevel_named (h : Heap) (pkg_name : nat → option string)
    (package_name : string) (p : nat) : Prop :=
  ∃ q, rtc (owning_rel h) p q ∧ pkg_owningPackage (pkg h q) = None
       ∧ pkg_name q = Some package_name.

(** The names of the packages of [profile_class]. *)
Definition profile_class_names (p : nat) : option string :=
  if bool_decide (p = 0) then Some "Profile" else Some "nested".

(** ** Sample models with extensions and overrides *)

(** A stereotype [Stereo] that extends the metaclass [Class]: the attribute
    [baseClass] of [Stereo] is the end of an extension. *)
Definition stereotype_extension : Heap :=
  heap_of [(0, simple_class "Class" [] []); (1, simple_class "Stereo" [0] [])]
          [(0, base_end 1 0)].

Definition stereotype_model : ElementFactory :=
  {| select_Class := [1; 0]; select_Property := [0] |}.

(** An attribute named [baseClass] that is the end of an association which is
    no extension. *)
Definition plain_end (o : nat) (other : nat) : Property :=
  {| prop_name := Some "baseClass"; owner := Some o; type := Some other;
     typeValue := None; isDerived := false; aggregation := "none";
     defaultValue := VNone; lowerValue := VNone; upperValue := VNone;
     opposite := None; class_ := Some o;
     association := Some {| is_Extension := false; ownedEnd_class_ := other;
                            association_str := "association" |};
     appliedStereotype := [] |}.

Definition misnamed_association : Heap :=
  heap_of [(0, simple_class "Class" [] []); (1, simple_class "Stereo" [0] [])]
          [(0, plain_end 1 0)].

(** A class whose base has no name. *)
Definition unnamed_base : Heap :=
  heap_of [(0, {| cls_name := None; ownedAttribute := []; ownedOperation := [];
                  generalization := []; applied_stereotypes := [];
                  owningPackage := Some 0 |});
           (1, simple_class "Sub" [] [0])] [].

(** Overrides that hold a text for the class [A]. *)
Definition sample_overrides : Overrides :=
  {| header_override := "import enum";
     has_override := λ name, String.eqb name "A";
     get_override := λ name, "class " +:+ name +:+ "(enum.Enum): pass";
     get_type := λ _, "int" |}.
(** * Lemmas and theorems *)

(** ** Properties of the class order *)

Section order_facts.

Variable h : Heap.

Lemma res_bind_Ok {A B} (m : res A) (f : A → res B) (b : B) :
  m ≫= f = Ok b → ∃ a, m = Ok a ∧ f a = Ok b.
Proof. destruct m as [a|e]; simpl; [eauto | discriminate]. Qed.

Lemma yield_from_each_cons_Ok {A B S} (f : A → S → res (list B * S)) x l s out s' :
  yield_from_each f (x :: l) s = Ok (out, s') →
  ∃ out1 s1 out2, f x s = Ok (out1, s1) ∧ yield_from_each f l s1 = Ok (out2, s')
                  ∧ out = out1 ++ out2.
Proof.
  simpl. intros H.
  apply res_bind_Ok in H as [[out1 s1] [H1 H]].
  apply res_bind_Ok in H as [[out2 s2] [H2 H]].
  inversion H; subst. eauto 10.
Qed.

(** [bases] raises nothing but the [AttributeError] of an association end
    named [baseClass] that is no end of an extension. *)
Lemma base_of_attribute_error a e :
  base_of_attribute h a = Raise e →
  e = AttributeError ∧
  ∃ assoc, association (prop h a) = Some assoc ∧ prop_name (prop h a) = Some "baseClass"
           ∧ is_Extension assoc = false.
Proof.
  unfold base_of_attribute. destruct (association (prop h a)) as [assoc|]; [|discriminate].
  case_decide; [|discriminate]. destruct (is_Extension assoc) eqn:Hx; [discriminate|].
  intros [= <-]. eauto.
Qed.

Lemma bases_of_attributes_cons a l :
  bases_of_attributes h (a :: l)
  = match base_of_attribute h a with
    | Raise e => ([], Some e)
    | Ok b => (option_list b ++ (bases_of_attributes h l).1, (bases_of_attributes h l).2)
    end.
Proof. simpl. destruct (base_of_attribute h a); [|done]. by destruct (bases_of_attributes h l). Qed.

Lemma bases_eq c :
  bases h c = (generalization (cls h c)
                 ++ (bases_of_attributes h (ownedAttribute (cls h c))).1,
               (bases_of_attributes h (ownedAttribute (cls h c))).2).
Proof. unfold bases. by destruct (bases_of_attributes h _). Qed.

Lemma bases_of_attributes_error l e :
  (bases_of_attributes h l).2 = Some e →
  e = AttributeError ∧
  ∃ a assoc, a ∈ l ∧ association (prop h a) = Some assoc
             ∧ prop_name (prop h a) = Some "baseClass" ∧ is_Extension assoc = false.
Proof.
  induction l as [|a l IH]; [discriminate|]. rewrite bases_of_attributes_cons.
  destruct (base_of_attribute h a) as [b|e'] eqn:Ha; simpl.
  - intros [-> (a' & assoc & Hin & Hrest)]%IH. split; [done|].
    exists a', assoc. split; [by right|done].
  - intros [= <-]. apply base_of_attribute_error in Ha as [-> (assoc & Hrest)].
    split; [done|]. exists a, assoc. split; [left|done].
Qed.

Lemma bases_error c e : (bases h c).2 = Some e → e = AttributeError.
Proof. rewrite bases_eq. simpl. by intros [-> _]%bases_of_attributes_error. Qed.

(** When [bases] ends without exception it has yielded every direct base,
    and only these. *)
Lemma bases_of_attributes_items l b :
  (bases_of_attributes h l).2 = None →
  (b ∈ (bases_of_attributes h l).1 ↔
   ∃ a assoc, a ∈ l ∧ association (prop h a) = Some assoc
              ∧ prop_name (prop h a) = Some "baseClass" ∧ ownedEnd_class_ assoc = b).
Proof.
  induction l as [|a l IH].
  - intros _. simpl. split; [by intros ?%elem_of_nil|].
    by intros (a & assoc & ?%elem_of_nil & _).
  - rewrite bases_of_attributes_cons.
    destruct (base_of_attribute h a) as [o|e'] eqn:Ha; simpl; [|discriminate].
    intros Hnone. rewrite elem_of_app, (IH Hnone). unfold base_of_attribute in Ha.
    split.
    + intros [Hb|(a' & assoc & Hin & Hrest)].
      * destruct (association (prop h a)) as [assoc|] eqn:Hassoc.
        -- case_decide as Hname.
           ++ destruct (is_Extension assoc); [|discriminate]. injection Ha as <-.
              apply list_elem_of_singleton in Hb as ->.
              exists a, assoc. split; [left|done].
           ++ injection Ha as <-. by apply elem_of_nil in Hb.
        -- injection Ha as <-. by apply elem_of_nil in Hb.
      * exists a', assoc. split; [by right|done].
    + intros (a' & assoc & [->|Hin]%elem_of_cons & Hassoc & Hname & Hb).
      * left. rewrite Hassoc in Ha. rewrite decide_True in Ha by done.
        destruct (is_Extension assoc); [|discriminate]. injection Ha as <-.
        rewrite Hb. simpl. left.
      * right. exists a', assoc. done.
Qed.

Lemma bases_items c b :
  (bases h c).2 = None → (b ∈ (bases h c).1 ↔ direct_base h c b).
Proof.
  rewrite bases_eq. simpl. intros Hnone. unfold direct_base.
  by rewrite elem_of_app, (bases_of_attributes_items _ _ Hnone).
Qed.

Lemma order_inv_mono acc out seen seen' x :
  order_inv h acc seen → order_inv h (acc ++ out) seen' → x ∈ seen → x ∈ seen'.
Proof.
  intros [Hs _] [Hs' _] Hx. apply Hs'. apply elem_of_app. left. by apply Hs.
Qed.

Lemma yield_from_each_inv (f : nat → gset nat → res (list nat * gset nat)) :
  (∀ x s out s' acc, f x s = Ok (out, s') → order_inv h acc s →
                     order_inv h (acc ++ out) s' ∧ x ∈ s') →
  ∀ l s out s' acc, yield_from_each f l s = Ok (out, s') → order_inv h acc s →
                    order_inv h (acc ++ out) s' ∧ ∀ x, x ∈ l → x ∈ s'.
Proof.
  intros Hf l. induction l as [|x l IH]; intros s out s' acc H Hinv.
  - simpl in H. inversion H; subst. rewrite app_nil_r. split; [done|].
    intros x Hx. by apply elem_of_nil in Hx.
  - apply yield_from_each_cons_Ok in H as (out1 & s1 & out2 & H1 & H2 & ->).
    destruct (Hf _ _ _ _ _ H1 Hinv) as [Hinv1 Hx1].
    destruct (IH _ _ _ _ H2 Hinv1) as [Hinv2 Hl].
    rewrite <- app_assoc in Hinv2. split; [done|].
    intros y [->|Hy]%elem_of_cons; [|by apply Hl].
    eapply (order_inv_mono (acc ++ out1) out2); eauto.
    by rewrite <- app_assoc.
Qed.

Lemma order_inv_snoc acc seen c :
  order_inv h acc seen → (bases h c).2 = None → (∀ b, b ∈ (bases h c).1 → b ∈ seen) →
  order_inv h (acc ++ [c]) ({[c]} ∪ seen).
Proof.
  intros [Hs Hb] Hnone Hc. split.
  - intros x. rewrite elem_of_union, elem_of_singleton, elem_of_app, list_elem_of_singleton, Hs.
    tauto.
  - intros i x Hi.
    destruct (decide (i < length acc)) as [Hlt|Hge].
    + rewrite lookup_app_l in Hi by done.
      destruct (Hb _ _ Hi) as [Hx Hbx]. split; [done|]. intros b Hin.
      destruct (Hbx _ Hin) as (j & Hj & Hjb).
      exists j. split; [done|]. rewrite lookup_app_l; [done|lia].
    + rewrite lookup_app_r in Hi by lia.
      apply list_lookup_singleton_Some in Hi as [Hi ->]. split; [done|].
      intros b Hbx.
      apply Hc, Hs, list_elem_of_lookup in Hbx as [j Hj].
      exists j. split.
      * apply lookup_lt_Some in Hj. lia.
      * rewrite lookup_app_l; [done|]. by eapply lookup_lt_Some.
Qed.

(** What a call of [order] on a class not seen before comes to. *)
Lemma order_unseen fuel c seen r :
  c ∉ seen → order (S fuel) h c seen = Ok r →
  ∃ out1 seen1,
    yield_from_each (order fuel h) (bases h c).1 seen = Ok (out1, seen1) ∧
    (bases h c).2 = None ∧ r = (out1 ++ [c], {[c]} ∪ seen1).
Proof.
  intros Hc H. simpl in H. destruct (decide (c ∈ seen)); [done|].
  apply res_bind_Ok in H as [[out1 seen1] [H1 H]].
  destruct ((bases h c).2); [discriminate|]. inversion H; subst. eauto.
Qed.

Lemma order_preserves_inv fuel :
  ∀ c seen out seen' acc, order fuel h c seen = Ok (out, seen') → order_inv h acc seen →
                          order_inv h (acc ++ out) seen' ∧ c ∈ seen'.
Proof.
  induction fuel as [|fuel IH]; intros c seen out seen' acc H Hinv; [discriminate|].
  destruct (decide (c ∈ seen)) as [Hin|Hnin].
  - simpl in H. destruct (decide (c ∈ seen)); [|done].
    inversion H; subst. by rewrite app_nil_r.
  - apply (order_unseen fuel c seen _ Hnin) in H as (out1 & seen1 & H1 & Hnone & [= -> ->]).
    destruct (yield_from_each_inv _ IH _ _ _ _ _ H1 Hinv) as [Hinv1 Hb].
    rewrite app_assoc. split; [by apply order_inv_snoc | set_solver].
Qed.

Lemma yields_new_nil (from : nat → Prop) seen : yields_new from seen [] seen.
Proof.
  split; [set_solver|]. intros x Hx. by apply elem_of_nil in Hx.
Qed.

Lemma yield_from_each_new (f : nat → gset nat → res (list nat * gset nat))
    (R : nat → nat → Prop) :
  (∀ x s out s', f x s = Ok (out, s') → yields_new (R x) s out s') →
  ∀ l s out s', yield_from_each f l s = Ok (out, s') →
                yields_new (λ y, ∃ x, x ∈ l ∧ R x y) s out s'.
Proof.
  intros Hf l. induction l as [|x l IH]; intros s out s' H.
  - simpl in H. inversion H; subst. apply yields_new_nil.
  - apply yield_from_each_cons_Ok in H as (out1 & s1 & out2 & H1 & H2 & ->).
    destruct (Hf _ _ _ _ H1) as [-> Hn1]. destruct (IH _ _ _ H2) as [-> Hn2].
    split; [rewrite list_to_set_app_L; set_solver|].
    intros y [Hy|Hy]%elem_of_app.
    + split; [by apply Hn1|]. exists x. split; [left|by apply Hn1].
    + apply Hn2 in Hy as [Hy (z & Hz & HR)]. split; [set_solver|].
      exists z. split; [by right|done].
Qed.

Lemma yield_from_each_NoDup (f : nat → gset nat → res (list nat * gset nat))
    (R : nat → nat → Prop) (Q : nat → Prop) :
  (∀ x s out s', f x s = Ok (out, s') → yields_new (R x) s out s') →
  (∀ x s out s', f x s = Ok (out, s') → (∀ y, y ∈ out → Q y) → NoDup out) →
  ∀ l s out s', yield_from_each f l s = Ok (out, s') → (∀ y, y ∈ out → Q y) →
                NoDup out.
Proof.
  intros Hnew Hf l. induction l as [|x l IH]; intros s out s' H HQ.
  - simpl in H. inversion H; subst. constructor.
  - apply yield_from_each_cons_Ok in H as (out1 & s1 & out2 & H1 & H2 & ->).
    destruct (Hnew _ _ _ _ H1) as [-> Hn1].
    apply NoDup_app. repeat split.
    + eapply Hf; [done|]. intros y Hy. apply HQ, elem_of_app. by left.
    + intros y Hy1 Hy2.
      apply (yield_from_each_new f R Hnew) in H2 as [_ Hn2].
      apply Hn2 in Hy2 as [Hy2 _]. set_solver.
    + eapply IH; [done|]. intros y Hy. apply HQ, elem_of_app. by right.
Qed.

Lemma order_reaches fuel :
  ∀ c seen out seen', order fuel h c seen = Ok (out, seen') →
                      yields_new (rtc (base_rel h) c) seen out seen'.
Proof.
  induction fuel as [|fuel IH]; intros c seen out seen' H; [discriminate|].
  destruct (decide (c ∈ seen)) as [Hin|Hnin].
  - simpl in H. destruct (decide (c ∈ seen)); [|done].
    inversion H; subst. apply yields_new_nil.
  - apply (order_unseen fuel c seen _ Hnin) in H as (out1 & seen1 & H1 & Hnone & [= -> ->]).
    apply (yield_from_each_new _ _ IH) in H1 as [-> Hn]. split.
    + rewrite list_to_set_app_L. set_solver.
    + intros x [Hx|Hx]%elem_of_app.
      * apply Hn in Hx as [Hx (y & Hy & HR)]. split; [done|].
        by eapply rtc_l.
      * apply list_elem_of_singleton in Hx as ->. split; [done|]. constructor.
Qed.

(** A class that is yielded and lies on no cycle is yielded once. *)
Lemma order_NoDup_off_cycles fuel :
  ∀ c seen out seen', order fuel h c seen = Ok (out, seen') →
                      (∀ x, x ∈ out → ¬ tc (base_rel h) x x) → NoDup out.
Proof.
  induction fuel as [|fuel IH]; intros c seen out seen' H Hac; [discriminate|].
  destruct (decide (c ∈ seen)) as [Hin|Hnin].
  - simpl in H. destruct (decide (c ∈ seen)); [|done].
    inversion H; subst. constructor.
  - apply (order_unseen fuel c seen _ Hnin) in H as (out1 & seen1 & H1 & Hnone & [= -> ->]).
    apply NoDup_app. repeat split; [| |apply NoDup_singleton].
    + eapply (yield_from_each_NoDup _ (λ x, rtc (base_rel h) x)
                (λ x, ¬ tc (base_rel h) x x)); [| |done|].
      * intros. by eapply order_reaches.
      * intros. by eapply IH.
      * intros y Hy. apply Hac, elem_of_app. by left.
    + intros x Hx ->%list_elem_of_singleton.
      eapply (yield_from_each_new _ (λ x, rtc (base_rel h) x)) in H1 as [_ Hn];
        [|intros; by eapply order_reaches].
      apply Hn in Hx as [_ (b & Hb & HR)].
      apply (Hac c); [apply elem_of_app; right; left|].
      eapply tc_rtc_r; [|done]. by apply tc_once.
Qed.

Lemma order_NoDup fuel :
  acyclic h →
  ∀ c seen out seen', order fuel h c seen = Ok (out, seen') → NoDup out.
Proof.
  intros Hac c seen out seen' H. eapply order_NoDup_off_cycles; [done|].
  intros x _. apply Hac.
Qed.

(** A list with the bases first has no class on a cycle. *)
Lemma bases_first_tc l x y i :
  bases_first h l → tc (base_rel h) x y → l !! i = Some x →
  ∃ j, j < i ∧ l !! j = Some y.
Proof.
  intros Hf Htc. revert i. induction Htc as [x y Hxy|x b y Hxb _ IH]; intros i Hi.
  - by eapply (proj2 (Hf _ _ Hi)).
  - destruct (proj2 (Hf _ _ Hi) _ Hxb) as (j & Hj & Hb).
    destruct (IH _ Hb) as (k & Hk & Hy). exists k. split; [lia|done].
Qed.

Lemma bases_first_off_cycles l x :
  bases_first h l → x ∈ l → ¬ tc (base_rel h) x x.
Proof.
  intros Hf [i Hi]%list_elem_of_lookup Htc. revert Hi.
  induction (lt_wf i) as [i _ IH]. intros Hi.
  destruct (bases_first_tc _ _ _ _ Hf Htc Hi) as (j & Hj & Hx).
  by apply (IH j).
Qed.

(** *** Termination *)

Lemma bases_unknown_class c : classes h !! c = None → bases h c = ([], None).
Proof. intros Hc. unfold bases, cls. by rewrite lookup_total_alt, Hc. Qed.

Lemma bases_in_universe c b : b ∈ (bases h c).1 → b ∈ class_universe h.
Proof.
  intros Hb. unfold class_universe. apply elem_of_app.
  destruct (classes h !! c) as [k|] eqn:Hc.
  - right. apply list_elem_of_bind. exists c. split; [done|].
    apply list_elem_of_fmap. exists (c, k). split; [done|].
    by apply elem_of_map_to_list.
  - exfalso. rewrite (bases_unknown_class c Hc) in Hb.
    by apply elem_of_nil in Hb.
Qed.

Lemma yield_from_each_total {A B S} (f : A → S → res (list B * S)) l :
  (∀ x s, x ∈ l → ∃ r, f x s = Ok r) → ∀ s, ∃ r, yield_from_each f l s = Ok r.
Proof.
  induction l as [|x l IH]; intros Hf s; simpl; [eauto|].
  destruct (Hf x s) as [[out1 s1] ->]; [left|]. simpl.
  destruct (IH (λ y s Hy, Hf y s (list_elem_of_further _ _ _ Hy)) s1) as [[out2 s2] ->].
  simpl. eauto.
Qed.

Lemma order_total_path (Hac : acyclic h) (Hdef : bases_defined h) fuel :
  ∀ c seen path,
    NoDup path → (∀ p, p ∈ path → tc (base_rel h) p c) → path ⊆ class_universe h →
    c ∈ class_universe h → length (class_universe h) ≤ length path + fuel →
    ∃ r, order fuel h c seen = Ok r.
Proof.
  induction fuel as [|fuel IH]; intros c seen path Hd Hp Hsub Hc Hlen.
  - exfalso.
    assert (NoDup (c :: path)) as Hd'.
    { constructor; [|done]. intros Hin. apply (Hac c). by apply Hp. }
    assert (c :: path ⊆+ class_universe h) as Hsm.
    { apply NoDup_submseteq; [done|].
      intros x [->|Hx]%elem_of_cons; [done|by apply Hsub]. }
    apply submseteq_length in Hsm. simpl in Hsm. lia.
  - simpl. destruct (decide (c ∈ seen)); [eauto|]. rewrite (Hdef c).
    destruct (yield_from_each_total (order fuel h) (bases h c).1) with (s := seen)
      as [[out s'] ->]; [|simpl; eauto].
    intros b s Hb. apply (IH b s (c :: path)).
    + constructor; [|done]. intros Hin. apply (Hac c). by apply Hp.
    + intros p [->|Hin]%elem_of_cons; [by apply tc_once|].
      eapply tc_r; [by apply Hp|done].
    + intros x [->|Hx]%elem_of_cons; [done|by apply Hsub].
    + by eapply bases_in_universe.
    + simpl. lia.
Qed.

Lemma order_total (Hac : acyclic h) (Hdef : bases_defined h) fuel c seen :
  length (class_universe h) < fuel → ∃ r, order fuel h c seen = Ok r.
Proof.
  intros Hlen. destruct fuel as [|fuel]; [lia|].
  simpl. destruct (decide (c ∈ seen)); [eauto|]. rewrite (Hdef c).
  destruct (yield_from_each_total (order fuel h) (bases h c).1) with (s := seen)
    as [[out s'] ->]; [|simpl; eauto].
  intros b s Hb. apply (order_total_path Hac Hdef fuel b s []).
  - constructor.
  - intros p Hp. by apply elem_of_nil in Hp.
  - intros p Hp. by apply elem_of_nil in Hp.
  - by eapply bases_in_universe.
  - simpl. lia.
Qed.

End order_facts.

(** ** The sequence of [order_classes] *)

Lemma order_classes_Ok fuel h items out :
  order_classes fuel h (items, None) = Ok out ↔
  ∃ seen, yield_from_each (order fuel h) items ∅ = Ok (out, seen).
Proof.
  unfold order_classes. simpl. split.
  - intros H. apply res_bind_Ok in H as [[o s] [H1 H2]]. inversion H2; subst. eauto.
  - intros [seen ->]. done.
Qed.

(** A heap whose bases go from larger identities to smaller ones has no
    cycle. *)
Lemma acyclic_decreasing h :
  (∀ c b, b ∈ (bases h c).1 → b < c) → acyclic h.
Proof.
  intros Hdec c Hc.
  assert (∀ x y, tc (base_rel h) x y → y < x) as Hlt.
  { intros x y Hxy. induction Hxy as [x y Hxy|x y z Hxy _ IH].
    - by apply Hdec.
    - apply Hdec in Hxy. lia. }
  apply Hlt in Hc. lia.
Qed.

Lemma bases_heap_of_decreasing cs :
  Forall (λ '(c, k), ownedAttribute k = [] ∧ Forall (λ b, b < c) (generalization k)) cs →
  ∀ c, (bases (heap_of cs []) c).2 = None ∧ ∀ b, b ∈ (bases (heap_of cs []) c).1 → b < c.
Proof.
  intros Hcs c. unfold bases, cls. rewrite lookup_total_alt. simpl.
  destruct (list_to_map cs !! c) as [k|] eqn:Hk; simpl.
  - apply elem_of_list_to_map_2 in Hk.
    rewrite Forall_forall in Hcs. specialize (Hcs _ Hk). simpl in Hcs.
    destruct Hcs as [-> Hg]. simpl. rewrite app_nil_r. split; [done|].
    rewrite Forall_forall in Hg. apply Hg.
  - split; [done|]. intros b Hb. by apply elem_of_nil in Hb.
Qed.

Lemma diamond_acyclic : acyclic diamond.
Proof.
  apply acyclic_decreasing. intros c.
  apply (bases_heap_of_decreasing
           [(0, simple_class "A" [] []); (1, simple_class "B" [] [0]);
            (2, simple_class "C" [] [0]); (3, simple_class "D" [] [1; 2])]).
  repeat constructor.
Qed.

Lemma diamond_bases_defined : bases_defined diamond.
Proof.
  intros c.
  apply (bases_heap_of_decreasing
           [(0, simple_class "A" [] []); (1, simple_class "B" [] [0]);
            (2, simple_class "C" [] [0]); (3, simple_class "D" [] [1; 2])]).
  repeat constructor.
Qed.

Lemma order_classes_inv fuel h items out :
  order_classes fuel h (items, None) = Ok out →
  bases_first h out ∧ ∀ c, c ∈ items → c ∈ out.
Proof.
  intros [seen H]%order_classes_Ok.
  destruct (yield_from_each_inv h (order fuel h) (order_preserves_inv h fuel)
              items ∅ out seen [] H) as [[Hs Hb] Hin].
  - split; [set_solver|]. intros i c Hi. by rewrite lookup_nil in Hi.
  - simpl in *. split; [done|]. intros c Hc. by apply Hs, Hin.
Qed.

Lemma order_classes_total fuel h items :
  acyclic h → bases_defined h → length (class_universe h) < fuel →
  ∃ out, order_classes fuel h (items, None) = Ok out.
Proof.
  intros Hac Hdef Hlen.
  destruct (yield_from_each_total (order fuel h) items) with (s := (∅ : gset nat))
    as [[out seen] H].
  - intros x s _. by apply order_total.
  - exists out. apply order_classes_Ok. eauto.
Qed.

Lemma rtc_closed_under_bases h (l : list nat) :
  (∀ x b, x ∈ l → b ∈ (bases h x).1 → b ∈ l) →
  ∀ c x, rtc (base_rel h) c x → c ∈ l → x ∈ l.
Proof.
  intros Hcl c x Hr. induction Hr as [|c b x Hcb _ IH]; [done|].
  intros Hc. apply IH. by eapply Hcl.
Qed.

Lemma bases_first_closed h out x b :
  bases_first h out → x ∈ out → b ∈ (bases h x).1 → b ∈ out.
Proof.
  intros Hf [i Hi]%list_elem_of_lookup Hb.
  destruct (proj2 (Hf _ _ Hi) _ Hb) as (j & _ & Hj). apply list_elem_of_lookup. eauto.
Qed.

(** The sequence holds exactly the classes reached from the given ones along
    bases. *)
Lemma order_classes_closure fuel h items out :
  order_classes fuel h (items, None) = Ok out →
  ∀ x, x ∈ out ↔ ∃ c, c ∈ items ∧ rtc (base_rel h) c x.
Proof.
  intros H x. split.
  - apply order_classes_Ok in H as [seen H].
    apply (yield_from_each_new (order fuel h) (λ c, rtc (base_rel h) c)
             (order_reaches h fuel)) in H as [_ Hn].
    intros Hx. by apply Hn in Hx as [_ Hx].
  - intros (c & Hc & Hr). apply order_classes_inv in H as [Hf Hin].
    eapply (rtc_closed_under_bases h out); [|done|by apply Hin].
    intros y b Hy Hb. by eapply bases_first_closed.
Qed.

Lemma order_classes_NoDup fuel h items out :
  order_classes fuel h (items, None) = Ok out → NoDup out.
Proof.
  intros H. pose proof (order_classes_inv _ _ _ _ H) as [Hf _].
  apply order_classes_Ok in H as [seen H].
  eapply (yield_from_each_NoDup (order fuel h) (λ c, rtc (base_rel h) c)
            (λ x, ¬ tc (base_rel h) x x)); [| |done|].
  - intros. by eapply order_reaches.
  - intros. by eapply order_NoDup_off_cycles.
  - intros y Hy. by eapply bases_first_off_cycles.
Qed.

(** C2: on a model whose bases have no cycle, every class reached from the
    given classes along bases, by however many paths, occurs exactly once in
    the sequence [order_classes] produces; and the sequence is produced when
    [bases] raises for no class and the recursion may go deeper than
    [class_universe] is long (the classes of the model, and the bases of
    each).  A class is yielded by the first call of [order] that meets it,
    after its bases, and a call that meets it again yields nothing. *)
Theorem order_classes_once (fuel : nat) (h : Heap) (items : list nat) :
  acyclic h →
  (∀ out c x,
     order_classes fuel h (items, None) = Ok out →
     c ∈ items → rtc (base_rel h) c x → count_occ Nat.eq_dec out x = 1) ∧
  (bases_defined h → length (class_universe h) < fuel →
   (∃ out, order_classes fuel h (items, None) = Ok out) ∧
   (∀ c seen, c ∈ seen → order fuel h c seen = Ok ([], seen)) ∧
   (∀ c seen, c ∉ seen → ∃ before seen', order fuel h c seen = Ok (before ++ [c], seen')
                                         ∧ c ∉ before)).
Proof.
  intros Hac. split.
  - intros out c x H Hc Hr.
    apply NoDup_count_occ'.
    + apply NoDup_ListNoDup. by eapply order_classes_NoDup.
    + apply list_elem_of_In. apply (order_classes_closure _ _ _ _ H). eauto.
  - intros Hdef Hlen. split; [by apply order_classes_total|]. split.
    + intros c seen Hc. destruct fuel as [|fuel]; [lia|]. simpl.
      by destruct (decide (c ∈ seen)).
    + intros c seen Hc.
      destruct (order_total h Hac Hdef fuel c seen Hlen) as [[o s] Ho].
      pose proof (order_NoDup h fuel Hac _ _ _ _ Ho) as Hd.
      destruct fuel as [|fuel]; [lia|].
      destruct (order_unseen h fuel c seen _ Hc Ho) as (o1 & s1 & H1 & Hnone & [= -> ->]).
      exists o1, ({[c]} ∪ s1). split; [done|].
      apply NoDup_app in Hd as (_ & Hd & _). intros Hin. apply (Hd _ Hin). left.
Qed.

Lemma order_classes_once_witness :
  count_occ Nat.eq_dec [0; 1; 2; 3] 0 = 1 ∧
  ∃ out, order_classes 9 diamond ([3; 2], None) = Ok out.
Proof.
  split.
  - apply (proj1 (order_classes_once 9 diamond [3; 2] diamond_acyclic) [0; 1; 2; 3] 3 0).
    + vm_compute. reflexivity.
    + left.
    + eapply rtc_l; [|eapply rtc_l; [|apply rtc_refl]].
      * unfold base_rel. vm_compute. apply list_elem_of_In. simpl. tauto.
      * unfold base_rel. vm_compute. apply list_elem_of_In. simpl. tauto.
  - apply (proj2 (order_classes_once 9 diamond [3; 2] diamond_acyclic)).
    + exact diamond_bases_defined.
    + vm_compute. lia.
Defined.
(** ** Default values *)

(** C6, as stated, fails: an attribute declared [int] whose default is a
    boolean literal gets the literal's text as default; nothing is raised. *)
Lemma default_value_kind_mismatch_accepted :
  typeValue int_with_boolean_default = Some "int" ∧
  defaultValue int_with_boolean_default = VLiteral (LiteralBoolean (Some true)) ∧
  default_value sample_recipes diamond int_with_boolean_default = Ok ", default=true".
Proof. repeat split. Qed.

(** C6, amended: [default_value] raises its fatal error exactly for a
    default value on an attribute whose [typeValue] is none of [int], [str]
    and [bool]; on those three it raises nothing for a string, integer,
    unlimited-natural or boolean literal, whatever the declared kind, and emits
    the literal's text; on [bool] the texts [true] and [false] become [True]
    and [False]. *)
Theorem default_value_coercion (R : Recipes) (h : Heap) (a : Property) :
  value_truthy (defaultValue a) = true →
  (¬ primitive_kind (typeValue a) →
   ∀ o, owner a = Some o → ∃ msg, default_value R h a = Raise (ValueError msg)) ∧
  (primitive_kind (typeValue a) →
   ∀ l, is_primitive_literal (defaultValue a) = Some l →
        ∃ text, default_value R h a = Ok (", default=" +:+ text)) ∧
  (typeValue a = Some "int" ∨ typeValue a = Some "str" →
   ∀ l, is_primitive_literal (defaultValue a) = Some l →
        default_value R h a
        = Ok (", default=" +:+ fmt (get_literal_value_as_string R l))) ∧
  (typeValue a = Some "bool" →
   ∀ l, is_boolean_or_string_literal (defaultValue a) = Some l →
        (get_literal_value_as_string R l = Some "true" →
         default_value R h a = Ok ", default=True") ∧
        (get_literal_value_as_string R l = Some "false" →
         default_value R h a = Ok ", default=False")).
Proof.
  intros Hv. unfold default_value. rewrite Hv. split; [|split; [|split]].
  - intros Hk o Ho. unfold primitive_kind in Hk.
    repeat (case_bool_decide; [tauto|]). rewrite Ho. simpl. eauto.
  - intros Hk l Hl. destruct Hk as [Hk|[Hk|Hk]]; rewrite Hk; simpl.
    + rewrite Hl. simpl. eauto.
    + rewrite Hl. simpl. eauto.
    + destruct (defaultValue a) as [|s|[]]; try discriminate; simpl;
        repeat case_bool_decide; simpl; eauto.
  - intros Hk l Hl. destruct Hk as [Hk|Hk]; rewrite Hk; simpl; by rewrite Hl.
  - intros Hk l Hl. rewrite Hk. simpl. rewrite Hl. simpl.
    split; intros Ht; by rewrite Ht.
Qed.

Lemma default_value_coercion_witness :
  default_value sample_recipes diamond int_with_boolean_default
  = Ok (", default=" +:+
        fmt (get_literal_value_as_string sample_recipes (LiteralBoolean (Some true)))).
Proof.
  apply (default_value_coercion sample_recipes diamond int_with_boolean_default).
  - reflexivity.
  - left. reflexivity.
  - reflexivity.
Defined.

(** ** Generators *)

Lemma gen_seq_error g1 g2 e :
  (gen_seq g1 g2).2 = Some e → g1.2 = Some e ∨ (g1.2 = None ∧ g2.2 = Some e).
Proof.
  unfold gen_seq. destruct g1 as [ev1 [e1|]]; simpl; [by left|by right].
Qed.

Lemma gen_concat_error l e :
  (gen_concat l).2 = Some e → ∃ g, g ∈ l ∧ g.2 = Some e.
Proof.
  induction l as [|g l IH]; simpl; [discriminate|].
  intros [H|[_ H]]%gen_seq_error.
  - exists g. split; [left|done].
  - destruct (IH H) as (g' & Hg' & He). exists g'. split; [by right|done].
Qed.

Lemma gen_concat_raises l g e :
  g ∈ l → g.2 = Some e → ∃ e', (gen_concat l).2 = Some e'.
Proof.
  induction l as [|g' l IH]; intros Hg He; [by apply elem_of_nil in Hg|].
  simpl. unfold gen_seq at 1.
  destruct g' as [ev' [e'|]]; simpl; [eauto|].
  apply elem_of_cons in Hg as [->|Hg]; [discriminate|].
  by apply IH.
Qed.

Lemma gen_seq_raises_l g1 g2 e :
  g1.2 = Some e → (gen_seq g1 g2).2 = Some e.
Proof. unfold gen_seq. intros H. by rewrite H. Qed.

(** ** Sorting keeps the elements *)

Lemma insert_by_Permutation {A} (key : A → string) x l :
  insert_by key x l ≡ₚ x :: l.
Proof.
  induction l as [|y l IH]; simpl; [done|].
  destruct (String.leb (key x) (key y)); [done|].
  rewrite IH. apply Permutation_swap.
Qed.

Lemma sorted_Permutation {A} (key : A → string) l : sorted key l ≡ₚ l.
Proof.
  induction l as [|x l IH]; simpl; [done|].
  unfold sorted in *. simpl. by rewrite insert_by_Permutation, IH.
Qed.

Lemma elem_of_sorted {A} (key : A → string) l x : x ∈ sorted key l ↔ x ∈ l.
Proof. by rewrite sorted_Permutation. Qed.

(** ** The enumeration branch of [variables] *)

Lemma any_res_error {A} (f : A → res bool) (P : error → Prop) l e :
  (∀ x e, f x = Raise e → P e) → any_res f l = Raise e → P e.
Proof.
  intros Hf. induction l as [|x l IH]; simpl; [discriminate|].
  destruct (f x) as [[]|e'] eqn:Hx; simpl; [discriminate|done|].
  intros [= ->]. by eapply Hf.
Qed.

Lemma any_iter_error {A} (f : A → res bool) (P : error → Prop) (it : iterable A) e :
  (∀ x e, f x = Raise e → P e) → (∀ e, it.2 = Some e → P e) →
  any_iter f it = Raise e → P e.
Proof.
  intros Hf Hit. unfold any_iter.
  destruct (any_res f it.1) as [[]|e'] eqn:Hany; simpl; [discriminate| |].
  - destruct it.2 as [e'|] eqn:He; [|discriminate]. intros [= <-]. by apply Hit.
  - intros [= <-]. by eapply any_res_error.
Qed.

Lemma is_reassignment_test_error fuel h a c e :
  is_reassignment_test fuel h a c = Raise e → e = RecursionError ∨ e = AttributeError.
Proof.
  revert c e. induction fuel as [|fuel IH]; intros c e; simpl; [intros [= <-]; by left|].
  destruct (existsb _ _); [discriminate|].
  apply (any_iter_error _ (λ e, e = RecursionError ∨ e = AttributeError)).
  - intros x e'. apply IH.
  - intros e' He'. right. by eapply bases_error.
Qed.

Lemma is_reassignment_error fuel h a e :
  is_reassignment fuel h a = Raise e → e ≠ IndexError.
Proof.
  unfold is_reassignment. destruct (owner a); [|congruence].
  intros H.
  eapply (any_iter_error _ (λ e, e = RecursionError ∨ e = AttributeError)) in H.
  - by destruct H; subst.
  - intros x e'. apply is_reassignment_test_error.
  - intros e' He'. right. by eapply bases_error.
Qed.

Lemma default_value_error R h a e :
  default_value R h a = Raise e → e ≠ IndexError.
Proof.
  unfold default_value. destruct (value_truthy _); [|discriminate].
  repeat case_bool_decide; simpl.
  - destruct (is_primitive_literal _); simpl; [discriminate|].
    destruct (defaultValue a); simpl; congruence.
  - destruct (is_primitive_literal _); simpl; discriminate.
  - destruct (is_boolean_or_string_literal _); simpl.
    + repeat case_bool_decide; discriminate.
    + destruct (defaultValue a); simpl; repeat case_bool_decide; discriminate.
  - destruct (owner a); simpl; congruence.
Qed.

Lemma variables_attribute_IndexError R fuel overrides h c a :
  (variables_attribute R fuel overrides h c a).2 = Some IndexError →
  ∃ t, enumeration_branch overrides h c a t ∧ ownedAttribute (cls h t) = [].
Proof.
  unfold variables_attribute, enumeration_branch, full_name_of.
  destruct (is_extension_end a) eqn:Hx; [discriminate|].
  destruct (override_for _ _) eqn:Ho; [discriminate|].
  destruct (isDerived a && _); [discriminate|].
  destruct (str_truthy _) eqn:Hv.
  { destruct (default_value R h a) eqn:Hd; simpl; [discriminate|].
    intros [= ->]. by apply default_value_error in Hd. }
  destruct (is_enumeration h (type a)) eqn:He.
  - destruct (type a) as [t|]; [|discriminate].
    destruct (ownedAttribute (cls h t)) as [|e0 l] eqn:Hl; simpl; [|discriminate].
    intros _. exists t. done.
  - destruct (type a) as [t|].
    + destruct (is_reassignment fuel h a) eqn:Hr; simpl; [discriminate|].
      intros [= ->]. by apply is_reassignment_error in Hr.
    + destruct (owner a); simpl; discriminate.
Qed.

(** C10: for an attribute whose type is an enumeration, [variables] reads
    the first owned literal of the enumeration; when the enumeration owns no
    literal the read is out of bounds and [variables] ends in an exception
    ([IndexError] at that attribute); when every enumeration that types an
    attribute of the class owns a literal, no [IndexError] arises, and the
    attribute's declaration is yielded. *)
Theorem variables_enumeration_first_literal (R : Recipes) (fuel : nat)
    (overrides : option Overrides) (h : Heap) (c : nat) :
  let attributes := prop h <$> ownedAttribute (cls h c) in
  (∀ a t, a ∈ attributes → enumeration_branch overrides h c a t →
          ownedAttribute (cls h t) = [] →
          variables_attribute R fuel overrides h c a = ([], Some IndexError) ∧
          ∃ e, (variables R fuel overrides h c).2 = Some e) ∧
  (∀ a t, a ∈ attributes → enumeration_branch overrides h c a t →
          ownedAttribute (cls h t) ≠ [] →
          ∃ line, variables_attribute R fuel overrides h c a = ([Line line], None)) ∧
  ((∀ a t, a ∈ attributes → type a = Some t → is_enumeration h (Some t) = true →
           ownedAttribute (cls h t) ≠ []) →
   (variables R fuel overrides h c).2 ≠ Some IndexError).
Proof.
  intros attributes. split; [|split].
  - intros a t Ha (Hx & Ho & Hv & Ht & He) Hnil.
    assert (variables_attribute R fuel overrides h c a = ([], Some IndexError)) as Hva.
    { unfold variables_attribute. fold (full_name_of h c a).
      rewrite Hx, Ho, Hv, Ht. simpl. rewrite andb_false_r.
      simpl in He. rewrite He, Hnil. done. }
    split; [done|]. unfold variables.
    destruct (gen_concat_raises
                (fmap (variables_attribute R fuel overrides h c)
                     (sorted (λ a, default "" (prop_name a)) attributes))
                (variables_attribute R fuel overrides h c a) IndexError) as [e He'].
    + apply list_elem_of_fmap. exists a. split; [done|]. by apply elem_of_sorted.
    + by rewrite Hva.
    + exists e. by apply gen_seq_raises_l.
  - intros a t Ha (Hx & Ho & Hv & Ht & He) Hne.
    unfold variables_attribute. fold (full_name_of h c a).
    rewrite Hx, Ho, Hv, Ht. simpl. rewrite andb_false_r.
    simpl in He. rewrite He.
    destruct (ownedAttribute (cls h t)) as [|e0 l]; [done|]. simpl. eauto.
  - intros Hall Hidx. unfold variables in Hidx.
    apply gen_seq_error in Hidx as [Hidx|[_ Hidx]].
    + apply gen_concat_error in Hidx as (g & Hg & Hidx).
      apply list_elem_of_fmap in Hg as (a & -> & Ha). apply elem_of_sorted in Ha.
      apply variables_attribute_IndexError in Hidx as (t & (_ & _ & _ & Ht & He) & Hnil).
      by eapply Hall.
    + apply gen_concat_error in Hidx as (g & Hg & Hidx).
      apply list_elem_of_fmap in Hg as (o & -> & Ho).
      unfold variables_operation in Hidx. destruct (override_for _ _); discriminate.
Qed.

Lemma variables_enumeration_first_literal_witness :
  (variables_attribute sample_recipes 9 None empty_enumeration 0
     (prop empty_enumeration 0) = ([], Some IndexError)
   ∧ ∃ e, (variables sample_recipes 9 None empty_enumeration 0).2 = Some e) ∧
  (variables sample_recipes 9 None enumeration_with_literals 0).2 ≠ Some IndexError.
Proof.
  split.
  - apply (proj1 (variables_enumeration_first_literal sample_recipes 9 None
                    empty_enumeration 0) (prop empty_enumeration 0) 1).
    + vm_compute. left.
    + repeat split; vm_compute; reflexivity.
    + vm_compute. reflexivity.
  - apply (proj2 (proj2 (variables_enumeration_first_literal sample_recipes 9 None
                           enumeration_with_literals 0))).
    intros a t Ha Ht He. vm_compute in Ha.
    apply list_elem_of_singleton in Ha. subst a. vm_compute in Ht.
    inversion Ht; subst t. vm_compute. discriminate.
Defined.

(** ** The order of the lines of [associations] *)

Section associations_facts.

Variable R : Recipes.
Variable fuel : nat.
Variable overrides : option Overrides.
Variable h : Heap.
Variable c : nat.







End associations_facts.

Example associations_redefining_class :
  associations sample_recipes 9 None redefining_class 1
  = ([Line ("Sub.first = association(" +:+ dq +:+ "first" +:+ dq +:+ ", Thing)");
      Line ("Sub.third = association(" +:+ dq +:+ "third" +:+ dq +:+ ", Thing)");
      Line ("Sub.second = redefine(Sub, " +:+ dq +:+ "second" +:+ dq
            +:+ ", Thing, base_feature)")],
     None).
Proof. vm_compute. reflexivity. Qed.

(** ** Subsets *)

(** C3: the code registers the attribute with a feature that is not a
    derived union, and logs nothing. *)
Theorem subsets_registers_with_non_derived_feature :
  isDerived (prop misapplied_subsets 0) = false ∧
  attribute 9 [] 9 misapplied_subsets 1 "base_feature" = Ok (None, Some 0) ∧
  subsets 9 [] misapplied_subsets 1
  = ([Line "Base.base_feature.add(Sub.items)  # type: ignore[attr-defined]"], None).
Proof. repeat split; vm_compute; reflexivity. Qed.

(** Whatever the feature found, [subsets] registers with it: the derived flag
    is not looked at, and the warning for a feature that is not a derived union
    is never logged. *)
Lemma subsets_value_ignores_isDerived fuel super_models h c full_name value
    element_type d o :
  attribute fuel super_models fuel h c (strip value) = Ok (element_type, Some d) →
  owner (prop h d) = Some o →
  warnings (subsets_value fuel super_models h c full_name value).1 = [] ∧
  Line (fmt (cls_name (cls h o)) +:+ "." +:+ fmt (prop_name (prop h d)) +:+ ".add("
        +:+ full_name +:+ ")  # type: ignore[attr-defined]")
  ∈ (subsets_value fuel super_models h c full_name value).1.
Proof.
  intros Ha Ho. unfold subsets_value. rewrite Ha. simpl. rewrite Ho.
  destruct element_type as [et|]; simpl.
  - split; [done|]. right. left.
  - split; [done|]. left.
Qed.
(** ** The normalization pass *)

Lemma cls_set_prop h a p c : cls (set_prop h a p) c = cls h c.
Proof. done. Qed.

Lemma prop_set_prop_eq h a p : prop (set_prop h a p) a = p.
Proof. unfold prop, set_prop. simpl. by rewrite lookup_total_insert_eq. Qed.

Lemma prop_set_prop_ne h a p a' : a ≠ a' → prop (set_prop h a p) a' = prop h a'.
Proof. intros Hne. unfold prop, set_prop. simpl. by rewrite lookup_total_insert_ne. Qed.

Lemma is_simple_type_set_prop fuel h a p c :
  is_simple_type fuel (set_prop h a p) c = is_simple_type fuel h c.
Proof.
  revert c. induction fuel as [|fuel IH]; intros c; simpl; [done|].
  rewrite cls_set_prop. destruct (existsb _ _); [done|].
  induction (generalization (cls h c)) as [|g l IHl]; simpl; [done|].
  by rewrite IH, IHl.
Qed.

Lemma canonical_set_prop fuel factory h a p a' :
  a ≠ a' → canonical fuel factory (set_prop h a p) a' = canonical fuel factory h a'.
Proof.
  intros Hne. unfold canonical, flatten_simple_type, resolve_alias.
  rewrite prop_set_prop_ne by done.
  repeat case_bool_decide; try done.
  all: repeat (destruct (type _); simpl; rewrite ?is_simple_type_set_prop; try done).
Qed.

Lemma unresolved_false p :
  unresolved p = false ↔ is_Some (type p) ∨ typeValue p ∈ recognized.
Proof.
  unfold unresolved, recognized.
  rewrite andb_false_iff, !negb_false_iff, !bool_decide_eq_true. done.
Qed.

Lemma unresolved_true p :
  unresolved p = true ↔ type p = None ∧ typeValue p ∉ recognized.
Proof.
  unfold unresolved, recognized.
  rewrite andb_true_iff, !negb_true_iff, !bool_decide_eq_false.
  rewrite <- eq_None_not_Some. done.
Qed.

Lemma is_simple_type_error fuel h c e :
  is_simple_type fuel h c = Raise e → e = RecursionError.
Proof.
  revert c e. induction fuel as [|fuel IH]; intros c e; simpl; [congruence|].
  destruct (existsb _ _); [discriminate|].
  apply (any_res_error _ (λ e, e = RecursionError)). intros x e'. apply IH.
Qed.

Lemma resolve_property_canonical fuel factory h a :
  resolve_property fuel factory h a
  = match canonical fuel factory h a with
    | Raise e => ([], set_prop h a (resolve_alias h factory (prop h a)), Some e)
    | Ok p =>
        ([], set_prop h a p,
         if unresolved p
         then Some (ValueError ("Property value type " +:+ fmt (typeValue p)
                                +:+ " can not be found"))
         else None)
    end.
Proof.
  unfold resolve_property, canonical.
  destruct (flatten_simple_type _ _ _) as [p|e]; [|done].
  by destruct (unresolved p).
Qed.

Section resolve_facts.

Variable fuel : nat.
Variable factory : ElementFactory.

Lemma resolve_property_frame h a evs h' err a' :
  resolve_property fuel factory h a = (evs, h', err) → a ≠ a' →
  prop h' a' = prop h a' ∧ canonical fuel factory h' a' = canonical fuel factory h a'.
Proof.
  rewrite resolve_property_canonical. intros H Hne.
  destruct (canonical fuel factory h a); inversion H; subst;
    by rewrite prop_set_prop_ne, canonical_set_prop.
Qed.

Lemma resolve_property_Ok h a evs h' :
  resolve_property fuel factory h a = (evs, h', None) →
  unresolved (prop h' a) = false.
Proof.
  rewrite resolve_property_canonical.
  destruct (canonical fuel factory h a) as [p|e]; [|discriminate].
  destruct (unresolved p) eqn:Hu; [discriminate|].
  intros [= <- <-]. by rewrite prop_set_prop_eq.
Qed.

Lemma for_each_resolve_frame l :
  ∀ h evs h' err a,
    for_each (resolve_property fuel factory) l h = (evs, h', err) → a ∉ l →
    prop h' a = prop h a.
Proof.
  induction l as [|x l IH]; intros h evs h' err a H Ha.
  - by inversion H.
  - simpl in H.
    destruct (resolve_property fuel factory h x) as [[ev1 h1] [e1|]] eqn:Hx.
    + inversion H; subst.
      eapply resolve_property_frame in Hx as [Hx _]; [done|]. set_solver.
    + destruct (for_each _ l h1) as [[ev2 h2] err2] eqn:Hl. inversion H; subst.
      rewrite (IH _ _ _ _ a Hl) by set_solver.
      eapply resolve_property_frame in Hx as [Hx _]; [done|]. set_solver.
Qed.

Lemma for_each_resolve_Ok l :
  ∀ h evs h' a,
    for_each (resolve_property fuel factory) l h = (evs, h', None) → a ∈ l →
    unresolved (prop h' a) = false.
Proof.
  induction l as [|x l IH]; intros h evs h' a H Ha; [by apply elem_of_nil in Ha|].
  simpl in H.
  destruct (resolve_property fuel factory h x) as [[ev1 h1] [e1|]] eqn:Hx; [discriminate|].
  destruct (for_each _ l h1) as [[ev2 h2] err2] eqn:Hl. inversion H; subst.
  destruct (decide (a ∈ l)) as [Hin|Hnin]; [by eapply IH|].
  apply elem_of_cons in Ha as [->|Ha]; [|done].
  rewrite (for_each_resolve_frame _ _ _ _ _ _ Hl Hnin).
  by eapply resolve_property_Ok.
Qed.

Lemma for_each_resolve_raises l :
  ∀ h a p,
    a ∈ l → canonical fuel factory h a = Ok p → unresolved p = true →
    ∃ e, (for_each (resolve_property fuel factory) l h).2 = Some e
         ∧ (e = RecursionError ∨ ∃ msg, e = ValueError msg).
Proof.
  induction l as [|x l IH]; intros h a p Ha Hc Hu; [by apply elem_of_nil in Ha|].
  simpl.
  destruct (resolve_property fuel factory h x) as [[ev1 h1] [e1|]] eqn:Hx.
  - exists e1. split; [done|].
    rewrite resolve_property_canonical in Hx.
    destruct (canonical fuel factory h x) as [q|e] eqn:Hq.
    + destruct (unresolved q); inversion Hx; subst. eauto.
    + inversion Hx; subst. left. unfold canonical, flatten_simple_type in Hq.
      destruct (type _); [|discriminate].
      destruct (is_simple_type fuel h n) as [[]|e'] eqn:Hs; try discriminate.
      simpl in Hq. inversion Hq; subst. by eapply is_simple_type_error.
  - destruct (decide (x = a)) as [->|Hne].
    + exfalso. rewrite resolve_property_canonical, Hc, Hu in Hx. discriminate.
    + destruct (resolve_property_frame _ _ _ _ _ a Hx Hne) as [_ Hc'].
      destruct (IH h1 a p) as (e & He & Hk); [set_solver|congruence|done|].
      destruct (for_each _ l h1) as [[ev2 h2] err2]. simpl in *. eauto.
Qed.

End resolve_facts.

(** C5, as stated, fails: a property with neither a type nor a type value
    passes the normalization and is left as it is. *)
Lemma resolve_accepts_untyped_property :
  type (prop untyped_property 0) = None ∧
  typeValue (prop untyped_property 0) = None ∧
  resolve_attribute_type_values 9 untyped_property widget_factory
  = (untyped_property, None).
Proof. repeat split; vm_compute; reflexivity. Qed.

(** C5, amended: the normalization pass raises for every property that,
    made canonical, has no type and a type value that is set and is none of
    [str], [int], [bool] and [UnlimitedNatural]; a property that passes has a
    type, or one of these type values, or no type value at all. *)
Theorem resolve_attribute_type_values_unresolved (fuel : nat) (h : Heap)
    (factory : ElementFactory) :
  (∀ a p, a ∈ select_Property factory →
          canonical fuel factory h a = Ok p →
          type p = None → typeValue p ∉ recognized →
          ∃ e, (resolve_attribute_type_values fuel h factory).2 = Some e
               ∧ (e = RecursionError ∨ ∃ msg, e = ValueError msg)) ∧
  (∀ h' a, resolve_attribute_type_values fuel h factory = (h', None) →
           a ∈ select_Property factory →
           is_Some (type (prop h' a)) ∨ typeValue (prop h' a) ∈ recognized).
Proof.
  unfold resolve_attribute_type_values. split.
  - intros a p Ha Hc Ht Hv.
    destruct (for_each_resolve_raises fuel factory (select_Property factory) h a p)
      as (e & He & Hk); [done|done|by apply unresolved_true|].
    destruct (for_each _ _ h) as [[evs h'] err]. simpl in *. eauto.
  - intros h' a H Ha.
    destruct (for_each _ _ h) as [[evs h1] err] eqn:Hf. inversion H; subst.
    apply unresolved_false. by eapply for_each_resolve_Ok.
Qed.

Lemma resolve_attribute_type_values_unresolved_witness :
  (∃ e, (resolve_attribute_type_values 9 unknown_type_value widget_factory).2 = Some e
        ∧ (e = RecursionError ∨ ∃ msg, e = ValueError msg)) ∧
  (is_Some (type (prop untyped_property 0))
   ∨ typeValue (prop untyped_property 0) ∈ recognized).
Proof.
  split.
  - apply (proj1 (resolve_attribute_type_values_unresolved 9 unknown_type_value
                    widget_factory) 0 (prop unknown_type_value 0)).
    + left.
    + vm_compute. reflexivity.
    + reflexivity.
    + vm_compute. intros H.
      repeat (apply elem_of_cons in H as [H|H]; [discriminate|]).
      by apply elem_of_nil in H.
  - apply (proj2 (resolve_attribute_type_values_unresolved 9 untyped_property
                    widget_factory) untyped_property 0).
    + vm_compute. reflexivity.
    + left.
Defined.
(** ** What the coder changes in the heap *)

Lemma same_but_names_refl h : same_but_names h h.
Proof. done. Qed.

Lemma same_but_names_trans h1 h2 h3 :
  same_but_names h1 h2 → same_but_names h2 h3 → same_but_names h1 h3.
Proof.
  intros (Hp & Hk & Hc) (Hp' & Hk' & Hc'). split; [congruence|]. split; [congruence|].
  intros c. destruct (Hc c) as (? & ? & ? & ? & ?). destruct (Hc' c) as (? & ? & ? & ? & ?).
  repeat split; congruence.
Qed.

Lemma cls_set_name_eq h c n : cls_name (cls (set_name h c n) c) = n.
Proof. unfold cls, set_name. simpl. by rewrite lookup_total_insert_eq. Qed.

Lemma cls_set_name_ne h c n c' : c ≠ c' → cls (set_name h c n) c' = cls h c'.
Proof. intros Hne. unfold cls, set_name. simpl. by rewrite lookup_total_insert_ne. Qed.

Lemma same_but_names_set_name h c n : same_but_names h (set_name h c n).
Proof.
  split; [done|]. split; [done|]. intros c'.
  destruct (decide (c = c')) as [<-|Hne]; [|by rewrite cls_set_name_ne].
  unfold cls, set_name. simpl. by rewrite lookup_total_insert_eq.
Qed.

Lemma same_but_names_prop h h' a : same_but_names h h' → prop h' a = prop h a.
Proof. intros (Hp & _). unfold prop. by rewrite Hp. Qed.

Lemma same_but_names_base_of_attribute h h' a :
  same_but_names h h' → base_of_attribute h' a = base_of_attribute h a.
Proof. intros Hs. unfold base_of_attribute. by rewrite (same_but_names_prop _ _ _ Hs). Qed.

Lemma omap_ext_list {A B} (f g : A → option B) (l : list A) :
  (∀ x, f x = g x) → omap f l = omap g l.
Proof.
  intros Hfg. induction l as [|x l IH]; [done|].
  change (omap f (x :: l)) with (match f x with Some y => y :: omap f l | None => omap f l end).
  change (omap g (x :: l)) with (match g x with Some y => y :: omap g l | None => omap g l end).
  by rewrite Hfg, IH.
Qed.

Lemma same_but_names_bases_of_attributes h h' l :
  same_but_names h h' → bases_of_attributes h' l = bases_of_attributes h l.
Proof.
  intros Hs. induction l as [|a l IH]; [done|].
  simpl. by rewrite (same_but_names_base_of_attribute h h' a Hs), IH.
Qed.

Lemma same_but_names_bases h h' c : same_but_names h h' → bases h' c = bases h c.
Proof.
  intros Hs. pose proof Hs as (_ & _ & Hc). destruct (Hc c) as (Ha & _ & Hg & _).
  unfold bases. by rewrite Ha, Hg, (same_but_names_bases_of_attributes h h').
Qed.

Lemma same_but_names_is_simple_type fuel h h' c :
  same_but_names h h' → is_simple_type fuel h' c = is_simple_type fuel h c.
Proof.
  intros (_ & _ & Hc). revert c. induction fuel as [|fuel IH]; intros c; simpl; [done|].
  destruct (Hc c) as (_ & _ & -> & -> & _). destruct (existsb _ _); [done|].
  induction (generalization (cls h c)) as [|g l IHl]; simpl; [done|].
  by rewrite IH, IHl.
Qed.

Lemma same_but_names_is_in_profile fuel h h' c :
  same_but_names h h' → is_in_profile fuel h' c = is_in_profile fuel h c.
Proof.
  intros (_ & Hk & Hc). unfold is_in_profile.
  destruct (Hc c) as (_ & _ & _ & _ & ->).
  generalize (owningPackage (cls h c)). induction fuel as [|fuel IH]; intros p; simpl; [done|].
  destruct p as [p|]; [|done]. unfold pkg. rewrite Hk.
  destruct (isProfile _); [done|]. destruct (pkg_owningPackage _); [|done]. apply IH.
Qed.

Lemma for_each_cons {A S} (body : S → A → list event * S * option error) x l st :
  for_each body (x :: l) st
  = let '(ev, st', err) := body st x in
    match err with
    | Some e => (ev, st', Some e)
    | None => let '(ev2, st2, err2) := for_each body l st' in (ev ++ ev2, st2, err2)
    end.
Proof. done. Qed.

Section first_pass.

Variable R : Recipes.
Variable fuel : nat.
Variable overrides : option Overrides.
Variable super_models : list (ModelingLanguage * ElementFactory).
Variable classes : list nat.

Abbreviation first_loop_body := (declare_class R fuel overrides super_models classes).

Lemma super_model_class_Some h c r :
  super_model_class fuel super_models h c = Ok (Some r) →
  bases h c = ([], None) ∧
  in_super_model fuel super_models h (cls_name (cls h c)) = Ok (Some r).
Proof.
  unfold super_model_class. destruct (bases h c) as [[|b l] [e|]]; try discriminate.
  done.
Qed.

Lemma super_model_class_no_bases h c :
  bases h c = ([], None) →
  super_model_class fuel super_models h c
  = in_super_model fuel super_models h (cls_name (cls h c)).
Proof. unfold super_model_class. by intros ->. Qed.

(** The one place where the coder writes to the heap. *)
Lemma declare_class_heap h imported c ev h' imported' err :
  first_loop_body (h, imported) c = (ev, (h', imported'), err) →
  h' = h ∨
  (h' = set_name h c (Some ("_" +:+ fmt (cls_name (cls h c)))) ∧
   bases h c = ([], None) ∧ class_override overrides h c = None ∧ err = None ∧
   ∃ element_type super_class,
     in_super_model fuel super_models h (cls_name (cls h c))
     = Ok (Some (element_type, super_class)) ∧
     ev = [Line (alias_import element_type (cls_name (cls h c)))]).
Proof.
  unfold declare_class. intros H.
  destruct (class_override overrides h c) as [[o n]|].
  { inversion H. left. reflexivity. }
  destruct (super_model_class fuel super_models h c) as [[[et sc]|]|e] eqn:Hs.
  - case_bool_decide.
    + inversion H; subst. right.
      apply super_model_class_Some in Hs as [Hb Hs].
      do 4 (split; [done|]). by exists et, sc.
    + inversion H; left; reflexivity.
  - destruct (class_declaration h c); [|inversion H; left; reflexivity].
    destruct (variables R fuel overrides h c) as [evs [e|]]; inversion H; left; reflexivity.
  - inversion H; left; reflexivity.
Qed.

Lemma renamed_in_refl l ev h : renamed_in overrides l ev h h.
Proof. split; [done|]. split; [done|]. intros c. by left. Qed.

Lemma class_override_cls h h' c :
  cls h' c = cls h c → class_override overrides h' c = class_override overrides h c.
Proof. unfold class_override. by intros ->. Qed.

Lemma first_pass_names l :
  ∀ h imported ev h' imported' err,
    NoDup l →
    for_each first_loop_body l (h, imported) = (ev, (h', imported'), err) →
    renamed_in overrides l ev h h'.
Proof.
  induction l as [|x l IH]; intros h imported ev h' imported' err Hd H.
  - inversion H; subst. apply renamed_in_refl.
  - rewrite for_each_cons in H. apply NoDup_cons in Hd as [Hx Hd].
    destruct (first_loop_body (h, imported) x) as [[ev1 [h1 imported1]] err1] eqn:Hdx.
    apply declare_class_heap in Hdx as Hh1.
    destruct err1 as [e1|].
    { inversion H; subst. destruct Hh1 as [->|(_ & _ & _ & [=] & _)].
      apply renamed_in_refl. }
    destruct (for_each first_loop_body l (h1, imported1)) as [[ev2 [h2 imported2]] err2] eqn:Hl.
    inversion H; subst. clear H.
    destruct (IH _ _ _ _ _ _ Hd Hl) as (Hs & Hout & Hn).
    destruct Hh1 as [->|(-> & Hb & Ho & _ & et & sc & Hsm & ->)].
    + split; [done|]. split.
      * intros t Ht. apply Hout. set_solver.
      * intros c. destruct (Hn c) as [?|(Hc & ? & ? & ? & et & Het)]; [by left|right].
        split; [set_solver|]. do 3 (split; [done|]). exists et. set_solver.
    + set (h1 := set_name h x _) in *.
      assert (same_but_names h h1) as Hs1 by apply same_but_names_set_name.
      split; [by eapply same_but_names_trans|]. split.
      * intros t Ht. rewrite Hout by set_solver.
        apply cls_set_name_ne. set_solver.
      * intros c. destruct (decide (c = x)) as [->|Hne].
        -- right. split; [set_solver|]. split.
           { destruct (Hn x) as [->|(Hc & _)]; [|done]. apply cls_set_name_eq. }
           do 2 (split; [done|]). exists et. set_solver.
        -- assert (cls h1 c = cls h c) as Hc1 by (apply cls_set_name_ne; congruence).
           destruct (Hn c) as [?|(Hc & Hnm & Hbs & Hov & et' & Het)].
           { left. congruence. }
           right. split; [set_solver|]. rewrite <- Hc1. split; [done|].
           split; [by rewrite <- (same_but_names_bases h h1)|].
           split; [by rewrite <- (class_override_cls h h1)|].
           exists et'. set_solver.
Qed.

End first_pass.

(** ** Runs of the coder *)

Example coder_two_elements :
  coder sample_recipes 9 None core_super_model two_elements two_elements_model
  = ([Line header;
      Line "from gaphor.core.modeling import Element as _Element";
      Line "from gaphor.core.modeling import Element";
      Line ""],
     set_name two_elements 0 (Some "_Element"), None).
Proof. vm_compute. reflexivity. Qed.

(** C4, as stated, fails: the coder renames the first of two classes of the
    same name that it imports from a super model. *)
Lemma coder_renames_imported_class :
  cls_name (cls two_elements 0) = Some "Element" ∧
  cls_name
    (cls (coder sample_recipes 9 None core_super_model two_elements
                two_elements_model).1.2 0)
  = Some "_Element".
Proof. split; vm_compute; reflexivity. Qed.

Section coder_facts.

Variable R : Recipes.
Variable fuel : nat.
Variable overrides : option Overrides.
Variable super_models : list (ModelingLanguage * ElementFactory).

Lemma order_classes_Ok_items h input out :
  order_classes fuel h input = Ok out → input.2 = None.
Proof.
  unfold order_classes. destruct (yield_from_each _ _ _) as [[o s]|]; simpl; [|done].
  by destruct (input.2).
Qed.

(** The shape of a run of the coder: the classes are put in order, and the
    heap the run leaves is the one the first loop leaves. *)
Lemma coder_first_pass h model evs h' err :
  coder R fuel overrides super_models h model = (evs, h', err) →
  (evs = [] ∧ h' = h ∧ ∃ e, err = Some e) ∨
  ∃ candidates classes ev1 imported err1 pre post,
    select_if (is_candidate fuel h) (select_Class model) = (candidates, None) ∧
    order_classes fuel h (candidates, None) = Ok classes ∧
    for_each (declare_class R fuel overrides super_models classes) classes (h, ∅)
    = (ev1, (h', imported), err1) ∧
    evs = pre ++ ev1 ++ post ∧
    (err = None → err1 = None).
Proof.
  unfold coder. intros H. set (head := Line header :: _) in H.
  destruct (order_classes fuel h _) as [classes|e] eqn:Ho.
  2: { inversion H; subst. left. eauto. }
  right. pose proof (order_classes_Ok_items _ _ _ Ho) as Hnone.
  destruct (select_if _ _) as [candidates err0]. simpl in Hnone. subst err0.
  destruct (for_each _ classes (h, ∅)) as [[ev1 [h1 imported]] err1] eqn:H1.
  exists candidates, classes, ev1, imported, err1.
  destruct err1 as [e1|].
  { inversion H; subst. exists head, []. rewrite app_nil_r. repeat split; done. }
  destruct (gen_concat _) as [ev2 [e2|]].
  { inversion H; subst. exists head, ev2. repeat split; done. }
  destruct (for_each _ classes imported) as [[ev3 imported3] err3].
  inversion H; subst. exists head, (ev2 ++ [Line ""] ++ ev3). repeat split; done.
Qed.

(** A run that ends without exception: the head, what the first loop emits,
    and what the later loops emit. *)
Lemma coder_first_pass_head h model evs h' :
  coder R fuel overrides super_models h model = (evs, h', None) →
  ∃ candidates classes ev1 already_imported links imported,
    select_if (is_candidate fuel h) (select_Class model) = (candidates, None) ∧
    order_classes fuel h (candidates, None) = Ok classes ∧
    for_each (declare_class R fuel overrides super_models classes) classes (h, ∅)
    = (ev1, (h', already_imported), None) ∧
    for_each (link_class R fuel overrides super_models h') classes already_imported
    = (links, imported, None) ∧
    evs = coder_head overrides ++ ev1
          ++ (gen_concat (operations overrides h' <$> classes)).1 ++ [Line ""] ++ links.
Proof.
  unfold coder. intros H. fold (coder_head overrides) in H.
  destruct (order_classes fuel h _) as [classes|e] eqn:Ho; [|discriminate].
  pose proof (order_classes_Ok_items _ _ _ Ho) as Hnone.
  destruct (select_if _ _) as [candidates err0]. simpl in Hnone. subst err0.
  destruct (for_each _ classes (h, ∅)) as [[ev1 [h1 already_imported]] err1] eqn:H1.
  destruct err1 as [e1|]; [discriminate|].
  destruct (gen_concat _) as [ev2 [e2|]] eqn:H2; [discriminate|].
  destruct (for_each _ classes already_imported) as [[ev3 imported3] err3] eqn:H3.
  inversion H; subst.
  exists candidates, classes, ev1, already_imported, ev3, imported3.
  rewrite H2. done.
Qed.

(** C4, amended: the coder writes nothing to the repository but names of
    classes.  It leaves every property and every package as it is, and of
    every class all fields other than the name; the name of a class changes
    only for a class without bases and without override that is imported
    from a super model under an alias, and it becomes the old name with an
    underscore before it. *)
Theorem coder_writes_only_names (h : Heap) (model : ElementFactory)
    (evs : list event) (h' : Heap) (err : option error) :
  coder R fuel overrides super_models h model = (evs, h', err) →
  properties h' = properties h ∧ packages h' = packages h ∧
  ∀ c,
    ownedAttribute (cls h' c) = ownedAttribute (cls h c) ∧
    ownedOperation (cls h' c) = ownedOperation (cls h c) ∧
    generalization (cls h' c) = generalization (cls h c) ∧
    applied_stereotypes (cls h' c) = applied_stereotypes (cls h c) ∧
    owningPackage (cls h' c) = owningPackage (cls h c) ∧
    (cls_name (cls h' c) = cls_name (cls h c) ∨
     (cls_name (cls h' c) = Some ("_" +:+ fmt (cls_name (cls h c))) ∧
      bases h c = ([], None) ∧ class_override overrides h c = None ∧
      ∃ element_type,
        Line (alias_import element_type (cls_name (cls h c))) ∈ evs)).
Proof.
  intros H. apply coder_first_pass in H
    as [(_ & -> & _)|(candidates & classes & ev1 & imported & err1 & pre & post
                       & _ & Ho & H1 & -> & _)].
  { repeat split; try done. by left. }
  apply first_pass_names in H1 as ((Hp & Hk & Hc) & _ & Hn);
    [|by eapply order_classes_NoDup].
  split; [done|]. split; [done|]. intros c.
  destruct (Hc c) as (? & ? & ? & ? & ?). do 5 (split; [done|]).
  destruct (Hn c) as [?|(_ & ? & ? & ? & et & Het)]; [by left|right].
  do 3 (split; [done|]). exists et. set_solver.
Qed.

End coder_facts.

Lemma coder_writes_only_names_witness :
  properties (coder sample_recipes 9 None core_super_model two_elements
                    two_elements_model).1.2
  = properties two_elements.
Proof.
  apply (coder_writes_only_names sample_recipes 9 None core_super_model two_elements
           two_elements_model
           (coder sample_recipes 9 None core_super_model two_elements
                  two_elements_model).1.1
           (coder sample_recipes 9 None core_super_model two_elements
                  two_elements_model).1.2
           (coder sample_recipes 9 None core_super_model two_elements
                  two_elements_model).2).
  vm_compute. reflexivity.
Defined.

(** ** The first loop of the coder *)

Section first_pass_visit.

Variable R : Recipes.
Variable fuel : nat.
Variable overrides : option Overrides.
Variable super_models : list (ModelingLanguage * ElementFactory).
Variable classes : list nat.

Abbreviation first_loop_body := (declare_class R fuel overrides super_models classes).

(** A first loop that ends without exception has run its body on every
    class of the list, in a heap in which the class itself is still as it
    was at the start. *)
Lemma first_pass_visit l :
  ∀ h imported ev st' x,
    NoDup l → for_each first_loop_body l (h, imported) = (ev, st', None) → x ∈ l →
    ∃ hc imported_c ev_x st_x pre post,
      first_loop_body (hc, imported_c) x = (ev_x, st_x, None) ∧
      ev = pre ++ ev_x ++ post ∧
      same_but_names h hc ∧ cls hc x = cls h x ∧
      ∀ t, t ∉ l → cls hc t = cls h t.
Proof.
  induction l as [|y l IH]; intros h imported ev st' x Hd H Hx;
    [by apply elem_of_nil in Hx|].
  rewrite for_each_cons in H. apply NoDup_cons in Hd as [Hy Hd].
  destruct (first_loop_body (h, imported) y) as [[ev1 [h1 imported1]] [e1|]] eqn:Hdy;
    [discriminate|].
  destruct (for_each first_loop_body l (h1, imported1)) as [[ev2 st2] err2] eqn:Hl.
  inversion H; subst. clear H.
  apply elem_of_cons in Hx as [->|Hx].
  - exists h, imported, ev1, (h1, imported1), [], ev2. repeat split; done.
  - destruct (IH _ _ _ _ x Hd Hl Hx)
      as (hc & ic & ev_x & st_x & pre & post & Hdx & -> & Hs & Hcx & Hout).
    assert (same_but_names h h1 ∧ ∀ t, t ≠ y → cls h1 t = cls h t) as [Hs1 Hne].
    { apply declare_class_heap in Hdy as [->|(-> & _)]; [done|].
      split; [apply same_but_names_set_name|].
      intros t Ht. by apply cls_set_name_ne. }
    exists hc, ic, ev_x, st_x, (ev1 ++ pre), post. split; [done|].
    split; [by rewrite <- app_assoc|]. split; [by eapply same_but_names_trans|].
    split.
    + rewrite Hcx. apply Hne. set_solver.
    + intros t Ht. rewrite Hout by set_solver. apply Hne. set_solver.
Qed.

(** What the body of the first loop emits for a class, in a run that goes
    on: the block of the class, all of it. *)
Lemma declare_class_block h imported c ev st :
  first_loop_body (h, imported) c = (ev, st, None) →
  class_block R fuel overrides super_models classes h c ev.
Proof.
  unfold declare_class, class_block. intros H.
  destruct (class_override overrides h c) as [[o n]|].
  { by inversion H. }
  destruct (super_model_class fuel super_models h c) as [[[et sc]|]|e]; [| |discriminate].
  - unfold alias_import, import_line. case_bool_decide; by inversion H.
  - destruct (class_declaration h c) as [declaration|]; [|discriminate].
    destruct (variables R fuel overrides h c) as [evs [e|]]; [discriminate|].
    inversion H; subst. exists declaration, evs. done.
Qed.

(** When there is no override for the class and the class is not taken from
    a super model, the body of the first loop declares it. *)
Lemma declare_class_declares h imported c ev st :
  first_loop_body (h, imported) c = (ev, st, None) →
  class_override overrides h c = None →
  super_model_class fuel super_models h c = Ok None →
  ∃ declaration evs,
    class_declaration h c = Ok declaration ∧
    variables R fuel overrides h c = (evs, None) ∧
    ev = Line declaration :: (Warn <$> warnings evs)
         ++ class_body (lines evs) ++ [Line ""; Line ""].
Proof.
  intros H Ho Hs. apply declare_class_block in H. unfold class_block in H.
  by rewrite Ho, Hs in H.
Qed.

(** A first loop that ends without exception has emitted one block for each
    class of the list, in the order of the list, and nothing else. *)
Lemma first_pass_blocks l :
  ∀ h imported ev st',
    NoDup l → for_each first_loop_body l (h, imported) = (ev, st', None) →
    ∃ blocks,
      ev = concat blocks ∧
      Forall2 (λ x block, ∃ hc, same_but_names h hc ∧ cls hc x = cls h x
                                ∧ (∀ t, t ∉ l → cls hc t = cls h t)
                                ∧ class_block R fuel overrides super_models classes
                                    hc x block)
              l blocks.
Proof.
  induction l as [|y l IH]; intros h imported ev st' Hd H.
  - inversion H; subst. exists []. split; [done|constructor].
  - rewrite for_each_cons in H. apply NoDup_cons in Hd as [Hy Hd].
    destruct (first_loop_body (h, imported) y) as [[ev1 [h1 imported1]] [e1|]] eqn:Hdy;
      [discriminate|].
    destruct (for_each first_loop_body l (h1, imported1)) as [[ev2 st2] err2] eqn:Hl.
    inversion H; subst. clear H.
    destruct (IH _ _ _ _ Hd Hl) as (blocks & -> & Hall).
    assert (same_but_names h h1 ∧ ∀ t, t ≠ y → cls h1 t = cls h t) as [Hs1 Hne].
    { apply declare_class_heap in Hdy as [->|(-> & _)]; [done|].
      split; [apply same_but_names_set_name|].
      intros t Ht. by apply cls_set_name_ne. }
    exists (ev1 :: blocks). split; [done|]. constructor.
    + exists h. do 3 (split; [done|]). by eapply declare_class_block.
    + apply Forall2_same_length_lookup. split; [by eapply Forall2_length|].
      intros i x block Hx Hblock.
      destruct (Forall2_lookup_lr _ _ _ _ _ _ Hall Hx Hblock)
        as (hc & Hs & Hcx & Hout & Hb).
      assert (x ∈ l) as Hin by (apply list_elem_of_lookup; eauto).
      exists hc. split; [by eapply same_but_names_trans|]. split.
      * rewrite Hcx. apply Hne. set_solver.
      * split; [|done]. intros t Ht. rewrite Hout by set_solver. apply Hne. set_solver.
Qed.

Lemma gen_concat_cons g l : gen_concat (g :: l) = gen_seq g (gen_concat l).
Proof. done. Qed.

Lemma gen_concat_warnings {A} (f : A → gen) (l : list A) :
  (∀ x, x ∈ l → ∃ w, f x = gen_warn w) → ∃ ws, gen_concat (f <$> l) = (Warn <$> ws, None).
Proof.
  induction l as [|x l IH]; intros Hf; [by exists []|].
  destruct (Hf x) as [w Hw]; [left|].
  destruct IH as [ws Hws]; [intros y Hy; apply Hf; by right|].
  exists (w :: ws). by rewrite fmap_cons, gen_concat_cons, Hw, Hws.
Qed.

Lemma variables_warnings_only h c :
  ownedAttribute (cls h c) = [] →
  (∀ o, o ∈ ownedOperation (cls h c) →
        override_for overrides (fmt (cls_name (cls h c)) +:+ "." +:+ fmt (op_name o))
        = None) →
  ∃ ws, variables R fuel overrides h c = (Warn <$> ws, None).
Proof.
  intros Ha Ho. unfold variables. rewrite Ha. simpl.
  destruct (gen_concat_warnings (variables_operation overrides h c)
              (sorted (λ o, default "" (op_name o)) (ownedOperation (cls h c))))
    as [ws ->]; [|by exists ws].
  intros o Hin%elem_of_sorted. unfold variables_operation. rewrite (Ho o Hin). eauto.
Qed.

Lemma lines_warnings ws : lines (Warn <$> ws) = [].
Proof. by induction ws. Qed.

Lemma warnings_warnings ws : warnings (Warn <$> ws) = ws.
Proof.
  induction ws as [|w ws IH]; [done|].
  change (warnings (Warn <$> w :: ws)) with (w :: warnings (Warn <$> ws)).
  by rewrite IH.
Qed.

Lemma lines_app evs1 evs2 : lines (evs1 ++ evs2) = lines evs1 ++ lines evs2.
Proof. apply omap_app. Qed.

End first_pass_visit.

(** ** Super models *)

Lemma filter_cls_name_same h hc name (l : list nat) :
  (∀ t, t ∈ l → cls hc t = cls h t) →
  filter (λ e, cls_name (cls hc e) = name) l = filter (λ e, cls_name (cls h e) = name) l.
Proof.
  induction l as [|x l IH]; intros Hl; [done|].
  rewrite !filter_cons, (Hl x) by left.
  rewrite IH; [done|]. intros t Ht. apply Hl. by right.
Qed.

Section super_model_facts.

Variable fuel : nat.

Lemma in_super_model_factory_same h hc modeling_language (l : list nat) :
  same_but_names h hc → (∀ t, t ∈ l → cls hc t = cls h t) →
  in_super_model_factory fuel hc modeling_language l
  = in_super_model_factory fuel h modeling_language l.
Proof.
  intros Hs. induction l as [|x l IH]; intros Hl; [done|].
  simpl. rewrite (same_but_names_is_in_profile _ _ _ _ Hs), (Hl x) by left.
  rewrite IH; [done|]. intros t Ht. apply Hl. by right.
Qed.

Lemma in_super_model_same super_models h hc name :
  same_but_names h hc →
  (∀ m t, m ∈ super_models → t ∈ select_Class m.2 → cls hc t = cls h t) →
  in_super_model fuel super_models hc name = in_super_model fuel super_models h name.
Proof.
  intros Hs. unfold in_super_model.
  induction super_models as [|[ml factory] sm IH]; intros Hm; [done|].
  simpl. rewrite (filter_cls_name_same h hc).
  2: { intros t Ht. apply (Hm (ml, factory)); [left|done]. }
  rewrite (in_super_model_factory_same h hc); [|done|].
  2: { intros t [_ Ht]%list_elem_of_filter. apply (Hm (ml, factory)); [left|done]. }
  rewrite IH; [done|]. intros m t Hmin Ht. apply (Hm m); [by right|done].
Qed.

End super_model_facts.
(** ** The blocks of a run *)

Section run_blocks.

Variable R : Recipes.
Variable fuel : nat.
Variable overrides : option Overrides.
Variable super_models : list (ModelingLanguage * ElementFactory).

(** A run that ends without exception emits the head, then one block for each
    class of the sequence, in its order, then what the later loops emit. *)
Lemma coder_blocks h model evs h' :
  coder R fuel overrides super_models h model = (evs, h', None) →
  ∃ candidates classes blocks,
    select_if (is_candidate fuel h) (select_Class model) = (candidates, None) ∧
    order_classes fuel h (candidates, None) = Ok classes ∧
    blocks_of_run R fuel overrides super_models h h' classes evs blocks.
Proof.
  intros (candidates & classes & ev1 & already_imported & links & imported
          & Hsel & Ho & H1 & H3 & ->)%coder_first_pass_head.
  pose proof (order_classes_NoDup _ _ _ _ Ho) as Hd.
  destruct (first_pass_blocks R fuel overrides super_models classes classes
              _ _ _ _ Hd H1) as (blocks & -> & Hall).
  exists candidates, classes, blocks. do 2 (split; [done|]). split; [done|].
  by exists already_imported, links, imported.
Qed.

Lemma concat_lookup_middle {A} (blocks : list (list A)) i block :
  blocks !! i = Some block →
  concat blocks = concat (take i blocks) ++ block ++ concat (drop (S i) blocks).
Proof.
  intros Hi. rewrite <- (take_drop_middle blocks i block Hi) at 1.
  by rewrite concat_app.
Qed.

End run_blocks.

(** ** Classes with an empty body *)

(** C8, as stated, fails: a class without attributes and without bases that
    a super model has is imported, not declared; no empty body is emitted for
    it. *)
Lemma coder_imports_empty_class :
  ownedAttribute (cls two_elements 1) = [] ∧ bases two_elements 1 = ([], None) ∧
  lines (coder sample_recipes 9 None core_super_model two_elements one_element_model).1.1
  = [header; "from gaphor.core.modeling import Element"; ""].
Proof. repeat split; vm_compute; reflexivity. Qed.

Section empty_class.

Variable R : Recipes.
Variable fuel : nat.
Variable overrides : option Overrides.
Variable super_models : list (ModelingLanguage * ElementFactory).

Lemma class_declaration_no_bases h c :
  bases h c = ([], None) →
  class_declaration h c = Ok ("class " +:+ fmt (cls_name (cls h c)) +:+ "():").
Proof. unfold class_declaration. by intros ->. Qed.

(** C8, amended: in a run that ends without exception the output is the
    head, then one block for each class of the sequence, in its order, then
    what the later loops emit, and nothing else.  For a class of the sequence
    without own attributes and without bases the block is: the override text
    and nothing else, no body, when there is an override for the class; one
    import line and nothing else, when a super model has a class of its
    name; and else the class declaration, followed at once by the line of the
    empty body and two empty lines, when none of its operations has an
    override.  (The classes of the super models are not among those of the
    sequence.) *)
Theorem coder_empty_class_body (h : Heap) (model : ElementFactory)
    (evs : list event) (h' : Heap) (classes : list nat) (c : nat) :
  coder R fuel overrides super_models h model = (evs, h', None) →
  order_classes fuel h (select_if (is_candidate fuel h) (select_Class model))
  = Ok classes →
  c ∈ classes →
  ownedAttribute (cls h c) = [] → (bases h c).1 = [] →
  (∀ m t, m ∈ super_models → t ∈ select_Class m.2 → t ∉ classes) →
  ∃ blocks i block,
    blocks_of_run R fuel overrides super_models h h' classes evs blocks ∧
    classes !! i = Some c ∧ blocks !! i = Some block ∧
    match class_override overrides h c with
    | Some (o, n) => block = [Line (get_override o n)]
    | None =>
        match in_super_model fuel super_models h (cls_name (cls h c)) with
        | Ok (Some (element_type, _)) =>
            block = [Line (import_line element_type)] ∨
            block = [Line (alias_import element_type (cls_name (cls h c)))]
        | Ok None =>
            (∀ o, o ∈ ownedOperation (cls h c) →
                  override_for overrides
                    (fmt (cls_name (cls h c)) +:+ "." +:+ fmt (op_name o)) = None) →
            lines block
            = ["class " +:+ fmt (cls_name (cls h c)) +:+ "():"; "    pass"; ""; ""] ∧
            ∃ pre post,
              lines evs
              = pre ++ ["class " +:+ fmt (cls_name (cls h c)) +:+ "():"; "    pass"]
                    ++ post
        | Raise _ => False
        end
    end.
Proof.
  intros H Ho Hc Ha Hb Hdisj.
  apply coder_blocks in H as (candidates & classes' & blocks & Hsel & Ho' & Hrun).
  rewrite Hsel, Ho' in Ho. inversion Ho; subst classes'. clear Ho.
  pose proof Hrun as [Hall (already_imported & links & imported & _ & _ & Hevs)].
  apply list_elem_of_lookup in Hc as [i Hi].
  destruct (Forall2_lookup_l _ _ _ _ _ Hall Hi)
    as (block & Hblock & hc & Hs & Hcc & Hout & Hcb).
  exists blocks, i, block. do 3 (split; [done|]).
  assert ((bases h c).2 = None) as Hnone.
  { apply order_classes_inv in Ho' as [Hf _]. by apply (Hf i c). }
  assert (bases hc c = ([], None)) as Hbc.
  { rewrite (same_but_names_bases h hc) by done.
    destruct (bases h c) as [l e]. simpl in *. by subst. }
  unfold class_block in Hcb.
  rewrite (class_override_cls overrides h hc) in Hcb by done.
  destruct (class_override overrides h c) as [[o n]|]; [done|].
  rewrite (super_model_class_no_bases fuel super_models hc c Hbc) in Hcb.
  rewrite Hcc, (in_super_model_same fuel super_models h hc) in Hcb; [|done|].
  2: { intros m t Hm Ht. apply Hout. by eapply Hdisj. }
  destruct (in_super_model fuel super_models h (cls_name (cls h c)))
    as [[[et sc]|]|e]; [| |done].
  - rewrite Hcb. case_bool_decide; [by right|by left].
  - intros Hop. destruct Hcb as (declaration & evs_c & Hdecl & Hvars & ->).
    destruct (variables_warnings_only R fuel overrides hc c) as [ws Hws].
    { by rewrite Hcc. }
    { rewrite Hcc. apply Hop. }
    rewrite Hws in Hvars. inversion Hvars; subst evs_c.
    rewrite (class_declaration_no_bases hc c Hbc), Hcc in Hdecl.
    inversion Hdecl; subst declaration.
    assert (lines (Line ("class " +:+ fmt (cls_name (cls h c)) +:+ "():")
                   :: (Warn <$> warnings (Warn <$> ws))
                   ++ class_body (lines (Warn <$> ws)) ++ [Line ""; Line ""])
            = ["class " +:+ fmt (cls_name (cls h c)) +:+ "():"; "    pass"; ""; ""])
      as Hlines.
    { rewrite lines_warnings, warnings_warnings. unfold class_body. simpl.
      rewrite lines_app, lines_warnings. done. }
    split; [done|].
    exists (lines (coder_head overrides) ++ lines (concat (take i blocks))),
           ([""; ""] ++ lines (concat (drop (S i) blocks))
              ++ lines ((gen_concat (operations overrides h' <$> classes)).1
                        ++ [Line ""] ++ links)).
    rewrite Hevs, (concat_lookup_middle blocks i _ Hblock).
    rewrite !lines_app, Hlines. simpl. by rewrite <- !app_assoc.
Qed.

End empty_class.

Lemma coder_empty_class_body_witness :
  (∃ blocks i block,
     blocks_of_run sample_recipes 9 None [] diamond
       (coder sample_recipes 9 None [] diamond diamond_model).1.2 [0; 1; 2; 3]
       (coder sample_recipes 9 None [] diamond diamond_model).1.1 blocks ∧
     [0; 1; 2; 3] !! i = Some 0 ∧ blocks !! i = Some block ∧
     lines block = ["class A():"; "    pass"; ""; ""] ∧
     ∃ pre post,
       lines (coder sample_recipes 9 None [] diamond diamond_model).1.1
       = pre ++ ["class A():"; "    pass"] ++ post) ∧
  (∃ blocks i block,
     blocks_of_run sample_recipes 9 (Some sample_overrides) [] diamond
       (coder sample_recipes 9 (Some sample_overrides) [] diamond diamond_model).1.2
       [0; 1; 2; 3]
       (coder sample_recipes 9 (Some sample_overrides) [] diamond diamond_model).1.1
       blocks ∧
     [0; 1; 2; 3] !! i = Some 0 ∧ blocks !! i = Some block ∧
     block = [Line "class A(enum.Enum): pass"]) ∧
  (∃ blocks i block,
     blocks_of_run sample_recipes 9 None core_super_model two_elements
       (coder sample_recipes 9 None core_super_model two_elements one_element_model).1.2
       [1]
       (coder sample_recipes 9 None core_super_model two_elements one_element_model).1.1
       blocks ∧
     [1] !! i = Some 1 ∧ blocks !! i = Some block ∧
     (block = [Line "from gaphor.core.modeling import Element"] ∨
      block = [Line "from gaphor.core.modeling import Element as _Element"])).
Proof.
  split; [|split].
  - destruct (coder_empty_class_body sample_recipes 9 None [] diamond diamond_model
                (coder sample_recipes 9 None [] diamond diamond_model).1.1
                (coder sample_recipes 9 None [] diamond diamond_model).1.2
                [0; 1; 2; 3] 0) as (blocks & i & block & Hrun & Hi & Hblock & Hbody).
    + vm_compute. reflexivity.
    + vm_compute. reflexivity.
    + left.
    + vm_compute. reflexivity.
    + vm_compute. reflexivity.
    + intros m t Hm. by apply elem_of_nil in Hm.
    + exists blocks, i, block. do 3 (split; [done|]).
      vm_compute in Hbody. apply Hbody. intros o Ho. by apply elem_of_nil in Ho.
  - apply (coder_empty_class_body sample_recipes 9 (Some sample_overrides) [] diamond
             diamond_model
             (coder sample_recipes 9 (Some sample_overrides) [] diamond diamond_model).1.1
             (coder sample_recipes 9 (Some sample_overrides) [] diamond diamond_model).1.2
             [0; 1; 2; 3] 0).
    + vm_compute. reflexivity.
    + vm_compute. reflexivity.
    + left.
    + vm_compute. reflexivity.
    + vm_compute. reflexivity.
    + intros m t Hm. by apply elem_of_nil in Hm.
  - apply (coder_empty_class_body sample_recipes 9 None core_super_model two_elements
             one_element_model
             (coder sample_recipes 9 None core_super_model two_elements
                    one_element_model).1.1
             (coder sample_recipes 9 None core_super_model two_elements
                    one_element_model).1.2
             [1] 1).
    + vm_compute. reflexivity.
    + vm_compute. reflexivity.
    + left.
    + vm_compute. reflexivity.
    + vm_compute. reflexivity.
    + intros m t Hm Ht.
      apply list_elem_of_singleton in Hm. subst m. simpl in Ht.
      apply list_elem_of_singleton in Ht. subst t.
      intros Hin. apply list_elem_of_singleton in Hin. discriminate.
Defined.

(** ** The sequence of classes the coder emits *)

Lemma select_if_items {A} (f : A → res bool) (l : list A) items :
  select_if f l = (items, None) → ∀ x, x ∈ items ↔ x ∈ l ∧ f x = Ok true.
Proof.
  revert items. induction l as [|y l IH]; intros items H x.
  - inversion H; subst. split; [by intros ?%elem_of_nil|by intros [?%elem_of_nil _]].
  - simpl in H. destruct (f y) as [b|e] eqn:Hy; [|discriminate].
    destruct (select_if f l) as [r e] eqn:Hl. inversion H; subst. clear H.
    rewrite elem_of_app, (IH r eq_refl x), elem_of_cons. split.
    + intros [Hx|[Hx Hf]]; [|by auto].
      destruct b; [|by apply elem_of_nil in Hx].
      apply list_elem_of_singleton in Hx as ->. auto.
    + intros [[->|Hx] Hf]; [|by auto].
      left. rewrite Hy in Hf. inversion Hf; subst. left.
Qed.

(** C9, as stated, fails: the base of a candidate is in the sequence, but
    where a super model has it the coder emits an import and no class
    declaration for it. *)
Lemma coder_imports_base_class :
  0 ∈ (bases imported_base 1).1 ∧
  is_candidate 9 imported_base 1 = Ok true ∧
  order_classes 9 imported_base
    (select_if (is_candidate 9 imported_base) (select_Class imported_base_model))
  = Ok [0; 1] ∧
  lines (coder sample_recipes 9 None core_super_model imported_base
               imported_base_model).1.1
  = [header; "from gaphor.core.modeling import Element";
     "class Widget(Element):"; "    pass"; ""; ""; ""].
Proof.
  split; [vm_compute; left|]. repeat split; vm_compute; reflexivity.
Qed.

Section class_sequence.

Variable R : Recipes.
Variable fuel : nat.
Variable overrides : option Overrides.
Variable super_models : list (ModelingLanguage * ElementFactory).

Lemma declare_class_overridden classes h imported c o n :
  class_override overrides h c = Some (o, n) →
  declare_class R fuel overrides super_models classes (h, imported) c
  = ([Line (get_override o n)], (h, imported), None).
Proof. unfold declare_class. by intros ->. Qed.

(** C9, amended: the sequence of classes the coder emits is the closure of
    the filtered candidates under the bases relation: a class reached from a
    candidate along bases is in it whether or not it passes the filter itself.
    In a run that ends without exception the output is the head, then one
    block for each class of the sequence, in the order of the sequence, then
    what the later loops emit, and nothing else; the block of a class is its
    declaration with its body, unless the class has an override, and then
    the block is the override text and nothing else, or has no bases and is
    found in a super model, and then the block is one import line and
    nothing else. *)
Theorem coder_class_sequence_closure (h : Heap) (model : ElementFactory)
    (evs : list event) (h' : Heap) :
  coder R fuel overrides super_models h model = (evs, h', None) →
  ∃ candidates classes blocks,
    select_if (is_candidate fuel h) (select_Class model) = (candidates, None) ∧
    (∀ c, c ∈ candidates ↔ c ∈ select_Class model ∧ is_candidate fuel h c = Ok true) ∧
    order_classes fuel h (candidates, None) = Ok classes ∧
    (∀ x, x ∈ classes ↔ ∃ c, c ∈ candidates ∧ rtc (base_rel h) c x) ∧
    blocks_of_run R fuel overrides super_models h h' classes evs blocks.
Proof.
  intros (candidates & classes & blocks & Hsel & Ho & Hrun)%coder_blocks.
  exists candidates, classes, blocks.
  split; [done|]. split; [by apply select_if_items|].
  split; [done|]. split; [by apply order_classes_closure with (fuel := fuel)|done].
Qed.

End class_sequence.

Lemma coder_class_sequence_closure_witness :
  ∃ candidates classes blocks,
    select_if (is_candidate 9 imported_base) (select_Class imported_base_model)
    = (candidates, None) ∧
    (∀ c, c ∈ candidates ↔
          c ∈ select_Class imported_base_model ∧ is_candidate 9 imported_base c = Ok true) ∧
    order_classes 9 imported_base (candidates, None) = Ok classes ∧
    (∀ x, x ∈ classes ↔ ∃ c, c ∈ candidates ∧ rtc (base_rel imported_base) c x) ∧
    blocks_of_run sample_recipes 9 None core_super_model imported_base
      (coder sample_recipes 9 None core_super_model imported_base
             imported_base_model).1.2
      classes
      (coder sample_recipes 9 None core_super_model imported_base
             imported_base_model).1.1
      blocks.
Proof.
  apply (coder_class_sequence_closure sample_recipes 9 None core_super_model
           imported_base imported_base_model
           (coder sample_recipes 9 None core_super_model imported_base
                  imported_base_model).1.1
           (coder sample_recipes 9 None core_super_model imported_base
                  imported_base_model).1.2).
  vm_compute. reflexivity.
Defined.

(** ** The order of what the first loop emits *)

Section emission_order.

Variable R : Recipes.
Variable fuel : nat.
Variable overrides : option Overrides.
Variable super_models : list (ModelingLanguage * ElementFactory).
Variable classes : list nat.

Abbreviation first_loop_body := (declare_class R fuel overrides super_models classes).

Lemma declare_class_frame h imported x ev h1 imported1 err :
  first_loop_body (h, imported) x = (ev, (h1, imported1), err) →
  same_but_names h h1 ∧ ∀ t, t ≠ x → cls h1 t = cls h t.
Proof.
  intros [->|(-> & _)]%declare_class_heap; [done|].
  split; [apply same_but_names_set_name|].
  intros t Ht. by apply cls_set_name_ne.
Qed.

Lemma declare_class_emits st x ev st' :
  first_loop_body st x = (ev, st', None) → ∃ s, Line s ∈ ev.
Proof.
  unfold declare_class. destruct st as [h imported]. intros H.
  destruct (class_override overrides h x) as [[o n]|].
  { inversion H; subst. eexists. left. }
  destruct (super_model_class fuel super_models h x) as [[[et sc]|]|e].
  - case_bool_decide; inversion H; subst; eexists; left.
  - destruct (class_declaration h x); [|discriminate].
    destruct (variables R fuel overrides h x) as [evs [e|]]; [discriminate|].
    inversion H; subst. eexists. left.
  - discriminate.
Qed.

Lemma emitted_by_first_loop_step h h1 t ev :
  same_but_names h h1 → cls h1 t = cls h t →
  emitted_by_first_loop R fuel overrides super_models classes h1 t ev → emitted_by_first_loop R fuel overrides super_models classes h t ev.
Proof.
  intros Hs Ht (hx & imported & st & Hsx & Hcx & Hd & Hl).
  exists hx, imported, st. split; [by eapply same_but_names_trans|].
  split; [congruence|done].
Qed.

(** The first loop emits for the classes in the order of the list. *)
Lemma first_pass_order l :
  ∀ h imported ev st' j k b c,
    NoDup l → for_each first_loop_body l (h, imported) = (ev, st', None) →
    l !! j = Some b → l !! k = Some c → j < k →
    ∃ ev_b ev_c p1 p2 p3,
      emitted_by_first_loop R fuel overrides super_models classes h b ev_b ∧ emitted_by_first_loop R fuel overrides super_models classes h c ev_c ∧
      ev = p1 ++ ev_b ++ p2 ++ ev_c ++ p3.
Proof.
  induction l as [|x l IH]; intros h imported ev st' j k b c Hd H Hj Hk Hjk;
    [by rewrite lookup_nil in Hj|].
  rewrite for_each_cons in H. apply NoDup_cons in Hd as [Hx Hd].
  destruct (first_loop_body (h, imported) x) as [[ev1 [h1 imported1]] [e1|]] eqn:Hdx;
    [discriminate|].
  destruct (for_each first_loop_body l (h1, imported1)) as [[ev2 st2] err2] eqn:Hl.
  inversion H; subst. clear H.
  destruct (declare_class_frame _ _ _ _ _ _ _ Hdx) as [Hs1 Hne].
  destruct k as [|k]; [lia|]. simpl in Hk.
  assert (c ∈ l) as Hc by (apply list_elem_of_lookup; eauto).
  destruct j as [|j]; simpl in Hj.
  - inversion Hj; subst b. clear Hj.
    destruct (first_pass_visit R fuel overrides super_models classes l
                _ _ _ _ c Hd Hl Hc)
      as (hc & ic & ev_c & st_c & pre & post & Hdc & -> & Hs & Hcc & _).
    exists ev1, ev_c, [], pre, post. split; [|split; [|reflexivity]].
    + exists h, imported, (h1, imported1). do 3 (split; [done|]).
      by eapply declare_class_emits.
    + eapply (emitted_by_first_loop_step h h1); [done| |].
      * apply Hne. set_solver.
      * exists hc, ic, st_c. do 3 (split; [done|]). by eapply declare_class_emits.
  - assert (b ∈ l) as Hb by (apply list_elem_of_lookup; eauto).
    destruct (IH _ _ _ _ j k b c Hd Hl Hj Hk)
      as (ev_b & ev_c & p1 & p2 & p3 & Hb' & Hc' & ->); [lia|].
    exists ev_b, ev_c, (ev1 ++ p1), p2, p3. split; [|split].
    + eapply (emitted_by_first_loop_step h h1); [done| |done]. apply Hne. set_solver.
    + eapply (emitted_by_first_loop_step h h1); [done| |done]. apply Hne. set_solver.
    + by rewrite <- app_assoc.
Qed.

End emission_order.

(** What the coder emits for a base of a class stands before what it emits for
    the class. *)
Lemma coder_emits_bases_first R fuel overrides super_models h model evs h' classes c b :
  coder R fuel overrides super_models h model = (evs, h', None) →
  order_classes fuel h (select_if (is_candidate fuel h) (select_Class model))
  = Ok classes →
  c ∈ classes → b ∈ (bases h c).1 →
  ∃ ev_b ev_c p1 p2 p3,
    emitted_by_first_loop R fuel overrides super_models classes h b ev_b ∧
    emitted_by_first_loop R fuel overrides super_models classes h c ev_c ∧
    evs = p1 ++ ev_b ++ p2 ++ ev_c ++ p3.
Proof.
  intros H Ho [k Hk]%list_elem_of_lookup Hb.
  apply coder_first_pass in H
    as [(_ & _ & e & [=])|(candidates & classes' & ev1 & imported & err1 & pre & post
                            & Hsel & Ho' & H1 & -> & Herr)].
  rewrite Hsel, Ho' in Ho. inversion Ho; subst classes'. clear Ho.
  rewrite Herr in H1 by done.
  pose proof (order_classes_NoDup _ _ _ _ Ho') as Hd.
  apply order_classes_inv in Ho' as [Hf _].
  destruct (proj2 (Hf _ _ Hk) _ Hb) as (j & Hjk & Hj).
  destruct (first_pass_order R fuel overrides super_models classes classes
              _ _ _ _ j k b c Hd H1 Hj Hk Hjk)
    as (ev_b & ev_c & p1 & p2 & p3 & Hb' & Hc' & ->).
  exists ev_b, ev_c, (pre ++ p1), p2, (p3 ++ post). split; [done|]. split; [done|].
  by rewrite <- !app_assoc.
Qed.

(** * The claims about the order of the classes *)

Lemma stereotype_extension_bases c :
  (bases stereotype_extension c).2 = None ∧
  ∀ b, b ∈ (bases stereotype_extension c).1 → b < c.
Proof.
  destruct c as [|[|c]].
  - assert (bases stereotype_extension 0 = ([], None)) as -> by (vm_compute; reflexivity).
    split; [done|]. by intros b ?%elem_of_nil.
  - assert (bases stereotype_extension 1 = ([0], None)) as -> by (vm_compute; reflexivity).
    split; [done|]. intros b ->%list_elem_of_singleton. lia.
  - rewrite bases_unknown_class.
    + split; [done|]. by intros b ?%elem_of_nil.
    + unfold stereotype_extension, heap_of. simpl.
      rewrite !lookup_insert_ne by lia. apply lookup_empty.
Qed.

Lemma stereotype_extension_acyclic : acyclic stereotype_extension.
Proof. apply acyclic_decreasing. intros c. apply stereotype_extension_bases. Qed.

Lemma stereotype_extension_bases_defined : bases_defined stereotype_extension.
Proof. intros c. apply stereotype_extension_bases. Qed.

(** An association end named [baseClass] whose association is no extension:
    [bases] raises, and so does [order_classes]. *)
Example order_classes_misnamed_association :
  bases misnamed_association 1 = ([], Some AttributeError) ∧
  order_classes 9 misnamed_association ([1], None) = Raise AttributeError.
Proof. split; vm_compute; reflexivity. Qed.

(** C1: in the sequence [order_classes] produces, every direct base of a
    class (the general of a generalization, or the class that an attribute
    named [baseClass] extends) stands at an earlier position than the class;
    the sequence is produced on a model whose bases have no cycle and in
    which [bases] raises for no class, when the recursion may go deeper than
    [class_universe] is long (the classes of the model, and the bases of
    each); and in a run of the coder that ends without exception, what is
    emitted for a base (its declaration, its import or its override) stands
    before what is emitted for the class. *)
Theorem order_classes_bases_first (fuel : nat) (h : Heap) (classes : iterable nat) :
  (∀ out i c b,
     order_classes fuel h classes = Ok out →
     out !! i = Some c → direct_base h c b → ∃ j, j < i ∧ out !! j = Some b) ∧
  (acyclic h → bases_defined h → length (class_universe h) < fuel → classes.2 = None →
   ∃ out, order_classes fuel h classes = Ok out) ∧
  (∀ R overrides super_models model evs h' out c b,
     classes = select_if (is_candidate fuel h) (select_Class model) →
     coder R fuel overrides super_models h model = (evs, h', None) →
     order_classes fuel h classes = Ok out →
     c ∈ out → direct_base h c b →
     ∃ ev_b ev_c p1 p2 p3,
       emitted_by_first_loop R fuel overrides super_models out h b ev_b ∧
       emitted_by_first_loop R fuel overrides super_models out h c ev_c ∧
       evs = p1 ++ ev_b ++ p2 ++ ev_c ++ p3).
Proof.
  assert (∀ out c b,
            order_classes fuel h classes = Ok out → c ∈ out → direct_base h c b →
            classes.2 = None ∧ bases_first h out ∧ b ∈ (bases h c).1) as Hbase.
  { intros out c b H Hc Hb. destruct classes as [items [e|]].
    - unfold order_classes in H. simpl in H.
      destruct (yield_from_each _ _ _) as [[o s]|]; discriminate.
    - split; [done|]. apply order_classes_inv in H as [Hf _]. split; [done|].
      apply list_elem_of_lookup in Hc as [i Hi].
      apply bases_items; [|done]. by apply (Hf i c). }
  split; [|split].
  - intros out i c b H Hi Hb.
    destruct (Hbase out c b H) as (_ & Hf & Hin); [|done|].
    { apply list_elem_of_lookup. eauto. }
    by apply (Hf i c).
  - destruct classes as [items err]. simpl. intros Hac Hdef Hlen ->.
    by apply order_classes_total.
  - intros R overrides super_models model evs h' out c b -> Hcoder Ho Hc Hb.
    destruct (Hbase out c b Ho Hc Hb) as (_ & _ & Hin).
    by eapply coder_emits_bases_first.
Qed.

Lemma order_classes_bases_first_witness :
  (∃ j, j < 1 ∧ [0; 1] !! j = Some 0) ∧
  (∃ out, order_classes 9 stereotype_extension ([1], None) = Ok out) ∧
  ∃ ev_b ev_c p1 p2 p3,
    emitted_by_first_loop sample_recipes 9 None [] [0; 1] stereotype_extension 0 ev_b ∧
    emitted_by_first_loop sample_recipes 9 None [] [0; 1] stereotype_extension 1 ev_c ∧
    (coder sample_recipes 9 None [] stereotype_extension stereotype_model).1.1
    = p1 ++ ev_b ++ p2 ++ ev_c ++ p3.
Proof.
  assert (direct_base stereotype_extension 1 0) as Hbase.
  { right. exists 0, {| is_Extension := true; ownedEnd_class_ := 0;
                        association_str := "extension" |}.
    split; [vm_compute; left|]. repeat split; vm_compute; reflexivity. }
  split; [|split].
  - apply (proj1 (order_classes_bases_first 9 stereotype_extension ([1], None))
             [0; 1] 1 1 0).
    + vm_compute. reflexivity.
    + reflexivity.
    + exact Hbase.
  - apply (proj1 (proj2 (order_classes_bases_first 9 stereotype_extension ([1], None)))).
    + exact stereotype_extension_acyclic.
    + exact stereotype_extension_bases_defined.
    + vm_compute. lia.
    + reflexivity.
  - apply (proj2 (proj2 (order_classes_bases_first 9 stereotype_extension
                           (select_if (is_candidate 9 stereotype_extension)
                                      (select_Class stereotype_model))))
             sample_recipes None [] stereotype_model _
             (coder sample_recipes 9 None [] stereotype_extension stereotype_model).1.2
             [0; 1] 1 0).
    + reflexivity.
    + vm_compute. reflexivity.
    + vm_compute. reflexivity.
    + apply list_elem_of_In. simpl. tauto.
    + exact Hbase.
Defined.
(** * Further properties *)

(** ** The class order, without the assumption that the bases have no cycle *)

Lemma yield_from_each_error {A B S} (f : A → S → res (list B * S)) (P : error → Prop) l :
  (∀ x s e, f x s = Raise e → P e) →
  ∀ s e, yield_from_each f l s = Raise e → P e.
Proof.
  intros Hf. induction l as [|x l IH]; intros s e; simpl; [discriminate|].
  destruct (f x s) as [[out1 s1]|e1] eqn:Hx; simpl.
  - destruct (yield_from_each f l s1) as [[out2 s2]|e2] eqn:Hl; simpl; [discriminate|].
    intros [= <-]. by eapply IH.
  - intros [= <-]. by eapply Hf.
Qed.

Lemma order_error fuel h :
  ∀ c seen e, order fuel h c seen = Raise e →
              e = RecursionError ∨ ∃ x, (bases h x).2 = Some e.
Proof.
  induction fuel as [|fuel IH]; intros c seen e; simpl; [intros [= <-]; by left|].
  destruct (decide (c ∈ seen)); [discriminate|].
  destruct (yield_from_each _ _ _) as [[out s]|e1] eqn:Hy; simpl.
  - destruct (bases h c).2 as [e1|] eqn:Hb; [|discriminate].
    intros [= <-]. right. eauto.
  - intros [= <-].
    by eapply (yield_from_each_error (order fuel h)
                 (λ e, e = RecursionError ∨ ∃ x, (bases h x).2 = Some e)) in Hy.
Qed.

Lemma order_classes_cycle fuel h (classes : iterable nat) c x :
  c ∈ classes.1 → rtc (base_rel h) c x → tc (base_rel h) x x →
  ∃ e, order_classes fuel h classes = Raise e ∧
       (e = RecursionError ∨ e = AttributeError) ∧
       (bases_defined h → e = RecursionError).
Proof.
  destruct classes as [items err]. simpl. intros Hc Hcx Hxx.
  destruct (yield_from_each (order fuel h) items ∅) as [[out s]|e] eqn:Hy.
  - exfalso.
    assert (order_classes fuel h (items, None) = Ok out) as Ho.
    { unfold order_classes. simpl. by rewrite Hy. }
    pose proof (order_classes_inv _ _ _ _ Ho) as [Hf _].
    apply (bases_first_off_cycles h out x Hf); [|done].
    apply (order_classes_closure _ _ _ _ Ho). eauto.
  - exists e. split; [unfold order_classes; simpl; by rewrite Hy|].
    eapply (yield_from_each_error (order fuel h)
              (λ e, e = RecursionError ∨ ∃ x, (bases h x).2 = Some e)) in Hy.
    2: { intros y s0 e0. apply order_error. }
    destruct Hy as [->|[y Hy]]; [by split; [left|]|].
    split; [right; by eapply bases_error|].
    intros Hdef. rewrite (Hdef y) in Hy. discriminate.
Qed.

(** Where the bases of a class given to [order_classes], or of a class reached
    from it along bases, run in a cycle, [order_classes] does not return,
    however deep the recursion may go: it ends in a [RecursionError], or in
    the [AttributeError] that [bases] raises for an association end named
    [baseClass] that is no end of an extension; in a model without such ends
    it ends in a [RecursionError]. *)
Theorem order_classes_cycle_raises (fuel : nat) (h : Heap) (classes : iterable nat)
    (c x : nat) :
  c ∈ classes.1 → rtc (base_rel h) c x → tc (base_rel h) x x →
  ∃ e, order_classes fuel h classes = Raise e ∧
       (e = RecursionError ∨ e = AttributeError) ∧
       (bases_defined h → e = RecursionError).
Proof. apply order_classes_cycle. Qed.

Lemma no_attributes_bases_defined h c :
  ownedAttribute (cls h c) = [] → (bases h c).2 = None.
Proof. unfold bases. by intros ->. Qed.

Lemma cyclic_pair_bases_defined : bases_defined cyclic_pair.
Proof.
  intros c. apply no_attributes_bases_defined. destruct c as [|[|c]]; [done..|].
  unfold cls, cyclic_pair, heap_of. simpl.
  rewrite lookup_total_alt, !lookup_insert_ne by lia. by rewrite lookup_empty.
Qed.

Lemma order_classes_cycle_raises_witness :
  order_classes 50 cyclic_pair ([0], None) = Raise RecursionError.
Proof.
  destruct (order_classes_cycle_raises 50 cyclic_pair ([0], None) 0 0)
    as (e & He & _ & Hrec).
  - left.
  - apply rtc_refl.
  - eapply tc_l; [|apply tc_once].
    + unfold base_rel. instantiate (1 := 1). vm_compute. left.
    + unfold base_rel. vm_compute. left.
  - rewrite He. f_equal. apply Hrec, cyclic_pair_bases_defined.
Defined.

(** Whenever [order_classes] returns a sequence, it holds every class it was
    given, no class twice, and no class that lies on a cycle of bases; this
    needs no assumption on the model. *)
Theorem order_classes_returns_distinct (fuel : nat) (h : Heap) (items : list nat)
    (out : list nat) :
  order_classes fuel h (items, None) = Ok out →
  NoDup out ∧ (∀ c, c ∈ items → c ∈ out) ∧ ∀ x, x ∈ out → ¬ tc (base_rel h) x x.
Proof.
  intros Ho. split; [by eapply order_classes_NoDup|].
  pose proof (order_classes_inv _ _ _ _ Ho) as [Hf Hin]. split; [done|].
  intros x Hx. by eapply bases_first_off_cycles.
Qed.

Lemma order_classes_returns_distinct_witness :
  NoDup [0; 1; 2; 3] ∧ (∀ c, c ∈ [3; 2; 3] → c ∈ [0; 1; 2; 3])
  ∧ ∀ x, x ∈ [0; 1; 2; 3] → ¬ tc (base_rel diamond) x x.
Proof.
  apply (order_classes_returns_distinct 9 diamond [3; 2; 3] [0; 1; 2; 3]).
  vm_compute. reflexivity.
Defined.


(** ** The classifier predicates *)

Lemma any_res_true {A} (f : A → res bool) l :
  any_res f l = Ok true → ∃ x, x ∈ l ∧ f x = Ok true.
Proof.
  induction l as [|x l IH]; simpl; [discriminate|].
  destruct (f x) as [[]|e] eqn:Hx; simpl; [| |discriminate].
  - intros _. exists x. split; [left|done].
  - intros (y & Hy & Hfy)%IH. exists y. split; [by right|done].
Qed.

Lemma any_res_false {A} (f : A → res bool) l :
  any_res f l = Ok false → ∀ x, x ∈ l → f x = Ok false.
Proof.
  induction l as [|x l IH]; simpl; [by intros _ y ?%elem_of_nil|].
  destruct (f x) as [[]|e] eqn:Hx; simpl; [discriminate| |discriminate].
  intros Hl y [->|Hy]%elem_of_cons; [done|by apply IH].
Qed.

Lemma any_res_total {A} (f : A → res bool) l :
  (∀ x, x ∈ l → ∃ b, f x = Ok b) → ∃ b, any_res f l = Ok b.
Proof.
  induction l as [|x l IH]; intros Hf; simpl; [eauto|].
  destruct (Hf x) as [[] ->]; [left|simpl; eauto|simpl].
  apply IH. intros y Hy. apply Hf. by right.
Qed.

Lemma any_iter_true {A} (f : A → res bool) (it : iterable A) :
  any_iter f it = Ok true → ∃ x, x ∈ it.1 ∧ f x = Ok true.
Proof.
  unfold any_iter. destruct (any_res f it.1) as [[]|e] eqn:Hany; simpl.
  - intros _. by apply any_res_true.
  - destruct it.2; discriminate.
  - discriminate.
Qed.

Lemma any_iter_false {A} (f : A → res bool) (it : iterable A) :
  any_iter f it = Ok false → it.2 = None ∧ ∀ x, x ∈ it.1 → f x = Ok false.
Proof.
  unfold any_iter. destruct (any_res f it.1) as [[]|e] eqn:Hany; simpl;
    [discriminate| |discriminate].
  destruct it.2; [discriminate|]. intros _. split; [done|]. by apply any_res_false.
Qed.

Lemma any_iter_total {A} (f : A → res bool) (it : iterable A) :
  it.2 = None → (∀ x, x ∈ it.1 → ∃ b, f x = Ok b) → ∃ b, any_iter f it = Ok b.
Proof.
  intros Hnone Hf. unfold any_iter.
  destruct (any_res_total f it.1 Hf) as [[] ->]; simpl; [eauto|].
  rewrite Hnone. eauto.
Qed.

(** A recursion along a relation comes to an end when it starts in a list
    that is closed under the relation and holds nothing that lies on a cycle,
    once it may go as deep as the list is long. *)
Lemma descent_total {A} (succ : nat → list nat) (U : list nat) (F : nat → nat → res A) :
  (∀ c b, c ∈ U → b ∈ succ c → b ∈ U) →
  (∀ c, c ∈ U → ¬ tc (λ c b, b ∈ succ c) c c) →
  (∀ fuel c, c ∈ U → (∀ b, b ∈ succ c → ∃ r, F fuel b = Ok r) →
             ∃ r, F (S fuel) c = Ok r) →
  ∀ fuel c, c ∈ U → length U ≤ fuel → ∃ r, F fuel c = Ok r.
Proof.
  intros HU Hac Hstep.
  assert (∀ fuel c path,
            NoDup path → (∀ p, p ∈ path → tc (λ c b, b ∈ succ c) p c) → path ⊆ U →
            c ∈ U → length U ≤ length path + fuel → ∃ r, F fuel c = Ok r) as Hpath.
  { induction fuel as [|fuel IH]; intros c path Hd Hp Hsub Hc Hlen.
    - exfalso.
      assert (NoDup (c :: path)) as Hd'.
      { constructor; [|done]. intros Hin. apply (Hac c Hc). by apply Hp. }
      assert (c :: path ⊆+ U) as Hsm.
      { apply NoDup_submseteq; [done|].
        intros x [->|Hx]%elem_of_cons; [done|by apply Hsub]. }
      apply submseteq_length in Hsm. simpl in Hsm. lia.
    - apply Hstep; [done|]. intros b Hb. apply (IH b (c :: path)).
      + constructor; [|done]. intros Hin. apply (Hac c Hc). by apply Hp.
      + intros p [->|Hin]%elem_of_cons; [by apply tc_once|].
        eapply tc_r; [by apply Hp|done].
      + intros x [->|Hx]%elem_of_cons; [done|by apply Hsub].
      + by eapply HU.
      + simpl. lia. }
  intros fuel c Hc Hlen. apply (Hpath fuel c []).
  - constructor.
  - intros p Hp. by apply elem_of_nil in Hp.
  - intros p Hp. by apply elem_of_nil in Hp.
  - done.
  - simpl. lia.
Qed.

(** A relation that goes from larger numbers to smaller ones, within a set,
    has no cycle there. *)
Lemma decreasing_no_cycle (R : relation nat) (U : list nat) :
  (∀ x y, x ∈ U → R x y → y ∈ U ∧ y < x) → ∀ x, x ∈ U → ¬ tc R x x.
Proof.
  intros Hdec.
  assert (∀ x y, tc R x y → x ∈ U → y ∈ U ∧ y < x) as Htc.
  { intros x y Hxy. induction Hxy as [x y Hxy|x y z Hxy _ IH]; intros Hx.
    - by apply Hdec.
    - destruct (Hdec x y Hx Hxy) as [Hy Hlt]. destruct (IH Hy) as [Hz Hlt']. split; [done|lia]. }
  intros x Hx Hxx. destruct (Htc x x Hxx Hx). lia.
Qed.

Lemma tc_weaken {A} (R1 R2 : relation A) x y :
  (∀ x y, R1 x y → R2 x y) → tc R1 x y → tc R2 x y.
Proof. intros Hsub. apply (tc_congruence (λ x, x) R2). exact Hsub. Qed.

Lemma general_rel_base_rel h c g : general_rel h c g → base_rel h c g.
Proof.
  unfold general_rel, base_rel. rewrite bases_eq. simpl.
  intros Hg. apply elem_of_app. by left.
Qed.

Lemma acyclic_general_rel h : acyclic h → ∀ c, ¬ tc (general_rel h) c c.
Proof.
  intros Hac c Hc. apply (Hac c).
  eapply tc_weaken; [|done]. apply general_rel_base_rel.
Qed.

Lemma existsb_SimpleAttribute h c :
  existsb (λ s, bool_decide (s = Some "SimpleAttribute")) (applied_stereotypes (cls h c))
  = true ↔ has_SimpleAttribute h c.
Proof.
  unfold has_SimpleAttribute. rewrite existsb_exists. split.
  - intros (s & Hs & ->%bool_decide_eq_true). by apply list_elem_of_In.
  - intros Hs. exists (Some "SimpleAttribute"). split; [by apply list_elem_of_In|].
    by apply bool_decide_eq_true.
Qed.

Lemma is_simple_type_reaches (fuel : nat) (h : Heap) (c : nat) (b : bool) :
  is_simple_type fuel h c = Ok b →
  (b = true ↔ ∃ x, rtc (general_rel h) c x ∧ has_SimpleAttribute h x).
Proof.
  revert c b. induction fuel as [|fuel IH]; intros c b; simpl; [discriminate|].
  destruct (existsb _ _) eqn:He.
  - intros [= <-]. split; [|done]. intros _. exists c. split; [apply rtc_refl|].
    by apply existsb_SimpleAttribute.
  - intros Hany. destruct b.
    + split; [|done]. intros _.
      apply any_res_true in Hany as (g & Hg & Hsg).
      apply IH in Hsg as [Hx _]. destruct Hx as (x & Hgx & Hx); [done|].
      exists x. split; [|done]. by eapply rtc_l.
    + split; [discriminate|]. intros (x & Hcx & Hx). exfalso.
      destruct Hcx as [c|c g x Hcg Hgx].
      * apply existsb_SimpleAttribute in Hx. congruence.
      * pose proof (any_res_false _ _ Hany g Hcg) as Hsg.
        apply IH in Hsg as [_ Hsg]. discriminate Hsg. eauto.
Qed.

Lemma is_simple_type_total fuel h c (U : list nat) :
  c ∈ U → (∀ x g, x ∈ U → general_rel h x g → g ∈ U) →
  (∀ x, x ∈ U → ¬ tc (general_rel h) x x) → length U ≤ fuel →
  ∃ b, is_simple_type fuel h c = Ok b.
Proof.
  intros Hc Hclosed Hac Hlen.
  apply (descent_total (λ c, generalization (cls h c)) U
           (λ fuel c, is_simple_type fuel h c)); [done|done| |done|done].
  intros n x _ Hx. simpl. destruct (existsb _ _); [eauto|]. by apply any_res_total.
Qed.

(** [is_simple_type] tells whether the class or one of its generals, over any
    number of generalizations, carries the stereotype [SimpleAttribute]: that
    is what it returns when it returns.  It returns when there is a list of
    classes, no longer than the recursion may go deep, that holds the class,
    is closed under generalization and holds no class that lies on a cycle of
    generalizations. *)
Theorem is_simple_type_inherited (fuel : nat) (h : Heap) (c : nat) :
  (∀ b, is_simple_type fuel h c = Ok b →
        (b = true ↔ ∃ x, rtc (general_rel h) c x ∧ has_SimpleAttribute h x)) ∧
  (∀ U : list nat,
     c ∈ U → (∀ x g, x ∈ U → general_rel h x g → g ∈ U) →
     (∀ x, x ∈ U → ¬ tc (general_rel h) x x) → length U ≤ fuel →
     ∃ b, is_simple_type fuel h c = Ok b).
Proof.
  split; [intros b; apply is_simple_type_reaches|].
  intros U. apply is_simple_type_total.
Qed.

Lemma simple_text_generals x g :
  x ∈ [1; 0] → general_rel simple_text x g → g ∈ [1; 0] ∧ g < x.
Proof.
  unfold general_rel.
  intros [->|[->|Hx%elem_of_nil]%elem_of_cons]%elem_of_cons; [| |done].
  - change (generalization (cls simple_text 1)) with [0].
    intros ->%list_elem_of_singleton. split; [right; left|lia].
  - change (generalization (cls simple_text 0)) with (@nil nat).
    by intros ?%elem_of_nil.
Qed.

Lemma is_simple_type_inherited_witness :
  (true = true ↔ ∃ x, rtc (general_rel simple_text) 1 x ∧ has_SimpleAttribute simple_text x)
  ∧ ∃ b, is_simple_type 2 simple_text 1 = Ok b.
Proof.
  split.
  - apply (proj1 (is_simple_type_inherited 2 simple_text 1) true).
    vm_compute. reflexivity.
  - apply (proj2 (is_simple_type_inherited 2 simple_text 1) [1; 0]).
    + left.
    + intros x g Hx Hg. by apply (simple_text_generals x g).
    + apply decreasing_no_cycle. apply simple_text_generals.
    + simpl. lia.
Defined.

Lemma is_in_profile_test_chain fuel h :
  ∀ p b, is_in_profile_test fuel h (Some p) = Ok b →
         (b = true ↔ ∃ q, rtc (owning_rel h) p q ∧ isProfile (pkg h q) = true).
Proof.
  induction fuel as [|fuel IH]; intros p b; simpl; [discriminate|].
  destruct (isProfile (pkg h p)) eqn:Hp.
  - intros [= <-]. split; [|done]. intros _. exists p. split; [apply rtc_refl|done].
  - destruct (pkg_owningPackage (pkg h p)) as [q|] eqn:Hq.
    + intros Hb. apply IH in Hb. rewrite Hb. split.
      * intros (r & Hqr & Hr). exists r. split; [by eapply rtc_l|done].
      * intros (r & Hpr & Hr). exists r. split; [|done].
        destruct Hpr as [p|p q' r Hpq Hqr]; [congruence|].
        unfold owning_rel in Hpq. congruence.
    + intros [= <-]. split; [discriminate|]. intros (r & Hpr & Hr). exfalso.
      destruct Hpr as [p|p q' r Hpq Hqr]; [congruence|].
      unfold owning_rel in Hpq. congruence.
Qed.

Lemma elem_of_option_list' {A} (x : A) (o : option A) : x ∈ option_list o ↔ o = Some x.
Proof.
  destruct o as [y|]; simpl.
  - rewrite list_elem_of_singleton. split; congruence.
  - split; [by intros ?%elem_of_nil|done].
Qed.

Lemma is_in_profile_test_total fuel h p (U : list nat) :
  p ∈ U → (∀ x q, x ∈ U → owning_rel h x q → q ∈ U) →
  (∀ x, x ∈ U → ¬ tc (owning_rel h) x x) → length U ≤ fuel →
  ∃ b, is_in_profile_test fuel h (Some p) = Ok b.
Proof.
  intros Hp Hclosed Hac Hlen.
  apply (descent_total (λ p, option_list (pkg_owningPackage (pkg h p))) U
           (λ fuel p, is_in_profile_test fuel h (Some p))); [| | |done|done].
  - intros x q Hx Hq%elem_of_option_list'. by eapply Hclosed.
  - intros x Hx Hxx. apply (Hac x Hx). eapply tc_weaken; [|done].
    intros y z Hz%elem_of_option_list'. done.
  - intros n x _ Hx. simpl. destruct (isProfile _); [eauto|].
    destruct (pkg_owningPackage (pkg h x)) as [q|] eqn:Hq; [|eauto].
    apply Hx. apply elem_of_option_list'. done.
Qed.

(** [is_in_profile] tells whether the package of the class, or a package that
    owns it over any number of levels, is a profile: that is what it returns
    when it returns.  For a class in a package it returns when there is a
    list of packages, no longer than the recursion may go deep, that holds
    the package of the class, is closed under ownership and in which no
    package owns itself over any number of levels; for a class that is in no
    package it raises an [AttributeError]. *)
Theorem is_in_profile_owning_chain (fuel : nat) (h : Heap) (c : nat) :
  (∀ b, is_in_profile fuel h c = Ok b →
        ∃ p, owningPackage (cls h c) = Some p ∧
             (b = true ↔ ∃ q, rtc (owning_rel h) p q ∧ isProfile (pkg h q) = true)) ∧
  (∀ (p : nat) (U : list nat),
     owningPackage (cls h c) = Some p → p ∈ U →
     (∀ x q, x ∈ U → owning_rel h x q → q ∈ U) →
     (∀ x, x ∈ U → ¬ tc (owning_rel h) x x) → length U ≤ fuel →
     ∃ b, is_in_profile fuel h c = Ok b) ∧
  (0 < fuel → owningPackage (cls h c) = None →
   is_in_profile fuel h c = Raise AttributeError).
Proof.
  unfold is_in_profile. split; [|split].
  - intros b Hb. destruct (owningPackage (cls h c)) as [p|].
    + exists p. split; [done|]. by eapply is_in_profile_test_chain.
    + destruct fuel; discriminate.
  - intros p U -> Hp Hclosed Hac Hlen. by eapply is_in_profile_test_total.
  - intros Hfuel ->. destruct fuel; [lia|done].
Qed.

Lemma profile_class_owners x q :
  x ∈ [1; 0] → owning_rel profile_class x q → q ∈ [1; 0] ∧ q < x.
Proof.
  unfold owning_rel.
  intros [->|[->|Hx%elem_of_nil]%elem_of_cons]%elem_of_cons; [| |done].
  - change (pkg_owningPackage (pkg profile_class 1)) with (Some 0).
    intros [= <-]. split; [right; left|lia].
  - change (pkg_owningPackage (pkg profile_class 0)) with (@None nat). discriminate.
Qed.

Lemma is_in_profile_owning_chain_witness :
  (∃ p, owningPackage (cls profile_class 0) = Some p ∧
        (true = true ↔ ∃ q, rtc (owning_rel profile_class) p q
                            ∧ isProfile (pkg profile_class q) = true)) ∧
  ∃ b, is_in_profile 2 profile_class 0 = Ok b.
Proof.
  split.
  - apply (proj1 (is_in_profile_owning_chain 2 profile_class 0) true).
    vm_compute. reflexivity.
  - apply (proj1 (proj2 (is_in_profile_owning_chain 2 profile_class 0)) 1 [1; 0]).
    + reflexivity.
    + left.
    + intros x q Hx Hq. by apply (profile_class_owners x q).
    + apply decreasing_no_cycle. apply profile_class_owners.
    + simpl. lia.
Defined.

Lemma existsb_owns_attribute_named h a x :
  existsb (λ attr, bool_decide (prop_name (prop h attr) = prop_name a))
          (ownedAttribute (cls h x)) = true
  ↔ owns_attribute_named h a x.
Proof.
  unfold owns_attribute_named. rewrite existsb_exists. split.
  - intros (attr & Hin & Hn%bool_decide_eq_true). exists attr.
    split; [by apply list_elem_of_In|done].
  - intros (attr & Hin & Hn). exists attr.
    split; [by apply list_elem_of_In|by apply bool_decide_eq_true].
Qed.

Lemma is_reassignment_test_reaches fuel h a :
  ∀ c b, is_reassignment_test fuel h a c = Ok b →
         (b = true ↔ ∃ x, rtc (base_rel h) c x ∧ owns_attribute_named h a x).
Proof.
  induction fuel as [|fuel IH]; intros c b; simpl; [discriminate|].
  destruct (existsb _ _) eqn:He.
  - intros [= <-]. split; [|done]. intros _. exists c. split; [apply rtc_refl|].
    by apply existsb_owns_attribute_named.
  - intros Hany. destruct b.
    + split; [|done]. intros _.
      apply any_iter_true in Hany as (g & Hg & Hsg).
      apply IH in Hsg as [Hx _]. destruct Hx as (x & Hgx & Hx); [done|].
      exists x. split; [|done]. by eapply rtc_l.
    + split; [discriminate|]. intros (x & Hcx & Hx). exfalso.
      destruct Hcx as [c|c g x Hcg Hgx].
      * apply existsb_owns_attribute_named in Hx. congruence.
      * pose proof (proj2 (any_iter_false _ _ Hany) g Hcg) as Hsg.
        apply IH in Hsg as [_ Hsg]. discriminate Hsg. eauto.
Qed.

Lemma is_reassignment_test_total fuel h a c (U : list nat) :
  c ∈ U → (∀ x b, x ∈ U → base_rel h x b → b ∈ U) →
  (∀ x, x ∈ U → ¬ tc (base_rel h) x x) → (∀ x, x ∈ U → (bases h x).2 = None) →
  length U ≤ fuel →
  ∃ b, is_reassignment_test fuel h a c = Ok b.
Proof.
  intros Hc Hclosed Hac Hdef Hlen.
  apply (descent_total (λ c, (bases h c).1) U
           (λ fuel c, is_reassignment_test fuel h a c)); [done|done| |done|done].
  intros n x Hx Hb. simpl. destruct (existsb _ _); [eauto|].
  apply any_iter_total; [by apply Hdef|done].
Qed.

Lemma is_reassignment_total fuel h a o (U : list nat) :
  owner a = Some o → o ∈ U → (∀ x b, x ∈ U → base_rel h x b → b ∈ U) →
  (∀ x, x ∈ U → ¬ tc (base_rel h) x x) → (∀ x, x ∈ U → (bases h x).2 = None) →
  length U ≤ fuel →
  ∃ b, is_reassignment fuel h a = Ok b.
Proof.
  intros Ho Hin Hclosed Hac Hdef Hlen. unfold is_reassignment. rewrite Ho.
  apply any_iter_total; [by apply Hdef|]. intros g Hg.
  eapply is_reassignment_test_total; [|done..]. by eapply Hclosed.
Qed.

(** [is_reassignment] tells whether a class above the owner of the attribute,
    over one or more bases, owns an attribute of the same name; the owner's
    own attributes do not count.  That is what it returns when it returns.
    It returns when there is a list of classes, no longer than the recursion
    may go deep, that holds the owner, is closed under bases, holds no class
    that lies on a cycle of bases and no class for which [bases] raises. *)
Theorem is_reassignment_shadows_base (fuel : nat) (h : Heap) (a : Property) :
  (∀ b, is_reassignment fuel h a = Ok b →
        ∃ o, owner a = Some o ∧
             (b = true ↔ ∃ x, tc (base_rel h) o x ∧ owns_attribute_named h a x)) ∧
  (∀ (o : nat) (U : list nat),
     owner a = Some o → o ∈ U → (∀ x b, x ∈ U → base_rel h x b → b ∈ U) →
     (∀ x, x ∈ U → ¬ tc (base_rel h) x x) → (∀ x, x ∈ U → (bases h x).2 = None) →
     length U ≤ fuel →
     ∃ b, is_reassignment fuel h a = Ok b).
Proof.
  split; [|intros o U; apply is_reassignment_total].
  intros b.
  unfold is_reassignment. destruct (owner a) as [o|]; [|discriminate].
  intros Hany. exists o. split; [done|]. destruct b.
  - split; [|done]. intros _.
    apply any_iter_true in Hany as (g & Hg & Hsg).
    apply is_reassignment_test_reaches in Hsg as [Hx _].
    destruct Hx as (x & Hgx & Hx); [done|].
    exists x. split; [|done]. eapply tc_rtc_r; [by apply tc_once|done].
  - split; [discriminate|]. intros (x & Hox & Hx). exfalso.
    assert (∃ g, g ∈ (bases h o).1 ∧ rtc (base_rel h) g x) as (g & Hg & Hgx).
    { destruct Hox as [o x Hox|o g x Hog Hgx].
      - exists x. split; [done|apply rtc_refl].
      - exists g. split; [done|by apply tc_rtc]. }
    pose proof (proj2 (any_iter_false _ _ Hany) g Hg) as Hsg.
    apply is_reassignment_test_reaches in Hsg as [_ Hsg]. discriminate Hsg. eauto.
Qed.

Lemma shadowing_attribute_bases x :
  x ∈ [1; 0] →
  (bases shadowing_attribute x).2 = None ∧
  ∀ b, base_rel shadowing_attribute x b → b ∈ [1; 0] ∧ b < x.
Proof.
  unfold base_rel.
  intros [->|[->|Hx%elem_of_nil]%elem_of_cons]%elem_of_cons; [| |done].
  - assert (bases shadowing_attribute 1 = ([0], None)) as ->
      by (vm_compute; reflexivity).
    split; [done|]. intros b ->%list_elem_of_singleton. split; [right; left|lia].
  - assert (bases shadowing_attribute 0 = ([], None)) as ->
      by (vm_compute; reflexivity).
    split; [done|]. by intros b ?%elem_of_nil.
Qed.

Lemma is_reassignment_shadows_base_witness :
  (∃ o, owner (prop shadowing_attribute 1) = Some o ∧
        (true = true ↔ ∃ x, tc (base_rel shadowing_attribute) o x
                            ∧ owns_attribute_named shadowing_attribute
                                (prop shadowing_attribute 1) x)) ∧
  ∃ b, is_reassignment 2 shadowing_attribute (prop shadowing_attribute 1) = Ok b.
Proof.
  split.
  - apply (proj1 (is_reassignment_shadows_base 2 shadowing_attribute
                    (prop shadowing_attribute 1)) true).
    vm_compute. reflexivity.
  - apply (proj2 (is_reassignment_shadows_base 2 shadowing_attribute
                    (prop shadowing_attribute 1)) 1 [1; 0]).
    + reflexivity.
    + left.
    + intros x b Hx Hb. by apply (proj2 (shadowing_attribute_bases x Hx)).
    + apply decreasing_no_cycle.
      intros x b Hx Hb. by apply (proj2 (shadowing_attribute_bases x Hx)).
    + intros x Hx. by apply (proj1 (shadowing_attribute_bases x Hx)).
    + simpl. lia.
Defined.

Lemma attribute_in_bases_Some f l et a :
  attribute_in_bases f l = Ok (Some (et, a)) →
  ∃ base, base ∈ l ∧ f base = Ok (et, Some a).
Proof.
  induction l as [|b l IH]; simpl; [discriminate|].
  destruct (f b) as [[et' [a'|]]|e] eqn:Hb; simpl; [| |discriminate].
  - intros [= -> ->]. exists b. split; [left|done].
  - intros [base [Hin Hbase]]%IH. exists base. split; [by right|done].
Qed.

Lemma attribute_in_bases_None f l :
  attribute_in_bases f l = Ok None →
  ∀ base, base ∈ l → ∃ et, f base = Ok (et, None).
Proof.
  induction l as [|b l IH]; simpl; intros H base Hin; [by apply elem_of_nil in Hin|].
  destruct (f b) as [[et' [a'|]]|e] eqn:Hb; simpl in H; [discriminate| |discriminate].
  apply elem_of_cons in Hin as [->|Hin]; [eauto|by apply IH].
Qed.

Lemma attribute_in_bases_total f l :
  (∀ base, base ∈ l → ∃ r, f base = Ok r) → ∃ r, attribute_in_bases f l = Ok r.
Proof.
  induction l as [|b l IH]; intros Hf; simpl; [eauto|].
  destruct (Hf b) as [[et [a|]] ->]; [left|simpl; eauto|simpl].
  apply IH. intros base Hin. apply Hf. by right.
Qed.

Lemma attribute_found_named fuel super_models depth h name :
  ∀ c et d, attribute fuel super_models depth h c name = Ok (et, Some d) →
            prop_name (prop h d) = Some name ∧ ∃ o, d ∈ ownedAttribute (cls h o).
Proof.
  induction depth as [|depth IH]; intros c et d; simpl; [discriminate|].
  destruct (filter _ _) as [|a l] eqn:Hf.
  - destruct (attribute_in_bases _ _) as [[[et' a']|]|e] eqn:Hb; simpl;
      [| |discriminate].
    + intros [= -> ->].
      apply attribute_in_bases_Some in Hb as [base [_ Hbase]]. by eapply IH.
    + destruct (bases h c).2; [discriminate|].
      destruct (in_super_model _ _ _ _) as [[[et' s]|]|e]; simpl;
        [| discriminate | discriminate].
      case_decide; [discriminate|].
      destruct (attribute fuel super_models depth h s name) as [[et'' a'']|e] eqn:Hs;
        simpl; [|discriminate].
      intros [= <- ->]. by eapply IH.
  - intros [= <- <-].
    assert (a ∈ filter (λ a, prop_name (prop h a) = Some name)
                  (ownedAttribute (cls h c))) as Ha by (rewrite Hf; left).
    apply list_elem_of_filter in Ha as [Hname Hin]. eauto.
Qed.

(** Whatever the super models, a feature that [attribute] finds bears the name
    that was looked for and is an attribute that a class owns; and an
    attribute of that name that the class owns itself is found before any
    base or super model is looked at, with no element type. *)
Theorem attribute_finds_named (fuel : nat)
    (super_models : list (ModelingLanguage * ElementFactory))
    (depth : nat) (h : Heap) (c : nat) (name : string) :
  (∀ et d, attribute fuel super_models depth h c name = Ok (et, Some d) →
           prop_name (prop h d) = Some name ∧ ∃ o, d ∈ ownedAttribute (cls h o)) ∧
  (0 < depth → ∀ a, a ∈ ownedAttribute (cls h c) → prop_name (prop h a) = Some name →
   ∃ d, attribute fuel super_models depth h c name = Ok (None, Some d)
        ∧ d ∈ ownedAttribute (cls h c) ∧ prop_name (prop h d) = Some name).
Proof.
  split; [apply attribute_found_named|].
  intros Hdepth a Hin Hname. destruct depth as [|depth]; [lia|]. simpl.
  destruct (filter _ _) as [|d l] eqn:Hf.
  - exfalso.
    assert (a ∈ filter (λ a, prop_name (prop h a) = Some name)
                  (ownedAttribute (cls h c))) as Ha by by apply list_elem_of_filter.
    rewrite Hf in Ha. by apply elem_of_nil in Ha.
  - exists d.
    assert (d ∈ filter (λ a, prop_name (prop h a) = Some name)
                  (ownedAttribute (cls h c))) as Hd by (rewrite Hf; left).
    apply list_elem_of_filter in Hd as [Hn Hi]. done.
Qed.

Lemma attribute_finds_named_witness :
  ∃ d, attribute 9 [] 9 shadowing_attribute 1 "name" = Ok (None, Some d)
       ∧ d ∈ ownedAttribute (cls shadowing_attribute 1)
       ∧ prop_name (prop shadowing_attribute d) = Some "name".
Proof.
  apply (proj2 (attribute_finds_named 9 [] 9 shadowing_attribute 1 "name")) with (a := 1).
  - lia.
  - vm_compute. left.
  - vm_compute. reflexivity.
Defined.

Lemma attribute_local_reaches fuel depth h name :
  ∀ c et d, attribute fuel [] depth h c name = Ok (et, d) →
    et = None ∧
    match d with
    | Some d => ∃ o, rtc (base_rel h) c o ∧ d ∈ ownedAttribute (cls h o)
    | None => ∀ o a, rtc (base_rel h) c o → a ∈ ownedAttribute (cls h o) →
                     prop_name (prop h a) ≠ Some name
    end.
Proof.
  induction depth as [|depth IH]; intros c et d; simpl; [discriminate|].
  destruct (filter _ _) as [|a l] eqn:Hf.
  - destruct (attribute_in_bases _ _) as [[[et' a']|]|e] eqn:Hb; simpl;
      [| |discriminate].
    + intros [= <- <-].
      apply attribute_in_bases_Some in Hb as [base [Hin Hbase]].
      apply IH in Hbase as [-> [o [Hrtc Ho]]]. split; [done|].
      exists o. split; [|done]. by eapply rtc_l.
    + destruct (bases h c).2; [discriminate|].
      intros [= <- <-]. split; [done|]. intros o a Hrtc Hin Hname.
      apply rtc_inv in Hrtc as [<-|[b [Hcb Hbo]]].
      * assert (a ∈ filter (λ a, prop_name (prop h a) = Some name)
                      (ownedAttribute (cls h c))) as Ha by by apply list_elem_of_filter.
        rewrite Hf in Ha. by apply elem_of_nil in Ha.
      * destruct (attribute_in_bases_None _ _ Hb b Hcb) as [et' Hbase].
        apply IH in Hbase as [_ Hnone]. by eapply Hnone.
  - intros [= <- <-]. split; [done|]. exists c. split; [done|].
    assert (a ∈ filter (λ a, prop_name (prop h a) = Some name)
                  (ownedAttribute (cls h c))) as Ha by (rewrite Hf; left).
    by apply list_elem_of_filter in Ha as [_ ?].
Qed.

Lemma attribute_local_total fuel depth h c name (U : list nat) :
  c ∈ U → (∀ x b, x ∈ U → base_rel h x b → b ∈ U) →
  (∀ x, x ∈ U → ¬ tc (base_rel h) x x) → (∀ x, x ∈ U → (bases h x).2 = None) →
  length U ≤ depth →
  ∃ r, attribute fuel [] depth h c name = Ok r.
Proof.
  intros Hc Hclosed Hac Hdef Hlen.
  apply (descent_total (λ c, (bases h c).1) U
           (λ depth c, attribute fuel [] depth h c name)); [done|done| |done|done].
  intros n x Hin Hx. simpl. destruct (filter _ _); [|eauto].
  destruct (attribute_in_bases_total
              (λ base, attribute fuel [] n h base name) (bases h x).1 Hx)
    as [[[et a]|] ->]; simpl; [eauto|].
  rewrite (Hdef x Hin). eauto.
Qed.

(** Without super models [attribute] looks a feature up along the bases: it
    finds one exactly when the class, or a class above it over any number of
    bases, owns an attribute of the name looked for, and what it finds is
    such an attribute, with no element type.  It returns when there is a
    list of classes, no longer than the recursion may go deep, that holds the
    class, is closed under bases, holds no class that lies on a cycle of
    bases and no class for which [bases] raises. *)
Theorem attribute_inherited (fuel depth : nat) (h : Heap) (c : nat) (name : string) :
  (∀ et d, attribute fuel [] depth h c name = Ok (et, d) →
     et = None ∧
     match d with
     | Some d => prop_name (prop h d) = Some name
                 ∧ ∃ o, rtc (base_rel h) c o ∧ d ∈ ownedAttribute (cls h o)
     | None => ∀ o a, rtc (base_rel h) c o → a ∈ ownedAttribute (cls h o) →
                      prop_name (prop h a) ≠ Some name
     end) ∧
  (∀ U : list nat,
     c ∈ U → (∀ x b, x ∈ U → base_rel h x b → b ∈ U) →
     (∀ x, x ∈ U → ¬ tc (base_rel h) x x) → (∀ x, x ∈ U → (bases h x).2 = None) →
     length U ≤ depth →
     ∃ r, attribute fuel [] depth h c name = Ok r).
Proof.
  split; [|intros U; apply attribute_local_total].
  intros et d Hattr.
  destruct (attribute_local_reaches fuel depth h name c et d Hattr) as [-> Hd].
  split; [done|]. destruct d as [d|]; [|done]. split; [|done].
  by eapply attribute_found_named.
Qed.

Lemma attribute_inherited_witness :
  (@None ElementType = None ∧
   prop_name (prop shadowing_attribute 1) = Some "name"
   ∧ ∃ o, rtc (base_rel shadowing_attribute) 1 o
          ∧ 1 ∈ ownedAttribute (cls shadowing_attribute o)) ∧
  ∃ r, attribute 9 [] 2 shadowing_attribute 1 "other" = Ok r.
Proof.
  split.
  - apply (proj1 (attribute_inherited 9 2 shadowing_attribute 1 "name") None (Some 1)).
    vm_compute. reflexivity.
  - apply (proj2 (attribute_inherited 9 2 shadowing_attribute 1 "other") [1; 0]).
    + left.
    + intros x b Hx Hb. by apply (proj2 (shadowing_attribute_bases x Hx)).
    + apply decreasing_no_cycle.
      intros x b Hx Hb. by apply (proj2 (shadowing_attribute_bases x Hx)).
    + intros x Hx. by apply (proj1 (shadowing_attribute_bases x Hx)).
    + simpl. lia.
Defined.

Lemma in_super_model_factory_found fuel h ml l et c :
  in_super_model_factory fuel h ml l = Ok (Some (et, c)) →
  c ∈ l ∧ is_in_profile fuel h c = Ok false ∧ is_enumeration h (Some c) = false
  ∧ lookup_element ml (cls_name (cls h c)) = Some et.
Proof.
  induction l as [|x l IH]; [discriminate|]. cbn -[is_enumeration].
  destruct (is_in_profile fuel h x) as [p|e] eqn:Hp; cbn -[is_enumeration]; [|discriminate].
  destruct (p || is_enumeration h (Some x)) eqn:Hskip.
  - intros (Hin & ? & ? & ?)%IH. split; [by right|done].
  - apply orb_false_iff in Hskip as [-> Hen].
    destruct (lookup_element ml (cls_name (cls h x))) as [t|] eqn:Hl; [|discriminate].
    intros [= <- <-]. split; [left|done].
Qed.

Lemma in_super_model_factory_none fuel h ml l :
  in_super_model_factory fuel h ml l = Ok None →
  ∀ c, c ∈ l → is_in_profile fuel h c = Ok true ∨ is_enumeration h (Some c) = true.
Proof.
  induction l as [|x l IH]; intros H c Hin; [by apply elem_of_nil in Hin|].
  cbn -[is_enumeration] in H.
  destruct (is_in_profile fuel h x) as [p|e] eqn:Hp; cbn -[is_enumeration] in H;
    [|discriminate].
  destruct (p || is_enumeration h (Some x)) eqn:Hskip.
  - apply elem_of_cons in Hin as [->|Hin]; [|by apply IH].
    apply orb_true_iff in Hskip as [->|Hen]; [by left|by right].
  - destruct (lookup_element ml (cls_name (cls h x))); discriminate.
Qed.

(** What [in_super_model] returns is a class of a super model that bears the
    name looked for, is neither in a profile nor an enumeration, together with
    the element type that the modeling language of that super model has for
    the name; and when it returns nothing, every class of that name in
    every super model is in a profile or an enumeration. *)
Theorem in_super_model_found (fuel : nat)
    (super_models : list (ModelingLanguage * ElementFactory))
    (h : Heap) (name : option string) :
  (∀ et c, in_super_model fuel super_models h name = Ok (Some (et, c)) →
     ∃ ml factory, (ml, factory) ∈ super_models ∧ c ∈ select_Class factory
       ∧ cls_name (cls h c) = name
       ∧ is_in_profile fuel h c = Ok false ∧ is_enumeration h (Some c) = false
       ∧ lookup_element ml name = Some et) ∧
  (in_super_model fuel super_models h name = Ok None →
   ∀ ml factory c, (ml, factory) ∈ super_models → c ∈ select_Class factory →
     cls_name (cls h c) = name →
     is_in_profile fuel h c = Ok true ∨ is_enumeration h (Some c) = true).
Proof.
  unfold in_super_model. split.
  - intros et c. induction super_models as [|[ml factory] sm IH]; simpl; [discriminate|].
    destruct (in_super_model_factory _ _ _ _) as [[[et' c']|]|e] eqn:Hf; simpl;
      [| |discriminate].
    + intros [= -> ->].
      apply in_super_model_factory_found in Hf as (Hin & Hp & He & Hl).
      apply list_elem_of_filter in Hin as [Hname Hin].
      exists ml, factory. rewrite <- Hname.
      split; [left|done].
    + intros (ml' & f' & Hin & Hrest)%IH. exists ml', f'. split; [by right|done].
  - induction super_models as [|[ml factory] sm IH]; simpl; intros H ml' f' c Hin Hc Hname;
      [by apply elem_of_nil in Hin|].
    destruct (in_super_model_factory _ _ _ _) as [[[et' c']|]|e] eqn:Hf; simpl in H;
      [discriminate| |discriminate].
    apply elem_of_cons in Hin as [[= -> ->]|Hin]; [|by eapply IH].
    eapply in_super_model_factory_none; [done|]. by apply list_elem_of_filter.
Qed.

Lemma in_super_model_found_witness :
  ∃ ml factory, (ml, factory) ∈ core_super_model ∧ 2 ∈ select_Class factory
    ∧ cls_name (cls imported_base 2) = Some "Element"
    ∧ is_in_profile 9 imported_base 2 = Ok false
    ∧ is_enumeration imported_base (Some 2) = false
    ∧ lookup_element ml (Some "Element")
      = Some {| module_ := "gaphor.core.modeling"; name_ := "Element" |}.
Proof.
  apply (proj1 (in_super_model_found 9 core_super_model imported_base (Some "Element"))
           _ 2).
  vm_compute. reflexivity.
Defined.

Lemma register_imports_spec evs :
  ∀ imported out imported', register_imports evs imported = (out, imported') →
    filter (λ e, negb (is_import e)) out = filter (λ e, negb (is_import e)) evs ∧
    NoDup (filter (λ e, is_import e) out) ∧
    (∀ line, Line line ∈ out → is_import (Line line) →
             Line line ∈ evs ∧ line ∉ imported) ∧
    (∀ line, Line line ∈ evs → is_import (Line line) →
             line ∈ imported ∨ Line line ∈ out) ∧
    (∀ line, line ∈ imported' ↔
             line ∈ imported ∨ (Line line ∈ evs ∧ is_import (Line line))).
Proof.
  induction evs as [|e evs IH]; intros imported out imported'.
  - intros [= <- <-]. split; [done|]. split; [constructor|].
    split; [by intros line ?%elem_of_nil|]. split; [by intros line ?%elem_of_nil|].
    intros line. split; [by left|]. intros [?|[?%elem_of_nil _]]; done.
  - destruct e as [line|w]; simpl.
    + destruct (startswith line "from ") eqn:Hfrom.
      * destruct (register_imports evs ({[line]} ∪ imported)) as [r imp] eqn:Hr.
        intros [= <- <-].
        destruct (IH _ _ _ Hr) as (Hplain & Hnodup & Hnew & Hall & Himp).
        assert (is_import (Line line) = true) as Hline by done.
        split; [|split; [|split; [|split]]].
        -- rewrite filter_app, filter_cons, Hline. simpl.
           rewrite <- Hplain. case_decide; simpl; [done|].
           rewrite filter_cons, Hline. done.
        -- rewrite filter_app. case_decide as Hin; simpl; [done|].
           rewrite filter_cons, Hline, filter_nil. simpl.
           constructor; [|done].
           intros [_ Hr']%list_elem_of_filter.
           destruct (Hnew line Hr' ltac:(by rewrite Hline)) as [_ Hnot].
           apply Hnot. set_solver.
        -- intros l [Hl|Hl]%elem_of_app Himport.
           ++ case_decide as Hin; [by apply elem_of_nil in Hl|].
              apply list_elem_of_singleton in Hl as [= ->]. split; [left|done].
           ++ destruct (Hnew l Hl Himport) as [Hevs Hnot]. split; [by right|set_solver].
        -- intros l [[= ->]|Hl]%elem_of_cons Himport.
           ++ case_decide as Hin; [by left|]. right. apply elem_of_app. left. left.
           ++ destruct (Hall l Hl Himport) as [Hin|Hin].
              ** apply elem_of_union in Hin as [Hin%elem_of_singleton|Hin]; [|by left].
                 subst l. case_decide as Hin'; [by left|].
                 right. apply elem_of_app. left. left.
              ** right. apply elem_of_app. by right.
        -- intros l. rewrite Himp. split.
           ++ intros [[Hin%elem_of_singleton|Hin]%elem_of_union|[Hin Himport]].
              ** subst l. right. split; [left|by (simpl; rewrite Hfrom)].
              ** by left.
              ** right. split; [by right|done].
           ++ intros [Hin|[[[= ->]|Hin]%elem_of_cons Himport]].
              ** left. set_solver.
              ** left. set_solver.
              ** right. done.
      * destruct (register_imports evs imported) as [r imp] eqn:Hr.
        intros [= <- <-].
        destruct (IH _ _ _ Hr) as (Hplain & Hnodup & Hnew & Hall & Himp).
        assert (is_import (Line line) = false) as Hline by done.
        split; [|split; [|split; [|split]]].
        -- rewrite !filter_cons, Hline. simpl. by rewrite Hplain.
        -- rewrite filter_cons, Hline. done.
        -- intros l [[= ->]|Hl]%elem_of_cons Himport.
           ++ by (simpl in Himport; rewrite Hfrom in Himport).
           ++ destruct (Hnew l Hl Himport) as [Hevs Hnot]. split; [by right|done].
        -- intros l [[= ->]|Hl]%elem_of_cons Himport.
           ++ by (simpl in Himport; rewrite Hfrom in Himport).
           ++ destruct (Hall l Hl Himport) as [Hin|Hin]; [by left|]. right. by right.
        -- intros l. rewrite Himp. split.
           ++ intros [Hin|[Hin Himport]]; [by left|]. right. split; [by right|done].
           ++ intros [Hin|[[[= ->]|Hin]%elem_of_cons Himport]]; [by left| |by right].
              by (simpl in Himport; rewrite Hfrom in Himport).
    + destruct (register_imports evs imported) as [r imp] eqn:Hr.
      intros [= <- <-].
      destruct (IH _ _ _ Hr) as (Hplain & Hnodup & Hnew & Hall & Himp).
      split; [|split; [|split; [|split]]].
      * rewrite !filter_cons. simpl. by rewrite Hplain.
      * rewrite filter_cons. done.
      * intros l [[=]|Hl]%elem_of_cons Himport.
        destruct (Hnew l Hl Himport) as [Hevs Hnot]. split; [by right|done].
      * intros l [[=]|Hl]%elem_of_cons Himport.
        destruct (Hall l Hl Himport) as [Hin|Hin]; [by left|]. right. by right.
      * intros l. rewrite Himp. split.
        -- intros [Hin|[Hin Himport]]; [by left|]. right. split; [by right|done].
        -- intros [Hin|[[[=]|Hin]%elem_of_cons Himport]]; [by left|by right].
Qed.

(** What the last loop of [coder] does with the lines of [subsets]: every
    event that is no import line is passed on, in order; an import line is
    passed on at most once, and not at all when it was imported before; every
    import line is, after the loop, among the imported ones, which are the
    earlier ones and these. *)
Theorem register_imports_once (evs : list event) (imported : gset string) :
  let out := (register_imports evs imported).1 in
  let imported' := (register_imports evs imported).2 in
  filter (λ e, negb (is_import e)) out = filter (λ e, negb (is_import e)) evs ∧
  NoDup (filter (λ e, is_import e) out) ∧
  (∀ line, is_import (Line line) →
     (Line line ∈ out ↔ Line line ∈ evs ∧ line ∉ imported)) ∧
  (∀ line, line ∈ imported' ↔ line ∈ imported ∨ (Line line ∈ evs ∧ is_import (Line line))).
Proof.
  destruct (register_imports evs imported) as [out imported'] eqn:Hr. simpl.
  destruct (register_imports_spec _ _ _ _ Hr) as (Hplain & Hnodup & Hnew & Hall & Himp).
  split; [done|]. split; [done|]. split; [|done].
  intros line Himport. split; [intros Hin; by apply Hnew|].
  intros [Hin Hnot]. by destruct (Hall line Hin Himport).
Qed.
(** ** More on the normalization pass *)

Lemma cls_classes h h' c : classes h' = classes h → cls h' c = cls h c.
Proof. unfold cls. by intros ->. Qed.

Lemma is_simple_type_classes fuel h h' c :
  classes h' = classes h → is_simple_type fuel h' c = is_simple_type fuel h c.
Proof.
  intros Hc. revert c. induction fuel as [|fuel IH]; intros c; simpl; [done|].
  rewrite (cls_classes h h' c Hc). destruct (existsb _ _); [done|].
  induction (generalization (cls h c)) as [|g l IHl]; simpl; [done|].
  by rewrite IH, IHl.
Qed.

Lemma same_but_type_refl p : same_but_type p p.
Proof. by repeat split. Qed.

Lemma same_but_type_trans p q r :
  same_but_type p q → same_but_type q r → same_but_type p r.
Proof.
  unfold same_but_type. intros (?&?&?&?&?&?&?&?&?&?) (?&?&?&?&?&?&?&?&?&?).
  repeat split; congruence.
Qed.

Lemma resolve_alias_same_but_type h factory p :
  same_but_type p (resolve_alias h factory p).
Proof.
  unfold resolve_alias. repeat case_bool_decide; try by repeat split.
  destruct (filter _ _); by repeat split.
Qed.

Lemma flatten_simple_type_same_but_type fuel h p q :
  flatten_simple_type fuel h p = Ok q → same_but_type p q.
Proof.
  unfold flatten_simple_type. destruct (type p) as [t|].
  - destruct (is_simple_type fuel h t) as [[]|e]; simpl; [| |discriminate];
      intros [= <-]; by repeat split.
  - intros [= <-]. by repeat split.
Qed.

Section normalization_facts.

Variable fuel : nat.
Variable factory : ElementFactory.

Lemma resolve_property_step h a evs h' err :
  resolve_property fuel factory h a = (evs, h', err) →
  ∃ p, h' = set_prop h a p ∧ same_but_type (prop h a) p.
Proof.
  rewrite resolve_property_canonical. unfold canonical.
  destruct (flatten_simple_type _ _ _) as [p|e] eqn:Hp; intros [= <- <- <-].
  - exists p. split; [done|].
    eapply same_but_type_trans; [apply resolve_alias_same_but_type|].
    by eapply flatten_simple_type_same_but_type.
  - eexists. split; [done|]. apply resolve_alias_same_but_type.
Qed.

Lemma for_each_resolve_touches l :
  ∀ h evs h' err,
    for_each (resolve_property fuel factory) l h = (evs, h', err) →
    classes h' = classes h ∧ packages h' = packages h ∧
    (∀ a, a ∉ l → properties h' !! a = properties h !! a) ∧
    ∀ a, same_but_type (prop h a) (prop h' a).
Proof.
  induction l as [|x l IH]; intros h evs h' err H.
  - inversion H; subst. do 3 (split; [done|]). intros a. apply same_but_type_refl.
  - simpl in H.
    destruct (resolve_property fuel factory h x) as [[ev1 h1] e1] eqn:Hx.
    destruct (resolve_property_step _ _ _ _ _ Hx) as (p & -> & Hp).
    assert (∀ a, same_but_type (prop h a) (prop (set_prop h x p) a)) as Hstep.
    { intros a. destruct (decide (x = a)) as [->|Hne].
      - by rewrite prop_set_prop_eq.
      - rewrite prop_set_prop_ne by done. apply same_but_type_refl. }
    destruct e1 as [e1|].
    + inversion H; subst. do 2 (split; [done|]). split; [|done].
      intros a Ha. simpl. apply lookup_insert_ne. set_solver.
    + destruct (for_each _ l _) as [[ev2 h2] err2] eqn:Hl. inversion H; subst.
      destruct (IH _ _ _ _ Hl) as (Hc & Hk & Hframe & Hsame).
      split; [by rewrite Hc|]. split; [by rewrite Hk|]. split.
      * intros a Ha. rewrite Hframe by set_solver. simpl.
        apply lookup_insert_ne. set_solver.
      * intros a. eapply same_but_type_trans; [apply Hstep|apply Hsame].
Qed.

Lemma for_each_resolve_dom l :
  ∀ h evs h' err,
    for_each (resolve_property fuel factory) l h = (evs, h', err) →
    (∀ a, a ∈ l → is_Some (properties h !! a)) →
    dom (properties h') = dom (properties h).
Proof.
  induction l as [|x l IH]; intros h evs h' err H Hin.
  - by inversion H; subst.
  - simpl in H.
    destruct (resolve_property fuel factory h x) as [[ev1 h1] e1] eqn:Hx.
    destruct (resolve_property_step _ _ _ _ _ Hx) as (p & -> & Hp).
    assert (dom (properties (set_prop h x p)) = dom (properties h)) as Hstep.
    { simpl. rewrite dom_insert_L.
      assert (x ∈ dom (properties h)) by (apply elem_of_dom, Hin; left).
      set_solver. }
    destruct e1 as [e1|]; [by inversion H; subst|].
    destruct (for_each _ l _) as [[ev2 h2] err2] eqn:Hl. inversion H; subst.
    rewrite <- Hstep. eapply IH; [done|].
    intros a Ha. apply elem_of_dom. rewrite Hstep. apply elem_of_dom, Hin. by right.
Qed.

Lemma for_each_resolve_keeps (Q : Heap → nat → Prop) :
  (∀ h x p a, x ≠ a → Q h a → Q (set_prop h x p) a) →
  ∀ l h evs h' err a,
    for_each (resolve_property fuel factory) l h = (evs, h', err) →
    a ∉ l → Q h a → Q h' a.
Proof.
  intros Hframe. induction l as [|x l IH]; intros h evs h' err a H Ha HQ.
  - by inversion H; subst.
  - simpl in H.
    destruct (resolve_property fuel factory h x) as [[ev1 h1] e1] eqn:Hx.
    destruct (resolve_property_step _ _ _ _ _ Hx) as (p & -> & _).
    assert (Q (set_prop h x p) a) as HQ' by (apply Hframe; [set_solver|done]).
    destruct e1 as [e1|]; [by inversion H; subst|].
    destruct (for_each _ l _) as [[ev2 h2] err2] eqn:Hl. inversion H; subst.
    eapply IH; [done|set_solver|done].
Qed.

Lemma for_each_resolve_post (Q : Heap → nat → Prop) (h0 : Heap) :
  (∀ h x p a, x ≠ a → Q h a → Q (set_prop h x p) a) →
  (∀ h a p, classes h = classes h0 → canonical fuel factory h a = Ok p →
            unresolved p = false → Q (set_prop h a p) a) →
  ∀ l h evs h' a,
    classes h = classes h0 →
    for_each (resolve_property fuel factory) l h = (evs, h', None) →
    a ∈ l → Q h' a.
Proof.
  intros Hframe Hstep. induction l as [|x l IH]; intros h evs h' a Hc H Ha;
    [by apply elem_of_nil in Ha|].
  simpl in H.
  destruct (resolve_property fuel factory h x) as [[ev1 h1] [e1|]] eqn:Hx;
    [discriminate|].
  destruct (for_each _ l h1) as [[ev2 h2] err2] eqn:Hl. inversion H; subst.
  destruct (decide (a ∈ l)) as [Hin|Hnin].
  - eapply IH; [|done|done].
    destruct (resolve_property_step _ _ _ _ _ Hx) as (p & -> & _). done.
  - apply elem_of_cons in Ha as [->|Ha]; [|done].
    eapply for_each_resolve_keeps; [done|done|done|].
    rewrite resolve_property_canonical in Hx.
    destruct (canonical fuel factory h x) as [p|e] eqn:Hp; [|discriminate].
    destruct (unresolved p) eqn:Hu; [discriminate|].
    inversion Hx; subst. by apply Hstep.
Qed.

Lemma for_each_resolve_canonical l :
  NoDup l →
  ∀ h evs h' a,
    for_each (resolve_property fuel factory) l h = (evs, h', None) →
    a ∈ l → canonical fuel factory h a = Ok (prop h' a).
Proof.
  induction 1 as [|x l Hx Hnd IH]; intros h evs h' a H Ha;
    [by apply elem_of_nil in Ha|].
  simpl in H.
  destruct (resolve_property fuel factory h x) as [[ev1 h1] [e1|]] eqn:Hr;
    [discriminate|].
  destruct (for_each _ l h1) as [[ev2 h2] err2] eqn:Hl. inversion H; subst.
  apply elem_of_cons in Ha as [->|Ha].
  - rewrite (for_each_resolve_frame _ _ _ _ _ _ _ _ Hl Hx).
    rewrite resolve_property_canonical in Hr.
    destruct (canonical fuel factory h x) as [p|e] eqn:Hp; [|discriminate].
    inversion Hr; subst. by rewrite prop_set_prop_eq.
  - assert (x ≠ a) as Hne by (intros ->; done).
    destruct (resolve_property_frame _ _ _ _ _ _ _ _ Hr Hne) as [_ <-].
    by eapply IH.
Qed.

End normalization_facts.

(** The normalization pass writes nothing but the type, the type value and
    the aggregation of the properties that the factory selects, also in a
    run that ends with an error: classes and packages stay as they are, a
    property that is not selected stays as it is, and when the properties
    that the factory selects are all in the model, no property is added. *)
Theorem resolve_attribute_type_values_frame (fuel : nat) (h : Heap)
    (factory : ElementFactory) :
  let h' := (resolve_attribute_type_values fuel h factory).1 in
  classes h' = classes h ∧ packages h' = packages h ∧
  (∀ a, a ∉ select_Property factory → properties h' !! a = properties h !! a) ∧
  (∀ a, same_but_type (prop h a) (prop h' a)) ∧
  ((∀ a, a ∈ select_Property factory → is_Some (properties h !! a)) →
   dom (properties h') = dom (properties h)).
Proof.
  unfold resolve_attribute_type_values.
  destruct (for_each _ _ h) as [[evs h'] err] eqn:Hf. simpl.
  destruct (for_each_resolve_touches _ _ _ _ _ _ _ Hf) as (Hc & Hk & Hframe & Hsame).
  do 4 (split; [done|]). by eapply for_each_resolve_dom.
Qed.

Lemma resolve_attribute_type_values_frame_witness :
  dom (properties (resolve_attribute_type_values 9 class_type_value box_factory).1)
  = dom (properties class_type_value).
Proof.
  apply (resolve_attribute_type_values_frame 9 class_type_value box_factory).
  intros a [->|Ha%elem_of_nil]%elem_of_cons; [|done].
  vm_compute. eauto.
Defined.

Ltac not_listed :=
  let H := fresh in
  intros H; repeat (apply elem_of_cons in H as [H|H]; [discriminate H|]);
  by apply elem_of_nil in H.

Lemma filter_none {A} (P : A → Prop) `{∀ x, Decision (P x)} (l : list A) :
  (∀ x, x ∈ l → ¬ P x) → filter P l = [].
Proof.
  induction l as [|x l IH]; intros Hl; [done|].
  rewrite filter_cons. case_decide as Hx; [by destruct (Hl x); [left|]|].
  apply IH. intros y Hy. apply Hl. by right.
Qed.

Lemma resolve_alias_typeValue h factory p :
  typeValue (resolve_alias h factory p) ∉ primitive_aliases.
Proof.
  unfold resolve_alias, primitive_aliases.
  repeat case_bool_decide; simpl; try not_listed; try set_solver.
  destruct (filter _ _); simpl; [set_solver|not_listed].
Qed.

Lemma flatten_simple_type_normal fuel h p q :
  flatten_simple_type fuel h p = Ok q →
  typeValue p ∉ primitive_aliases →
  typeValue q ∉ primitive_aliases ∧
  ∀ t, type q = Some t → is_simple_type fuel h t = Ok false.
Proof.
  unfold flatten_simple_type. destruct (type p) as [t|] eqn:Ht.
  - destruct (is_simple_type fuel h t) as [[]|e] eqn:Hs; simpl; [| |discriminate];
      intros [= <-] Hp; simpl.
    + split; [unfold primitive_aliases; not_listed|done].
    + split; [done|]. rewrite Ht. by intros t' [= <-].
  - intros [= <-] Hp. split; [done|]. by rewrite Ht.
Qed.

Lemma canonicalize_classes fuel factory h h' p :
  classes h' = classes h →
  canonicalize fuel factory h' p = canonicalize fuel factory h p.
Proof.
  intros Hc. unfold canonicalize, flatten_simple_type.
  assert (resolve_alias h' factory p = resolve_alias h factory p) as ->.
  { unfold resolve_alias, cls. by rewrite Hc. }
  destruct (type _); [|done]. by rewrite (is_simple_type_classes _ h h').
Qed.

Lemma canonical_canonicalize fuel factory h a :
  canonical fuel factory h a = canonicalize fuel factory h (prop h a).
Proof. done. Qed.

(** After a normalization pass that ends without error, no selected property
    bears one of the aliases [String], [object], [Boolean] and [Integer] as
    its type value, and the type of a selected property, if it has one, is
    no simple type. *)
Theorem resolve_attribute_type_values_normal (fuel : nat) (h : Heap)
    (factory : ElementFactory) (h' : Heap) (a : nat) :
  resolve_attribute_type_values fuel h factory = (h', None) →
  a ∈ select_Property factory →
  typeValue (prop h' a) ∉ primitive_aliases ∧
  ∀ t, type (prop h' a) = Some t → is_simple_type fuel h' t = Ok false.
Proof.
  unfold resolve_attribute_type_values.
  destruct (for_each _ _ h) as [[evs h1] err] eqn:Hf. intros [= -> ->] Ha.
  destruct (for_each_resolve_touches _ _ _ _ _ _ _ Hf) as (Hc & _).
  pose (Q := λ (h1 : Heap) (a : nat),
          typeValue (prop h1 a) ∉ primitive_aliases ∧
          ∀ t, type (prop h1 a) = Some t → is_simple_type fuel h t = Ok false).
  assert (Q h' a) as [Hv Ht].
  { apply (for_each_resolve_post fuel factory Q h) with (3 := eq_refl) (4 := Hf);
      [| |done].
    - intros h1 x p a' Hne HQ. unfold Q. by rewrite prop_set_prop_ne.
    - intros h1 a' p Hc1 Hp _. unfold Q. rewrite prop_set_prop_eq.
      rewrite canonical_canonicalize, (canonicalize_classes _ _ h h1) in Hp by done.
      eapply flatten_simple_type_normal; [done|]. apply resolve_alias_typeValue. }
  split; [done|]. intros t Hty. rewrite (is_simple_type_classes _ h h') by done.
  by apply Ht.
Qed.

Lemma resolve_attribute_type_values_normal_witness :
  typeValue (prop (resolve_attribute_type_values 9 alias_type_value widget_factory).1 0)
    ∉ primitive_aliases ∧
  ∀ t, type (prop (resolve_attribute_type_values 9 alias_type_value widget_factory).1 0)
       = Some t →
       is_simple_type 9 (resolve_attribute_type_values 9 alias_type_value widget_factory).1 t
       = Ok false.
Proof.
  apply (resolve_attribute_type_values_normal 9 alias_type_value widget_factory).
  - vm_compute. reflexivity.
  - vm_compute. left.
Defined.

Lemma resolve_alias_class_name h factory p n c rest :
  typeValue p = Some n → n ∉ primitive_names →
  filter (λ e, cls_name (cls h e) = Some n) (select_Class factory) = c :: rest →
  resolve_alias h factory p
  = with_aggregation (with_typeValue (with_type p (Some c)) None) "composite".
Proof.
  intros Hv Hn Hf. unfold resolve_alias. rewrite Hv, Hf.
  unfold primitive_names in Hn.
  repeat case_bool_decide; try done; exfalso; apply Hn.
  all: repeat match goal with
         | H : Some _ ∈ _ :: _ |- _ =>
             apply elem_of_cons in H as [H|H]; [injection H as ->; set_solver|]
         | H : Some _ ∈ [] |- _ => by apply elem_of_nil in H
         | H : Some _ = Some _ |- _ => injection H as ->; set_solver
         end.
Qed.

(** A type value that names a class of the factory becomes a reference to that
    class: in a normalization pass that ends without error, over properties
    that are selected once each, a selected property whose type value is the
    name of a class, and none of the names of the primitive types, ends with
    the aggregation [composite] and with the first class of that name as its
    type and no type value; unless that class is a simple type, in which case
    it ends with the type value [str] and no type. *)
Theorem resolve_attribute_type_values_class_reference (fuel : nat) (h : Heap)
    (factory : ElementFactory) (h' : Heap) (a : nat) (n : string) (c : nat)
    (rest : list nat) :
  resolve_attribute_type_values fuel h factory = (h', None) →
  NoDup (select_Property factory) →
  a ∈ select_Property factory →
  typeValue (prop h a) = Some n →
  n ∉ primitive_names →
  filter (λ e, cls_name (cls h e) = Some n) (select_Class factory) = c :: rest →
  aggregation (prop h' a) = "composite" ∧
  ((is_simple_type fuel h c = Ok false
    ∧ type (prop h' a) = Some c ∧ typeValue (prop h' a) = None) ∨
   (is_simple_type fuel h c = Ok true
    ∧ type (prop h' a) = None ∧ typeValue (prop h' a) = Some "str")).
Proof.
  unfold resolve_attribute_type_values.
  destruct (for_each _ _ h) as [[evs h1] err] eqn:Hf.
  intros [= -> ->] Hnd Ha Hv Hn Hc.
  pose proof (for_each_resolve_canonical fuel factory _ Hnd _ _ _ _ Hf Ha) as Hcan.
  unfold canonical in Hcan.
  rewrite (resolve_alias_class_name _ _ _ _ _ _ Hv Hn Hc) in Hcan.
  unfold flatten_simple_type in Hcan. simpl in Hcan.
  destruct (is_simple_type fuel h c) as [[]|e]; simpl in Hcan; [| |discriminate];
    injection Hcan as <-; simpl; split; try done.
  - by right.
  - by left.
Qed.

Lemma resolve_attribute_type_values_class_reference_witness :
  aggregation (prop (resolve_attribute_type_values 9 class_type_value box_factory).1 0)
  = "composite" ∧
  ((is_simple_type 9 class_type_value 0 = Ok false
    ∧ type (prop (resolve_attribute_type_values 9 class_type_value box_factory).1 0)
      = Some 0
    ∧ typeValue (prop (resolve_attribute_type_values 9 class_type_value box_factory).1 0)
      = None) ∨
   (is_simple_type 9 class_type_value 0 = Ok true
    ∧ type (prop (resolve_attribute_type_values 9 class_type_value box_factory).1 0)
      = None
    ∧ typeValue (prop (resolve_attribute_type_values 9 class_type_value box_factory).1 0)
      = Some "str")).
Proof.
  apply (resolve_attribute_type_values_class_reference 9 class_type_value box_factory
           _ 0 "Widget" 0 []).
  - vm_compute. reflexivity.
  - vm_compute. repeat constructor. intros H. by apply elem_of_nil in H.
  - vm_compute. left.
  - vm_compute. reflexivity.
  - unfold primitive_names. intros H.
    repeat (apply elem_of_cons in H as [H|H]; [discriminate H|]).
    by apply elem_of_nil in H.
  - vm_compute. reflexivity.
Defined.

Ltac listed := repeat (first [by left | right]).

Lemma resolve_alias_fix h factory q :
  typeValue q ∈ [Some "str"; Some "bool"; Some "int"; Some "UnlimitedNatural"]
  ∨ (typeValue q ∉ (Some <$> primitive_names)
     ∧ filter (λ e, cls_name (cls h e) = typeValue q) (select_Class factory) = []) →
  resolve_alias h factory q = q.
Proof.
  intros [H|[H Hf]].
  - destruct q as [nm ow ty tv dr ag dv lv uv op cl asn st]. simpl in H.
    repeat (apply elem_of_cons in H as [->|H]; [reflexivity|]).
    by apply elem_of_nil in H.
  - unfold resolve_alias. rewrite Hf.
    unfold primitive_names in H. simpl in H.
    repeat case_bool_decide; try done; exfalso; apply H; set_solver.
Qed.

Lemma flatten_simple_type_fix fuel h q :
  (∀ t, type q = Some t → is_simple_type fuel h t = Ok false) →
  flatten_simple_type fuel h q = Ok q.
Proof.
  intros Hq. unfold flatten_simple_type. destruct (type q) as [t|]; [|done].
  by rewrite (Hq t eq_refl).
Qed.

Lemma resolve_alias_shape h factory p :
  (∀ c, c ∈ select_Class factory → cls_name (cls h c) ≠ None) →
  typeValue (resolve_alias h factory p)
    ∈ [Some "str"; Some "bool"; Some "int"; Some "UnlimitedNatural"]
  ∨ (typeValue (resolve_alias h factory p) ∉ (Some <$> primitive_names)
     ∧ filter (λ e, cls_name (cls h e) = typeValue (resolve_alias h factory p))
         (select_Class factory) = []).
Proof.
  intros Hnamed. unfold resolve_alias.
  case_bool_decide as H1; [left; simpl; listed|].
  case_bool_decide as H2; [left; simpl; listed|].
  case_bool_decide as H3; [left; simpl; listed|].
  case_bool_decide as H4; [left; rewrite H4; listed|].
  destruct (filter _ _) as [|c l] eqn:Hf; simpl; right.
  - split; [|done]. unfold primitive_names. simpl. intros Hin.
    repeat (apply elem_of_cons in Hin as [Hin|Hin];
            [first [ by apply H1; rewrite Hin; listed
                   | by apply H2; rewrite Hin; listed
                   | by apply H3; rewrite Hin; listed
                   | by apply H4 ]|]).
    by apply elem_of_nil in Hin.
  - split; [unfold primitive_names; simpl; not_listed|].
    apply filter_none. intros x Hx. by apply Hnamed.
Qed.

Lemma canonicalize_idempotent fuel factory h p q :
  (∀ c, c ∈ select_Class factory → cls_name (cls h c) ≠ None) →
  canonicalize fuel factory h p = Ok q →
  canonicalize fuel factory h q = Ok q.
Proof.
  intros Hnamed Hq. unfold canonicalize in *.
  pose proof (resolve_alias_shape h factory p Hnamed) as Hshape.
  assert ((typeValue q ∈ [Some "str"; Some "bool"; Some "int"; Some "UnlimitedNatural"]
           ∨ (typeValue q ∉ (Some <$> primitive_names)
              ∧ filter (λ e, cls_name (cls h e) = typeValue q) (select_Class factory) = []))
          ∧ ∀ t, type q = Some t → is_simple_type fuel h t = Ok false) as [Hv Ht].
  { revert Hq Hshape. generalize (resolve_alias h factory p). intros p1.
    unfold flatten_simple_type. destruct (type p1) as [t|] eqn:Hty.
    - destruct (is_simple_type fuel h t) as [[]|e] eqn:Hs; simpl; [| |discriminate];
        intros [= <-] Hshape; simpl.
      + split; [left; left|done].
      + split; [done|]. rewrite Hty. by intros t' [= <-].
    - intros [= <-] Hshape. split; [done|]. by rewrite Hty. }
  rewrite (resolve_alias_fix _ _ _ Hv). by apply flatten_simple_type_fix.
Qed.

Lemma set_prop_id h a p : properties h !! a = Some p → set_prop h a p = h.
Proof.
  intros Hp. destruct h as [cs ps ks]. unfold set_prop. simpl in *.
  by rewrite insert_id.
Qed.

Lemma for_each_unchanged {A S} (body : S → A → list event * S * option error) l st :
  (∀ x, x ∈ l → body st x = ([], st, None)) → for_each body l st = ([], st, None).
Proof.
  induction l as [|x l IH]; intros Hl; [done|].
  simpl. rewrite (Hl x) by left. rewrite IH; [done|].
  intros y Hy. apply Hl. by right.
Qed.

(** When every class of the factory has a name, a normalization pass that
    ends without error leaves a model on which the pass changes nothing and
    ends without error again. *)
Theorem resolve_attribute_type_values_idempotent (fuel : nat) (h : Heap)
    (factory : ElementFactory) (h' : Heap) :
  resolve_attribute_type_values fuel h factory = (h', None) →
  (∀ c, c ∈ select_Class factory → cls_name (cls h c) ≠ None) →
  resolve_attribute_type_values fuel h' factory = (h', None).
Proof.
  unfold resolve_attribute_type_values.
  destruct (for_each _ _ h) as [[evs h1] err] eqn:Hf. intros [= -> ->] Hnamed.
  destruct (for_each_resolve_touches _ _ _ _ _ _ _ Hf) as (Hc & _).
  pose (Q := λ (h1 : Heap) (a : nat),
          ∃ p, properties h1 !! a = Some p
               ∧ canonicalize fuel factory h p = Ok p ∧ unresolved p = false).
  assert (∀ a, a ∈ select_Property factory → Q h' a) as HQ.
  { intros a Ha.
    apply (for_each_resolve_post fuel factory Q h) with (3 := eq_refl) (4 := Hf);
      [| |done].
    - intros h1 x p a' Hne (q & Hq & Hrest). exists q. split; [|done].
      simpl. by rewrite lookup_insert_ne.
    - intros h1 a' p Hc1 Hp Hu. exists p. split; [simpl; apply lookup_insert_eq|].
      split; [|done].
      rewrite canonical_canonicalize, (canonicalize_classes _ _ h h1) in Hp by done.
      by eapply canonicalize_idempotent. }
  rewrite for_each_unchanged; [done|].
  intros a Ha. destruct (HQ a Ha) as (p & Hp & Hcan & Hu).
  rewrite resolve_property_canonical, canonical_canonicalize.
  assert (prop h' a = p) as ->.
  { unfold prop. by rewrite lookup_total_alt, Hp. }
  rewrite (canonicalize_classes _ _ h h') by done.
  rewrite Hcan, Hu. by rewrite set_prop_id.
Qed.

Lemma resolve_attribute_type_values_idempotent_witness :
  resolve_attribute_type_values 9
    (resolve_attribute_type_values 9 class_type_value box_factory).1 box_factory
  = ((resolve_attribute_type_values 9 class_type_value box_factory).1, None).
Proof.
  apply (resolve_attribute_type_values_idempotent 9 class_type_value box_factory).
  - vm_compute. reflexivity.
  - intros c Hc.
    repeat (apply elem_of_cons in Hc as [->|Hc]; [vm_compute; discriminate|]).
    by apply elem_of_nil in Hc.
Defined.

Lemma canonical_select_Class fuel f1 f2 h a :
  select_Class f1 = select_Class f2 →
  canonical fuel f1 h a = canonical fuel f2 h a.
Proof. intros Hsel. unfold canonical, resolve_alias. by rewrite Hsel. Qed.

(** The order in which the factory selects the properties is of no
    consequence for the normalization pass: two passes over the same
    properties, selected once each, that both end without error leave every
    property the same. *)
Theorem resolve_attribute_type_values_order_independent (fuel : nat) (h : Heap)
    (f1 f2 : ElementFactory) (h1 h2 : Heap) :
  select_Class f1 = select_Class f2 →
  select_Property f1 ≡ₚ select_Property f2 →
  NoDup (select_Property f1) →
  resolve_attribute_type_values fuel h f1 = (h1, None) →
  resolve_attribute_type_values fuel h f2 = (h2, None) →
  ∀ a, prop h1 a = prop h2 a.
Proof.
  unfold resolve_attribute_type_values. intros Hsel Hperm Hnd.
  destruct (for_each _ _ h) as [[evs1 h1'] err1] eqn:Hf1.
  destruct (for_each (resolve_property fuel f2) _ h) as [[evs2 h2'] err2] eqn:Hf2.
  intros [= -> ->] [= -> ->] a.
  assert (NoDup (select_Property f2)) as Hnd2 by by rewrite <- Hperm.
  destruct (decide (a ∈ select_Property f1)) as [Ha|Ha].
  - assert (a ∈ select_Property f2) as Ha2 by by rewrite <- Hperm.
    pose proof (for_each_resolve_canonical fuel f1 _ Hnd _ _ _ _ Hf1 Ha) as H1.
    pose proof (for_each_resolve_canonical fuel f2 _ Hnd2 _ _ _ _ Hf2 Ha2) as H2.
    rewrite (canonical_select_Class _ f1 f2) in H1 by done. congruence.
  - assert (a ∉ select_Property f2) as Ha2 by by rewrite <- Hperm.
    rewrite (for_each_resolve_frame fuel f1 _ _ _ _ _ _ Hf1 Ha).
    by rewrite (for_each_resolve_frame fuel f2 _ _ _ _ _ _ Hf2 Ha2).
Qed.

Lemma resolve_attribute_type_values_order_independent_witness :
  prop (resolve_attribute_type_values 9 two_type_values forward_factory).1 0
  = prop (resolve_attribute_type_values 9 two_type_values backward_factory).1 0 ∧
  prop (resolve_attribute_type_values 9 two_type_values forward_factory).1 1
  = prop (resolve_attribute_type_values 9 two_type_values backward_factory).1 1.
Proof.
  assert (∀ a, prop (resolve_attribute_type_values 9 two_type_values forward_factory).1 a
               = prop (resolve_attribute_type_values 9 two_type_values
                         backward_factory).1 a) as H.
  { apply (resolve_attribute_type_values_order_independent 9 two_type_values
             forward_factory backward_factory).
    - reflexivity.
    - apply perm_swap.
    - vm_compute. repeat constructor; set_solver.
    - vm_compute. reflexivity.
    - vm_compute. reflexivity. }
  split; apply H.
Defined.
(** ** More on the coder *)

(** A model in which the bases of a candidate class, or of a class reached
    from one along bases, run in a cycle gives no output at all: the coder
    ends before the header is written and leaves the model as it was.  It
    ends in a [RecursionError], or in the [AttributeError] that [bases]
    raises for an association end named [baseClass] that is no end of an
    extension; in a model without such ends it ends in a
    [RecursionError]. *)
Theorem coder_cycle_no_output (R : Recipes) (fuel : nat) (overrides : option Overrides)
    (super_models : list (ModelingLanguage * ElementFactory)) (h : Heap)
    (model : ElementFactory) (c x : nat) :
  c ∈ (select_if (is_candidate fuel h) (select_Class model)).1 →
  rtc (base_rel h) c x → tc (base_rel h) x x →
  ∃ e, coder R fuel overrides super_models h model = ([], h, Some e) ∧
       (e = RecursionError ∨ e = AttributeError) ∧
       (bases_defined h → e = RecursionError).
Proof.
  intros Hc Hcx Hxx. unfold coder.
  destruct (order_classes_cycle fuel h _ c x Hc Hcx Hxx) as (e & -> & He).
  by exists e.
Qed.

Lemma cyclic_extension_bases_defined : bases_defined cyclic_extension.
Proof.
  intros c. destruct c as [|[|c]].
  - vm_compute. reflexivity.
  - vm_compute. reflexivity.
  - apply no_attributes_bases_defined.
    unfold cls, cyclic_extension, heap_of. simpl.
    rewrite lookup_total_alt, !lookup_insert_ne by lia. by rewrite lookup_empty.
Qed.

Lemma coder_cycle_no_output_witness :
  coder sample_recipes 50 None [] cyclic_extension pair_model
  = ([], cyclic_extension, Some RecursionError).
Proof.
  destruct (coder_cycle_no_output sample_recipes 50 None [] cyclic_extension
              pair_model 0 0) as (e & He & _ & Hrec).
  - vm_compute. left.
  - apply rtc_refl.
  - eapply tc_l; [|apply tc_once].
    + unfold base_rel. instantiate (1 := 1). vm_compute. left.
    + unfold base_rel. vm_compute. left.
  - rewrite He. do 2 f_equal. apply Hrec, cyclic_extension_bases_defined.
Defined.

Lemma first_pass_unchanged R fuel overrides classes l :
  ∀ h imported ev h' imported' err,
    for_each (declare_class R fuel overrides [] classes) l (h, imported)
    = (ev, (h', imported'), err) →
    h' = h.
Proof.
  induction l as [|x l IH]; intros h imported ev h' imported' err H.
  - by inversion H.
  - rewrite for_each_cons in H.
    destruct (declare_class R fuel overrides [] classes (h, imported) x)
      as [[ev1 [h1 imported1]] err1] eqn:Hx.
    apply declare_class_heap in Hx as [->|(_ & _ & _ & _ & et & s & Hs & _)];
      [|discriminate].
    destruct err1 as [e1|]; [by inversion H|].
    destruct (for_each _ l _) as [[ev2 [h2 imported2]] err2] eqn:Hl.
    inversion H; subst. by eapply IH.
Qed.

(** Without super models the coder only reads the model: whatever the run
    emits and however it ends, the model it leaves is the one it was given. *)
Theorem coder_without_super_models_reads_only (R : Recipes) (fuel : nat)
    (overrides : option Overrides) (h : Heap) (model : ElementFactory) :
  (coder R fuel overrides [] h model).1.2 = h.
Proof.
  destruct (coder R fuel overrides [] h model) as [[evs h'] err] eqn:Hc. simpl.
  apply coder_first_pass in Hc
    as [(_ & -> & _)|(candidates & classes & ev1 & imported & err1 & pre & post
                      & _ & _ & Hf & _)]; [done|].
  by eapply first_pass_unchanged.
Qed.

(** ** Sorting by name *)

Lemma insert_by_Sorted {A} (key : A → string) x l :
  Sorted (λ a b, String.leb (key a) (key b) = true) l →
  Sorted (λ a b, String.leb (key a) (key b) = true) (insert_by key x l).
Proof.
  induction l as [|y l IH]; intros Hl; simpl.
  - by repeat constructor.
  - destruct (String.leb (key x) (key y)) eqn:Hxy.
    + constructor; [done|]. by constructor.
    + apply Sorted_inv in Hl as [Hl Hhd]. constructor; [by apply IH|].
      assert (String.leb (key y) (key x) = true) as Hyx.
      { destruct (String.leb_total (key x) (key y)); congruence. }
      destruct l as [|z l]; simpl; [by constructor|].
      destruct (String.leb (key x) (key z)); constructor; [done|].
      by apply HdRel_inv in Hhd.
Qed.

Lemma sorted_Sorted {A} (key : A → string) (l : list A) :
  Sorted (λ a b, String.leb (key a) (key b) = true) (sorted key l).
Proof.
  unfold sorted. induction l as [|x l IH]; simpl; [constructor|].
  by apply insert_by_Sorted.
Qed.

Lemma Sorted_fmap_key {A} (key : A → string) (l : list A) :
  Sorted (λ a b, String.leb (key a) (key b) = true) l →
  Sorted (λ x y, String.leb x y = true) (key <$> l).
Proof.
  induction 1 as [|x l Hl IH Hhd]; simpl; [constructor|].
  constructor; [done|]. destruct Hhd; simpl; by constructor.
Qed.

(** The bases in a class declaration stand in ascending order of their names:
    what [class_declaration] returns is the class name followed, in
    parentheses, by the names of the bases of the class, each base once per
    occurrence, sorted; and when a base has no name it raises a
    [TypeError].  All of this is for a class whose bases are read without an
    exception: an exception that [bases] raises is what [class_declaration]
    raises, before any name is looked at. *)
Theorem class_declaration_sorted_bases (h : Heap) (c : nat) :
  (∀ s, class_declaration h c = Ok s →
     (bases h c).2 = None ∧
     ∃ names,
       s = "class " +:+ fmt (cls_name (cls h c)) +:+ "(" +:+ join ", " names +:+ "):"
       ∧ names ≡ₚ (λ b, fmt (cls_name (cls h b))) <$> (bases h c).1
       ∧ Sorted (λ x y, String.leb x y = true) names) ∧
  ((bases h c).2 = None → (∃ b, b ∈ (bases h c).1 ∧ cls_name (cls h b) = None) →
   class_declaration h c = Raise TypeError) ∧
  (∀ e, (bases h c).2 = Some e → class_declaration h c = Raise e).
Proof.
  unfold class_declaration. split; [|split].
  - intros s. destruct (bases h c).2; [discriminate|].
    destruct (forallb _ _) eqn:Hall; [|discriminate]. intros [= <-].
    split; [done|]. eexists. split; [reflexivity|]. split.
    + apply fmap_Permutation, sorted_Permutation.
    + rewrite forallb_forall in Hall.
      assert ((λ b, fmt (cls_name (cls h b)))
                <$> sorted (λ b, default "" (cls_name (cls h b))) (bases h c).1
              = (λ b, default "" (cls_name (cls h b)))
                <$> sorted (λ b, default "" (cls_name (cls h b))) (bases h c).1) as ->.
      { apply Forall_fmap_ext, Forall_forall. intros b Hb%elem_of_sorted.
        apply list_elem_of_In, Hall, bool_decide_eq_true in Hb as [n Hn].
        by rewrite Hn. }
      apply Sorted_fmap_key, sorted_Sorted.
  - intros -> (b & Hb & Hname).
    destruct (forallb _ _) eqn:Hall; [|done]. exfalso.
    rewrite forallb_forall in Hall.
    apply list_elem_of_In, Hall, bool_decide_eq_true in Hb as [n Hn]. congruence.
  - by intros e ->.
Qed.

Lemma class_declaration_sorted_bases_witness :
  ((bases diamond 3).2 = None ∧
   ∃ names,
     "class D(B, C):"
     = "class " +:+ fmt (cls_name (cls diamond 3)) +:+ "(" +:+ join ", " names +:+ "):"
     ∧ names ≡ₚ (λ b, fmt (cls_name (cls diamond b))) <$> (bases diamond 3).1
     ∧ Sorted (λ x y, String.leb x y = true) names) ∧
  class_declaration unnamed_base 1 = Raise TypeError ∧
  class_declaration misnamed_association 1 = Raise AttributeError.
Proof.
  split; [|split].
  - apply (proj1 (class_declaration_sorted_bases diamond 3)).
    vm_compute. reflexivity.
  - apply (proj1 (proj2 (class_declaration_sorted_bases unnamed_base 1))).
    + vm_compute. reflexivity.
    + exists 0. split; [vm_compute; left|vm_compute; reflexivity].
  - apply (proj2 (proj2 (class_declaration_sorted_bases misnamed_association 1))).
    vm_compute. reflexivity.
Defined.

(** ** How [associations] and [variables] end *)

Lemma not_an_association_error fuel h a e :
  not_an_association fuel h a = Raise e → e = RecursionError.
Proof.
  unfold not_an_association. destruct (type a) as [t|]; [|discriminate].
  destruct (is_simple_type fuel h t) as [b|e'] eqn:Hs; simpl; [discriminate|].
  intros [= <-]. by eapply is_simple_type_error.
Qed.

Lemma not_an_association_typed fuel h a :
  not_an_association fuel h a = Ok false → is_Some (type a).
Proof.
  unfold not_an_association. destruct (type a) as [t|]; [eauto|discriminate].
Qed.

Lemma gen_seq_yield_error s g : (gen_seq (gen_yield s) g).2 = g.2.
Proof. done. Qed.

Lemma associations_loop_error R fuel overrides h c attrs :
  ∀ redefinitions e,
    (associations_loop R fuel overrides h c attrs redefinitions).2 = Some e →
    e = RecursionError ∨
    ∃ a, a ∈ attrs ∧ str_truthy (prop_name a) = false ∧ is_Some (type a)
         ∧ isDerived a = false ∧ truthy (redefines a) = false
         ∧ ∃ msg, e = ValueError msg.
Proof.
  induction attrs as [|a attrs IH]; intros redefinitions e; [discriminate|].
  cbn [associations_loop].
  assert (∀ r, (associations_loop R fuel overrides h c attrs r).2 = Some e →
               e = RecursionError ∨
               ∃ a', a' ∈ a :: attrs ∧ str_truthy (prop_name a') = false
                     ∧ is_Some (type a') ∧ isDerived a' = false
                     ∧ truthy (redefines a') = false ∧ ∃ msg, e = ValueError msg) as Hrest.
  { intros r [->|(a' & Hin & Hrest)]%IH; [by left|].
    right. exists a'. split; [by right|done]. }
  destruct (override_for overrides _) as [o|].
  { rewrite ?gen_seq_yield_error. apply Hrest. }
  destruct (not_an_association fuel h a) as [[]|e'] eqn:Hn.
  - apply Hrest.
  - destruct (truthy (redefines a)) eqn:Hr; [apply Hrest|].
    destruct (isDerived a) eqn:Hd; [rewrite ?gen_seq_yield_error; apply Hrest|].
    destruct (str_truthy (prop_name a)) eqn:Hname; simpl.
    + rewrite ?gen_seq_yield_error. apply Hrest.
    + intros [= <-]. right. exists a. split; [left|].
      do 4 (split; [done || by eapply not_an_association_typed|]). eauto.
  - simpl. intros [= <-]. left. by eapply not_an_association_error.
Qed.

Lemma associations_loop_returns R fuel overrides h c attrs :
  (∀ a, a ∈ attrs → str_truthy (prop_name a) = true) →
  (∀ a, a ∈ attrs → ∃ b, not_an_association fuel h a = Ok b) →
  ∀ redefinitions, (associations_loop R fuel overrides h c attrs redefinitions).2 = None.
Proof.
  induction attrs as [|a attrs IH]; intros Hnamed Htotal redefinitions; [done|].
  cbn [associations_loop].
  assert (∀ r, (associations_loop R fuel overrides h c attrs r).2 = None) as Hrest.
  { apply IH; intros a' Ha'; [apply Hnamed|apply Htotal]; by right. }
  destruct (override_for overrides _) as [o|].
  { rewrite ?gen_seq_yield_error. apply Hrest. }
  destruct (Htotal a) as [[] ->]; [left|apply Hrest|].
  destruct (truthy (redefines a)); [apply Hrest|].
  destruct (isDerived a); [rewrite ?gen_seq_yield_error; apply Hrest|].
  rewrite (Hnamed a) by left. simpl. rewrite ?gen_seq_yield_error. apply Hrest.
Qed.

Lemma is_simple_type_total_acyclic fuel h t :
  acyclic h → length (class_universe h) < fuel →
  ∃ b, is_simple_type fuel h t = Ok b.
Proof.
  intros Hac Hlen. apply (is_simple_type_total fuel h t (t :: class_universe h)).
  - left.
  - intros x g _ Hg. right. eapply bases_in_universe. by apply general_rel_base_rel.
  - intros x _. by apply acyclic_general_rel.
  - simpl. lia.
Qed.

Lemma not_an_association_total fuel h a :
  acyclic h → length (class_universe h) < fuel →
  ∃ b, not_an_association fuel h a = Ok b.
Proof.
  intros Hac Hlen. unfold not_an_association. destruct (type a) as [t|]; [|eauto].
  destruct (is_simple_type_total_acyclic fuel h t Hac Hlen) as [b ->]. simpl. eauto.
Qed.

(** [associations] ends in an exception only for an attribute without a name:
    when it raises, this is a [RecursionError] of the test for simple types,
    or a [ValueError] for an owned attribute that has a type, no name, is not
    derived and redefines nothing.  When every attribute of the class has a
    name, on a model whose bases have no cycle, it raises nothing, once the
    recursion may go as deep as there are classes. *)
Theorem associations_unnamed_attribute (R : Recipes) (fuel : nat)
    (overrides : option Overrides) (h : Heap) (c : nat) :
  (∀ e, (associations R fuel overrides h c).2 = Some e →
        e = RecursionError ∨
        ∃ a, a ∈ ownedAttribute (cls h c)
             ∧ str_truthy (prop_name (prop h a)) = false
             ∧ is_Some (type (prop h a)) ∧ isDerived (prop h a) = false
             ∧ truthy (redefines (prop h a)) = false
             ∧ ∃ msg, e = ValueError msg) ∧
  (acyclic h → length (class_universe h) < fuel →
   (∀ a, a ∈ ownedAttribute (cls h c) → str_truthy (prop_name (prop h a)) = true) →
   (associations R fuel overrides h c).2 = None).
Proof.
  unfold associations. split.
  - intros e [->|(p & Hin & Hrest)]%associations_loop_error; [by left|].
    right. apply list_elem_of_fmap in Hin as (a & -> & Hin). eauto.
  - intros Hac Hlen Hnamed. apply associations_loop_returns.
    + intros p (a & -> & Hin)%list_elem_of_fmap. by apply Hnamed.
    + intros p _. by apply not_an_association_total.
Qed.

Lemma associations_unnamed_attribute_witness :
  ∃ e, (associations sample_recipes 9 None unnamed_end 0).2 = Some e ∧
       (e = RecursionError ∨
        ∃ a, a ∈ ownedAttribute (cls unnamed_end 0)
             ∧ str_truthy (prop_name (prop unnamed_end a)) = false
             ∧ is_Some (type (prop unnamed_end a))
             ∧ isDerived (prop unnamed_end a) = false
             ∧ truthy (redefines (prop unnamed_end a)) = false
             ∧ ∃ msg, e = ValueError msg).
Proof.
  eexists. split; [vm_compute; reflexivity|].
  apply (proj1 (associations_unnamed_attribute sample_recipes 9 None unnamed_end 0)).
  vm_compute. reflexivity.
Defined.

Lemma variables_attribute_unwritable R fuel overrides h c a o :
  is_extension_end a = false →
  override_for overrides (full_name_of h c a) = None →
  type a = None → str_truthy (typeValue a) = false → isDerived a = false →
  owner a = Some o →
  variables_attribute R fuel overrides h c a
  = gen_raise (ValueError (fmt (prop_name a) +:+ ": None can not be written; owner="
                           +:+ fmt (cls_name (cls h o)))).
Proof.
  intros Hx Ho Ht Hv Hd Hown. unfold variables_attribute.
  fold (full_name_of h c a). rewrite Hx, Ho, Hd, Hv, Ht, Hown. done.
Qed.

(** [variables] can not write an attribute that has neither a type nor a type
    value: for a class that owns such an attribute (no end of an extension,
    without override, and not derived) [variables] ends in an exception, and
    the attribute by itself gives the [ValueError] that names it and its
    owner. *)
Theorem variables_unwritable_attribute (R : Recipes) (fuel : nat)
    (overrides : option Overrides) (h : Heap) (c a o : nat) :
  a ∈ ownedAttribute (cls h c) →
  is_extension_end (prop h a) = false →
  override_for overrides (full_name_of h c (prop h a)) = None →
  type (prop h a) = None → str_truthy (typeValue (prop h a)) = false →
  isDerived (prop h a) = false → owner (prop h a) = Some o →
  variables_attribute R fuel overrides h c (prop h a)
  = gen_raise (ValueError (fmt (prop_name (prop h a))
                           +:+ ": None can not be written; owner="
                           +:+ fmt (cls_name (cls h o)))) ∧
  ∃ e, (variables R fuel overrides h c).2 = Some e.
Proof.
  intros Hin Hx Ho Ht Hv Hd Hown.
  pose proof (variables_attribute_unwritable R fuel overrides h c _ o
                Hx Ho Ht Hv Hd Hown) as Ha.
  split; [done|]. unfold variables.
  destruct (gen_concat_raises
              (variables_attribute R fuel overrides h c
                 <$> sorted (λ a, default "" (prop_name a))
                       (prop h <$> ownedAttribute (cls h c)))
              (variables_attribute R fuel overrides h c (prop h a))
              (ValueError (fmt (prop_name (prop h a))
                           +:+ ": None can not be written; owner="
                           +:+ fmt (cls_name (cls h o))))) as [e He].
  - apply list_elem_of_fmap. exists (prop h a). split; [done|].
    apply elem_of_sorted, list_elem_of_fmap. eauto.
  - by rewrite Ha.
  - exists e. by apply gen_seq_raises_l.
Qed.

Lemma variables_unwritable_attribute_witness :
  variables_attribute sample_recipes 9 None untyped_property 0 (prop untyped_property 0)
  = gen_raise (ValueError (fmt (prop_name (prop untyped_property 0))
                           +:+ ": None can not be written; owner="
                           +:+ fmt (cls_name (cls untyped_property 0)))) ∧
  ∃ e, (variables sample_recipes 9 None untyped_property 0).2 = Some e.
Proof.
  apply (variables_unwritable_attribute sample_recipes 9 None untyped_property 0 0 0).
  - vm_compute. left.
  - reflexivity.
  - reflexivity.
  - reflexivity.
  - reflexivity.
  - reflexivity.
  - reflexivity.
Defined.

(** ** The derived properties of requirements *)

(** [derived] and [derivedFrom] of requirements are each other's converse:
    over the same derive relationships, a requirement is among those derived
    for another one exactly when that one is among those it is derived
    from. *)
Theorem derived_converse_derivedFrom (selected : list DirectedRelationshipPropertyPath)
    (x y : nat) :
  y ∈ _directed_relationship_property_path_target_source selected x
  ↔ x ∈ AbstractRequirement_derivedFrom selected y.
Proof.
  unfold _directed_relationship_property_path_target_source,
    AbstractRequirement_derivedFrom.
  rewrite !list_elem_of_omap. split.
  - intros (element & Hin & He). exists element. split; [done|].
    case_bool_decide as Hs; [|discriminate].
    rewrite bool_decide_eq_true_2 by done. done.
  - intros (element & Hin & He). exists element. split; [done|].
    case_bool_decide as Ht; [|discriminate].
    rewrite bool_decide_eq_true_2 by done. done.
Qed.

Lemma derived_converse_derivedFrom_witness :
  1 ∈ AbstractRequirement_derivedFrom derive_relationships 2.
Proof.
  apply (proj1 (derived_converse_derivedFrom derive_relationships 1 2)).
  vm_compute. left.
Defined.

(** ** The top-level package of a class *)

Lemma is_in_toplevel_package_test_root fuel h pkg_name package_name :
  ∀ p b, is_in_toplevel_package_test fuel h pkg_name package_name (Some p) = Ok b →
         (b = true ↔ toplevel_named h pkg_name package_name p).
Proof.
  unfold toplevel_named.
  induction fuel as [|fuel IH]; intros p b; simpl; [discriminate|].
  destruct (pkg_owningPackage (pkg h p)) as [q0|] eqn:Hown.
  - intros Hq0%IH. rewrite Hq0. split.
    + intros (q & Hrtc & Hroot). exists q. split; [|done]. by eapply rtc_l.
    + intros (q & Hrtc & Hroot & Hname).
      apply rtc_inv in Hrtc as [<-|(z & Hz & Hrtc)]; [congruence|].
      unfold owning_rel in Hz. rewrite Hown in Hz. injection Hz as <-. eauto.
  - intros [= <-]. rewrite bool_decide_eq_true. split.
    + intros Hname. exists p. done.
    + intros (q & Hrtc & Hroot & Hname).
      apply rtc_inv in Hrtc as [<-|(z & Hz & Hrtc)]; [done|].
      unfold owning_rel in Hz. congruence.
Qed.

Lemma is_in_toplevel_package_test_total fuel h pkg_name package_name p (U : list nat) :
  p ∈ U → (∀ x q, x ∈ U → owning_rel h x q → q ∈ U) →
  (∀ x, x ∈ U → ¬ tc (owning_rel h) x x) → length U ≤ fuel →
  ∃ b, is_in_toplevel_package_test fuel h pkg_name package_name (Some p) = Ok b.
Proof.
  intros Hp Hclosed Hac Hlen.
  apply (descent_total (λ p, option_list (pkg_owningPackage (pkg h p))) U
           (λ fuel p, is_in_toplevel_package_test fuel h pkg_name package_name (Some p)));
    [| | |done|done].
  - intros x q Hx Hq%elem_of_option_list'. by eapply Hclosed.
  - intros x Hx Hxx. apply (Hac x Hx). eapply tc_weaken; [|done].
    intros y z Hz%elem_of_option_list'. done.
  - intros n x _ Hx. simpl.
    destruct (pkg_owningPackage (pkg h x)) as [q|] eqn:Hq; [|eauto].
    apply Hx. apply elem_of_option_list'. done.
Qed.

(** [is_in_toplevel_package] tells whether the outermost package around the
    class bears the given name: that is what it returns when it returns.  For
    a class in a package it returns when there is a list of packages, no
    longer than the recursion may go deep, that holds the package of the
    class, is closed under ownership and in which no package owns itself
    over any number of levels; for a class that is in no package it raises
    an [AttributeError]. *)
Theorem is_in_toplevel_package_root (fuel : nat) (h : Heap)
    (pkg_name : nat → option string) (c : nat) (package_name : string) :
  (∀ b, is_in_toplevel_package fuel h pkg_name c package_name = Ok b →
        ∃ p, owningPackage (cls h c) = Some p
             ∧ (b = true ↔ toplevel_named h pkg_name package_name p)) ∧
  (∀ (p : nat) (U : list nat),
     owningPackage (cls h c) = Some p → p ∈ U →
     (∀ x q, x ∈ U → owning_rel h x q → q ∈ U) →
     (∀ x, x ∈ U → ¬ tc (owning_rel h) x x) → length U ≤ fuel →
     ∃ b, is_in_toplevel_package fuel h pkg_name c package_name = Ok b) ∧
  (0 < fuel → owningPackage (cls h c) = None →
   is_in_toplevel_package fuel h pkg_name c package_name = Raise AttributeError).
Proof.
  unfold is_in_toplevel_package. split; [|split].
  - intros b Hb. destruct (owningPackage (cls h c)) as [p|].
    + exists p. split; [done|]. by eapply is_in_toplevel_package_test_root.
    + destruct fuel; discriminate.
  - intros p U -> Hp Hclosed Hac Hlen. by eapply is_in_toplevel_package_test_total.
  - intros Hfuel ->. destruct fuel; [lia|done].
Qed.

Lemma is_in_toplevel_package_root_witness :
  (∃ p, owningPackage (cls profile_class 0) = Some p
        ∧ (true = true ↔ toplevel_named profile_class profile_class_names "Profile" p)) ∧
  ∃ b, is_in_toplevel_package 2 profile_class profile_class_names 0 "Profile" = Ok b.
Proof.
  split.
  - apply (proj1 (is_in_toplevel_package_root 2 profile_class profile_class_names 0
                    "Profile") true).
    vm_compute. reflexivity.
  - apply (proj1 (proj2 (is_in_toplevel_package_root 2 profile_class
                           profile_class_names 0 "Profile")) 1 [1; 0]).
    + reflexivity.
    + left.
    + intros x q Hx Hq. by apply (profile_class_owners x q).
    + apply decreasing_no_cycle. apply profile_class_owners.
    + simpl. lia.
Defined.

(** ** Operations *)

Lemma operations_loop overrides h c (l : list Operation) :
  let g := gen_concat
             ((λ o, let full_name := fmt (cls_name (cls h c)) +:+ "." +:+ fmt (op_name o) in
                    match override_for overrides full_name with
                    | Some ov => gen_yield (get_override ov full_name)
                    | None => gen_skip
                    end) <$> l) in
  g.2 = None ∧ warnings g.1 = [] ∧
  (∀ line, line ∈ lines g.1 →
     ∃ o ov, o ∈ l
       ∧ override_for overrides (fmt (cls_name (cls h c)) +:+ "." +:+ fmt (op_name o))
         = Some ov
       ∧ line = get_override ov (fmt (cls_name (cls h c)) +:+ "." +:+ fmt (op_name o))) ∧
  (overrides = None → g.1 = []).
Proof.
  induction l as [|o l IH]; simpl.
  - do 2 (split; [done|]). split; [by intros line ?%elem_of_nil|done].
  - simpl in IH. destruct IH as (Herr & Hwarn & Hlines & Hnone).
    destruct (override_for overrides _) as [ov|] eqn:Ho.
    + unfold gen_seq. simpl. split; [done|]. split; [done|]. split.
      * intros line [->|Hin]%elem_of_cons.
        -- exists o, ov. split; [left|done].
        -- destruct (Hlines line Hin) as (o' & ov' & Hin' & Hrest).
           exists o', ov'. split; [by right|done].
      * intros ->. discriminate.
    + unfold gen_seq. simpl. split; [done|]. split; [done|]. split; [|done].
      intros line Hin.
      destruct (Hlines line Hin) as (o' & ov' & Hin' & Hrest).
      exists o', ov'. split; [by right|done].
Qed.

(** [operations] writes override texts and nothing else: it raises nothing
    and logs nothing, every line it yields is the override text registered
    for an operation of the class, and without overrides it yields nothing. *)
Theorem operations_only_overrides (overrides : option Overrides) (h : Heap) (c : nat) :
  (operations overrides h c).2 = None ∧
  warnings (operations overrides h c).1 = [] ∧
  (∀ line, line ∈ lines (operations overrides h c).1 →
     ∃ o ov, o ∈ ownedOperation (cls h c)
       ∧ override_for overrides (fmt (cls_name (cls h c)) +:+ "." +:+ fmt (op_name o))
         = Some ov
       ∧ line = get_override ov (fmt (cls_name (cls h c)) +:+ "." +:+ fmt (op_name o))) ∧
  (overrides = None → (operations overrides h c).1 = []).
Proof.
  unfold operations.
  destruct (operations_loop overrides h c
              (sorted (λ o, default "" (op_name o)) (ownedOperation (cls h c))))
    as (Herr & Hwarn & Hlines & Hnone).
  do 2 (split; [done|]). split; [|done].
  intros line Hin. destruct (Hlines line Hin) as (o & ov & Ho & Hrest).
  exists o, ov. split; [by apply elem_of_sorted in Ho|done].
Qed.
